(** * mailio: the message model of [message.cpp]

    A shallow embedding of [mailio::message] (src/src/message.cpp): the
    multipart assembler ([attach], [attachments_size], [attachment],
    [format]), the header codec ([format_header], [parse_header_line]), the
    mailbox formatter ([format_address], [format_mailbox]), the address list
    state machine ([parse_address_list]) and the date parser ([parse_date]).

    Conventions.
    - [std::string] is a list of characters ([text]); [txt "..."] writes a
      literal.
    - A C++ function that may throw returns a [result]; a function that
      mutates reference parameters before it may throw returns an [outcome],
      which keeps the state of those parameters at the throw.
    - [size_t] counters are [nat]: the only counter of the file ([no] in
      [attachments_size] and [attachment]) is bounded by [_parts.size()], so
      it never wraps.
    - The classes and libraries which [message.cpp] uses but does not define
      (the [mime] base class, the [codec] constants, the Boost date facets)
      are interfaces: type classes whose operations the theorems quantify
      over. *)

From Stdlib Require Import List Bool Arith Lia Ascii.
From Stdlib Require String.
Import ListNotations String.StringSyntax.
Bind Scope string_scope with String.string.

Set Implicit Arguments.
Set Warnings "-register-all".

(** ** Text *)

Definition text := list ascii.

Definition txt (s : String.string) : text := String.list_ascii_of_string s.

Definition text_eqb (a b : text) : bool :=
  if list_eq_dec ascii_dec a b then true else false.

Definition CRLF : text := [ascii_of_nat 13; ascii_of_nat 10].

(** [isspace], [isalpha], [isdigit] of <cctype> in the "C" locale. *)
Definition isspace (c : ascii) : bool :=
  let n := nat_of_ascii c in (n =? 32) || ((9 <=? n) && (n <=? 13)).

Definition isupper (c : ascii) : bool :=
  let n := nat_of_ascii c in (65 <=? n) && (n <=? 90).

Definition islower (c : ascii) : bool :=
  let n := nat_of_ascii c in (97 <=? n) && (n <=? 122).

Definition isalpha (c : ascii) : bool := isupper c || islower c.

Definition isdigit (c : ascii) : bool :=
  let n := nat_of_ascii c in (48 <=? n) && (n <=? 57).

Definition tolower (c : ascii) : ascii :=
  if isupper c then ascii_of_nat (nat_of_ascii c + 32) else c.

(** [s.find(c) != string::npos]. *)
Definition find_char (s : text) (c : ascii) : bool := existsb (Ascii.eqb c) s.

(** [boost::trim] / [boost::trim_copy]: leading and trailing [isspace]
    characters are removed. *)
Fixpoint trim_left (s : text) : text :=
  match s with
  | c :: s' => if isspace c then trim_left s' else s
  | [] => []
  end.

Definition trim_right (s : text) : text := rev (trim_left (rev s)).

Definition trim (s : text) : text := trim_right (trim_left s).

(** [boost::iequals]. *)
Definition iequals (a b : text) : bool :=
  text_eqb (map tolower a) (map tolower b).

(** [s.substr(pos, n)] and [s.substr(pos)] for [pos <= s.size()]. *)
Definition substr (s : text) (pos n : nat) : text := firstn n (skipn pos s).
Definition substr_from (s : text) (pos : nat) : text := skipn pos s.

(** ** Errors *)

(** The [message_error]s of message.cpp, by their message; [Foreign_error] is
    any exception of a collaborator or of a library. *)
Inductive message_error : Type :=
| No_attachment_at_the_given_index
| Non_multipart_message_with_boundary
| Bad_sender
| Bad_address_or_group
| Bad_date_format
| Foreign_error.

Inductive result (A : Type) : Type :=
| Ok (a : A)
| Err (e : message_error).
Arguments Err {A} e.

Definition bind {A B} (r : result A) (k : A -> result B) : result B :=
  match r with
  | Ok a => k a
  | Err e => Err e
  end.

Declare Scope result_scope.
Delimit Scope result_scope with result.
Notation "x <- r ;; k" := (bind r (fun x => k))
  (at level 61, r at next level, right associativity) : result_scope.
Notation "' p <- r ;; k" := (bind r (fun p => k))
  (at level 61, p pattern, r at next level, right associativity) : result_scope.
Open Scope result_scope.

(** The state [S] of the reference parameters when the call ends, and how it
    ended. *)
Inductive outcome (S : Type) : Type :=
| Returned (s : S)
| Thrown (e : message_error) (s : S).

(** ** Data model *)

Record mail_address : Type := Mail_address {
  name : text;
  address : text
}.

(** [mail_address::clear]. *)
Definition empty_address : mail_address := Mail_address [] [].

(** [mail_group], over the type [A] of its members: [A] is [mail_address]
    in the program. *)
Record mail_group_of (A : Type) : Type := Mail_group {
  group_name : text;
  members : list A
}.

Record mailboxes_of (A : Type) : Type := Mailboxes {
  addresses : list A;
  groups : list (mail_group_of A)
}.

Definition mail_group := mail_group_of mail_address.
Definition mailboxes := mailboxes_of mail_address.

(** [mailboxes::empty]. *)
Definition mailboxes_empty (m : mailboxes) : bool :=
  match addresses m, groups m with
  | [], [] => true
  | _, _ => false
  end.

(** Modelled from the spec: the enumerations of mime.hpp, which is not under
    src/. message.cpp names [MULTIPART], [BASE_64] and [ATTACHMENT]; the
    other constructors are the remaining kinds of the MIME entity. *)
Inductive media_type_t : Type :=
| NONE | TEXT | IMAGE | AUDIO | VIDEO | APPLICATION | MULTIPART | MESSAGE.

Inductive content_transfer_encoding_t : Type :=
| ENC_NONE | BIT_7 | BIT_8 | BASE_64 | QUOTED_PRINTABLE | BINARY.

Inductive content_disposition_t : Type :=
| DISP_NONE | INLINE | ATTACHMENT.

Definition is_multipart (t : media_type_t) : bool :=
  match t with MULTIPART => true | _ => false end.

Definition is_attachment (d : content_disposition_t) : bool :=
  match d with ATTACHMENT => true | _ => false end.

Record content_type_t : Type := Content_type {
  type : media_type_t;
  subtype : text
}.

(** Modelled from the spec: the fields of the [mime] entity (mime.hpp is not
    under src/) which message.cpp reads and writes. *)
Inductive mime : Type := Mime {
  _boundary : text;
  _version : text;
  _content_type : content_type_t;
  _encoding : content_transfer_encoding_t;
  _disposition : content_disposition_t;
  _name : text;
  _content : text;
  _parts : list mime
}.

(** Modelled from the spec: a default constructed [mime]; the version
    defaults to 1.0. *)
Definition mime_default : mime :=
  Mime [] (txt "1.0") (Content_type NONE []) ENC_NONE DISP_NONE [] [] [].

Inductive month_t : Type :=
| Jan | Feb | Mar | Apr | May | Jun | Jul | Aug | Sep | Oct | Nov | Dec.

(** Modelled from the spec: [boost::local_time::local_date_time] as a
    wall-clock reading with a fixed zone offset, or the not-a-date-time
    sentinel. [fraction] is the sub-second part. *)
Record date_fields : Type := Date_fields {
  year : nat;
  month : month_t;
  day : nat;
  hours : nat;
  minutes : nat;
  seconds : nat;
  fraction : nat;
  zone_west : bool;
  zone_hours : nat;
  zone_minutes : nat
}.

Inductive local_date_time : Type :=
| not_a_date_time
| date_time_at (d : date_fields).

Definition is_not_a_date_time (d : local_date_time) : bool :=
  match d with not_a_date_time => true | _ => false end.

(** [message] extends [mime]. *)
Record message : Type := Message {
  base : mime;
  _sender : mail_address;
  _reply_address : mail_address;
  _recipients : mailboxes;
  _cc_recipients : mailboxes;
  _bcc_recipients : mailboxes;
  _subject : text;
  _date_time : local_date_time
}.

(** ** Collaborators *)

(** The operations of the [mime] base class which message.cpp calls and
    mime.cpp (not under src/) defines. [mime_format p dot_escape] is the
    text which [p.format(p_str, dot_escape)] appends to an empty [p_str]. *)
Class Mime_collaborator : Type := {
  mime_format_header : mime -> result text;
  format_content : mime -> bool -> result text;
  mime_format : mime -> bool -> result text;
  mime_parse_header_line : text -> mime -> result mime;
  parse_header_name_value : text -> result (text * text)
}.

(** The Boost date facets: [facet_write d] is [ss << d] under the facet
    "%a, %d %b %Y %H:%M:%S %q"; [facet_read s] is [ss >> ldt] under the
    facet "%a %d %b %Y %H:%M:%S %ZP", [None] when the stream throws. *)
Class Date_facets : Type := {
  facet_write : local_date_time -> option text;
  facet_read : text -> option local_date_time
}.

(** ** Constants *)

Definition ATEXT : text := txt "!#$%&'*+-./=?^_`{|}~".
Definition DTEXT : text := txt "!#$%&'*+-.@/=?^_`{|}~".
Definition FROM_HEADER : text := txt "From".
Definition REPLY_TO_HEADER : text := txt "Reply-To".
Definition TO_HEADER : text := txt "To".
Definition CC_HEADER : text := txt "Cc".
Definition BCC_HEADER : text := txt "Bcc".
Definition SUBJECT_HEADER : text := txt "Subject".
Definition DATE_HEADER : text := txt "Date".
Definition MIME_VERSION_HEADER : text := txt "MIME-Version".

(** Modelled from the spec: the separator of a header name and its value
    ([mime::COLON], not under src/); a header line is [Name: value]. *)
Definition COLON : text := txt ": ".

(** Modelled from the spec: the character constants of codec.hpp (not under
    src/), each the character its name says. *)
Definition QUOTE_CHAR : ascii := ascii_of_nat 34.
Definition BACKSLASH_CHAR : ascii := ascii_of_nat 92.
Definition SPACE_CHAR : ascii := " "%char.
Definition TAB_CHAR : ascii := ascii_of_nat 9.
Definition LESS_THAN_CHAR : ascii := "<"%char.
Definition GREATER_THAN_CHAR : ascii := ">"%char.
Definition MONKEY_CHAR : ascii := "@"%char.
Definition COMMA_CHAR : ascii := ","%char.
Definition COLON_CHAR : ascii := ":"%char.
Definition SEMICOLON_CHAR : ascii := ";"%char.
Definition LEFT_PARENTHESIS_CHAR : ascii := "("%char.
Definition RIGHT_PARENTHESIS_CHAR : ascii := ")"%char.

(** ** Multipart assembler *)

Definition set_parts (m : mime) (ps : list mime) : mime :=
  Mime (_boundary m) (_version m) (_content_type m) (_encoding m)
       (_disposition m) (_name m) (_content m) ps.

Definition set_boundary (m : mime) (b : text) : mime :=
  Mime b (_version m) (_content_type m) (_encoding m)
       (_disposition m) (_name m) (_content m) (_parts m).

Definition set_content_type (m : mime) (ct : content_type_t) : mime :=
  Mime (_boundary m) (_version m) ct (_encoding m)
       (_disposition m) (_name m) (_content m) (_parts m).

Definition set_version (m : mime) (v : text) : mime :=
  Mime (_boundary m) v (_content_type m) (_encoding m)
       (_disposition m) (_name m) (_content m) (_parts m).

Definition set_base (msg : message) (b : mime) : message :=
  Message b (_sender msg) (_reply_address msg) (_recipients msg)
          (_cc_recipients msg) (_bcc_recipients msg) (_subject msg)
          (_date_time msg).

(** The part which [attach] builds: a default [mime] with the content type,
    base64 transfer encoding, attachment disposition, name and content
    set. *)
Definition attachment_part (att_name : text) (ty : media_type_t)
    (sub : text) (content : text) : mime :=
  Mime (_boundary mime_default) (_version mime_default)
       (Content_type ty sub) BASE_64 ATTACHMENT att_name content
       (_parts mime_default).

(** [message::attach]. [fresh] is what [make_boundary()] returns if it is
    called; [att_strm] is the whole content of the input stream. *)
Definition attach (fresh : text) (att_strm att_name : text)
    (ty : media_type_t) (sub : text) (msg : message) : message :=
  let b := base msg in
  let b := match _boundary b with
           | [] => set_boundary b fresh
           | _ :: _ => b
           end in
  let b := set_content_type b (Content_type MULTIPART (txt "mixed")) in
  let content := att_strm in
  let m := attachment_part att_name ty sub content in
  set_base msg (set_parts b (_parts b ++ [m])).

(** [message::attachments_size]. *)
Fixpoint count_attachments (ps : list mime) (no : nat) : nat :=
  match ps with
  | [] => no
  | m :: ps' =>
      if is_attachment (_disposition m)
      then count_attachments ps' (S no)
      else count_attachments ps' no
  end.

Definition attachments_size (msg : message) : nat :=
  count_attachments (_parts (base msg)) 0.

(** The loop of [message::attachment] from the counter [no] on: the counter,
    the stream and the name when the loop ends, at the [break] or at the end
    of the parts. *)
Fixpoint attachment_loop (index : nat) (ps : list mime) (no : nat)
    (att_strm att_name : text) : nat * (text * text) :=
  match ps with
  | [] => (no, (att_strm, att_name))
  | m :: ps' =>
      if is_attachment (_disposition m) then
        if S no =? index
        then (S no, (att_strm ++ _content m, _name m))
        else attachment_loop index ps' (S no) att_strm att_name
      else attachment_loop index ps' no att_strm att_name
  end.

(** [message::attachment]: the stream and the name are reference
    parameters. *)
Definition attachment (index : nat) (msg : message)
    (att_strm att_name : text) : outcome (text * text) :=
  if index =? 0 then
    Thrown No_attachment_at_the_given_index (att_strm, att_name)
  else
    let '(no, io) :=
      attachment_loop index (_parts (base msg)) 0 att_strm att_name in
    if length (_parts (base msg)) <? no
    then Thrown No_attachment_at_the_given_index io
    else Returned io.

(** ** Mailbox formatter *)

Definition isalnum (c : ascii) : bool := isalpha c || isdigit c.

(** The character classes of the regular expressions of [format_mailbox]
    and [format_address]; each expression is a starred class, so a text
    matches when all its characters are in the class. *)
Definition ATEXT_REGEX (s : text) : bool :=
  forallb (fun c => isalnum c || find_char (txt "!#$%&'*+-./=?^_`{|}~") c) s.

Definition QTEXT_REGEX (s : text) : bool :=
  forallb (fun c => isalnum c || Ascii.eqb c SPACE_CHAR || Ascii.eqb c TAB_CHAR
                    || find_char (txt "!#$%&'()*+,-.@/:;<=>?[]^_`{|}~") c) s.

Definition DTEXT_REGEX (s : text) : bool :=
  forallb (fun c => isalnum c || find_char (txt "!#$%&'*+-.@/=?^_`{|}~") c) s.

Definition NAME_REGEX (s : text) : bool :=
  forallb (fun c => isalnum c || Ascii.eqb c SPACE_CHAR || Ascii.eqb c TAB_CHAR) s.

Definition is_nil {A} (l : list A) : bool :=
  match l with [] => true | _ => false end.

(** [message::format_address]. *)
Definition format_address (name address : text) : result text :=
  if is_nil name && is_nil address then Ok []
  else
    snd_name <-
      (if NAME_REGEX name then Ok name
       else if QTEXT_REGEX name then Ok (QUOTE_CHAR :: name ++ [QUOTE_CHAR])
       else Err Bad_address_or_group) ;;
    addr <-
      (if is_nil address then Ok []
       else if DTEXT_REGEX address
            then Ok (LESS_THAN_CHAR :: address ++ [GREATER_THAN_CHAR])
            else Err Bad_address_or_group) ;;
    Ok (if is_nil snd_name then addr
        else snd_name ++ (if is_nil addr then [] else txt " " ++ addr)).

(** The two address loops of [format_mailbox]: every address formatted,
    [", "] after each but the last. *)
Fixpoint format_addresses (l : list mail_address) : result text :=
  match l with
  | [] => Ok []
  | ma :: l' =>
      a <- format_address (name ma) (address ma) ;;
      rest <- format_addresses l' ;;
      Ok (a ++ (if is_nil l' then [] else txt ", ") ++ rest)
  end.

Fixpoint format_groups (l : list mail_group) : result text :=
  match l with
  | [] => Ok []
  | mg :: l' =>
      if ATEXT_REGEX (group_name mg) then
        ms <- format_addresses (members mg) ;;
        rest <- format_groups l' ;;
        Ok (group_name mg ++ [COLON_CHAR; SPACE_CHAR] ++ ms
            ++ (if is_nil l' then txt ";" else txt "; ") ++ rest)
      else Err Bad_address_or_group
  end.

(** [message::format_mailbox]. *)
Definition format_mailbox (mailbox_list : mailboxes) : result text :=
  as_ <- format_addresses (addresses mailbox_list) ;;
  gs <- format_groups (groups mailbox_list) ;;
  Ok (as_ ++ (if is_nil (groups mailbox_list) then [] else txt ", ") ++ gs).

(** ** Header codec: formatting *)

Section Formatting.
Context {MC : Mime_collaborator} {DF : Date_facets}.

Definition sender_to_string (msg : message) : result text :=
  format_address (name (_sender msg)) (address (_sender msg)).

Definition reply_address_to_string (msg : message) : result text :=
  format_address (name (_reply_address msg)) (address (_reply_address msg)).

Definition recipients_to_string (msg : message) : result text :=
  format_mailbox (_recipients msg).

Definition cc_recipients_to_string (msg : message) : result text :=
  format_mailbox (_cc_recipients msg).

Definition bcc_recipients_to_string (msg : message) : result text :=
  format_mailbox (_bcc_recipients msg).

(** One header line: [NAME + COLON + value + "\r\n"]. *)
Definition header_line (hname value : text) : text :=
  hname ++ COLON ++ value ++ CRLF.

(** The lines which [format_header] adds for each header, in turn. *)
Definition from_lines (msg : message) : result text :=
  v <- sender_to_string msg ;; Ok (header_line FROM_HEADER v).

Definition reply_to_lines (msg : message) : result text :=
  if is_nil (name (_reply_address msg)) then Ok []
  else v <- reply_address_to_string msg ;; Ok (header_line REPLY_TO_HEADER v).

Definition to_lines (msg : message) : result text :=
  v <- recipients_to_string msg ;; Ok (header_line TO_HEADER v).

Definition cc_lines (msg : message) : result text :=
  if mailboxes_empty (_cc_recipients msg) then Ok []
  else v <- cc_recipients_to_string msg ;; Ok (header_line CC_HEADER v).

Definition bcc_lines (msg : message) : result text :=
  if mailboxes_empty (_bcc_recipients msg) then Ok []
  else v <- bcc_recipients_to_string msg ;; Ok (header_line BCC_HEADER v).

Definition date_lines (msg : message) : result text :=
  if is_not_a_date_time (_date_time msg) then Ok []
  else match facet_write (_date_time msg) with
       | Some v => Ok (header_line DATE_HEADER v)
       | None => Err Foreign_error
       end.

Definition mime_version_lines (msg : message) : text :=
  if is_nil (_parts (base msg)) then []
  else header_line MIME_VERSION_HEADER (_version (base msg)).

Definition subject_lines (msg : message) : text :=
  SUBJECT_HEADER ++ COLON ++ _subject msg ++ CRLF ++ CRLF.

(** [message::format_header]. *)
Definition format_header (msg : message) : result text :=
  if negb (is_nil (_boundary (base msg)))
     && negb (is_multipart (type (_content_type (base msg))))
  then Err Non_multipart_message_with_boundary
  else
    h_from <- from_lines msg ;;
    h_reply <- reply_to_lines msg ;;
    h_to <- to_lines msg ;;
    h_cc <- cc_lines msg ;;
    h_bcc <- bcc_lines msg ;;
    h_date <- date_lines msg ;;
    h_mime <- mime_format_header (base msg) ;;
    Ok (h_from ++ h_reply ++ h_to ++ h_cc ++ h_bcc ++ h_date
        ++ mime_version_lines msg ++ h_mime ++ subject_lines msg).

(** The loop of [message::format] over the parts: each part is formatted
    into a string of its own, which goes between two boundary lines. *)
Fixpoint format_parts (boundary : text) (dot_escape : bool)
    (ps : list mime) (message_str : text) : outcome text :=
  match ps with
  | [] => Returned message_str
  | p :: ps' =>
      match mime_format p dot_escape with
      | Err e => Thrown e message_str
      | Ok p_str =>
          format_parts boundary dot_escape ps'
            (message_str ++ txt "--" ++ boundary ++ CRLF ++ p_str ++ CRLF)
      end
  end.

(** [message::format]: [message_str] is a reference parameter. *)
Definition format (msg : message) (dot_escape : bool) (message_str : text)
    : outcome text :=
  match format_header msg with
  | Err e => Thrown e message_str
  | Ok header =>
      let message_str := message_str ++ header in
      match format_content (base msg) dot_escape with
      | Err e => Thrown e message_str
      | Ok content =>
          let message_str := message_str ++ content in
          if is_nil (_parts (base msg)) then Returned message_str
          else
            let message_str :=
              if is_nil content then message_str else message_str ++ CRLF in
            match format_parts (_boundary (base msg)) dot_escape
                               (_parts (base msg)) message_str with
            | Thrown e s => Thrown e s
            | Returned message_str =>
                Returned (message_str ++ txt "--" ++ _boundary (base msg)
                          ++ txt "--" ++ CRLF)
            end
      end
  end.

End Formatting.

(** ** Address list parser *)

Inductive state_t : Type :=
| BEGIN | NAMEADDRGRP | QNAMEADDRBEG | ADDR | NAME | QNAMEADDREND
| ADDRBRBEG | ADDRBREND | GROUPBEG | GROUPEND | COMMBEG | COMMEND | EOL.

(** [isalpha(c) || isdigit(c) || ATEXT.find(c) != string::npos] at the character [c]. *)
Definition is_atext (ch : ascii) : bool :=
  isalpha ch || isdigit ch || find_char ATEXT ch.

Definition is_char (c ch : ascii) : bool := Ascii.eqb ch c.

Section Address_list.

(** [message::QTEXT] is declared in message.hpp, which is not under src/:
    the parser is stated for any value of the constant. *)
Variable QTEXT : text.

(** The parser stores each completed address through [stamp pos], [pos]
    being the index of the character at which [push_back(cur_address)] runs.
    The program is the instance [A := mail_address], [stamp _ a := a]; the
    instance which pairs an address with [pos] tells two occurrences of one
    address apart. *)
Variable A : Type.
Variable stamp : nat -> mail_address -> A.

(** The local variables of [parse_address_list]. *)
Record locals : Type := Locals {
  mail_list : list A;
  mail_group_list : list (mail_group_of A);
  cur_address : mail_address;
  cur_group : mail_group_of A;
  mail_addrs : list A;
  state : state_t;
  monkey_found : bool;
  group_found : bool;
  token : text
}.

Definition set_mail_list (l : locals) (v : list A) : locals :=
  Locals v (mail_group_list l) (cur_address l) (cur_group l) (mail_addrs l)
         (state l) (monkey_found l) (group_found l) (token l).
Definition set_mail_group_list (l : locals) (v : list (mail_group_of A)) : locals :=
  Locals (mail_list l) v (cur_address l) (cur_group l) (mail_addrs l)
         (state l) (monkey_found l) (group_found l) (token l).
Definition set_cur_address (l : locals) (v : mail_address) : locals :=
  Locals (mail_list l) (mail_group_list l) v (cur_group l) (mail_addrs l)
         (state l) (monkey_found l) (group_found l) (token l).
Definition set_cur_group (l : locals) (v : mail_group_of A) : locals :=
  Locals (mail_list l) (mail_group_list l) (cur_address l) v (mail_addrs l)
         (state l) (monkey_found l) (group_found l) (token l).
Definition set_mail_addrs (l : locals) (v : list A) : locals :=
  Locals (mail_list l) (mail_group_list l) (cur_address l) (cur_group l) v
         (state l) (monkey_found l) (group_found l) (token l).
Definition set_state (l : locals) (v : state_t) : locals :=
  Locals (mail_list l) (mail_group_list l) (cur_address l) (cur_group l)
         (mail_addrs l) v (monkey_found l) (group_found l) (token l).
Definition set_monkey_found (l : locals) (v : bool) : locals :=
  Locals (mail_list l) (mail_group_list l) (cur_address l) (cur_group l)
         (mail_addrs l) (state l) v (group_found l) (token l).
Definition set_group_found (l : locals) (v : bool) : locals :=
  Locals (mail_list l) (mail_group_list l) (cur_address l) (cur_group l)
         (mail_addrs l) (state l) (monkey_found l) v (token l).
Definition set_token (l : locals) (v : text) : locals :=
  Locals (mail_list l) (mail_group_list l) (cur_address l) (cur_group l)
         (mail_addrs l) (state l) (monkey_found l) (group_found l) v.

(** The statements of the machine. *)

(** [token += *ch]. *)
Definition token_add (ch : ascii) (l : locals) : locals :=
  set_token l (token l ++ [ch]).

(** [token.clear()]. *)
Definition token_clear (l : locals) : locals := set_token l [].

(** [cur_address.name = token]. *)
Definition name_from_token (l : locals) : locals :=
  set_cur_address l (Mail_address (token l) (address (cur_address l))).

(** [trim(cur_address.name)]. *)
Definition trim_name (l : locals) : locals :=
  set_cur_address l
    (Mail_address (trim (name (cur_address l))) (address (cur_address l))).

(** [cur_address.address = token]. *)
Definition address_from_token (l : locals) : locals :=
  set_cur_address l (Mail_address (name (cur_address l)) (token l)).

(** [cur_address.clear()]. *)
Definition cur_address_clear (l : locals) : locals :=
  set_cur_address l empty_address.

(** [mail_addrs.push_back(cur_address)], at the character of index [pos]. *)
Definition push_mail_addrs (pos : nat) (l : locals) : locals :=
  set_mail_addrs l (mail_addrs l ++ [stamp pos (cur_address l)]).

(** [mail_list.push_back(cur_address)]. *)
Definition push_mail_list (pos : nat) (l : locals) : locals :=
  set_mail_list l (mail_list l ++ [stamp pos (cur_address l)]).

(** [mail_list.insert(mail_list.end(), mail_addrs.begin(), mail_addrs.end())]. *)
Definition insert_mail_list (l : locals) : locals :=
  set_mail_list l (mail_list l ++ mail_addrs l).

(** [mail_addrs.clear()]. *)
Definition mail_addrs_clear (l : locals) : locals := set_mail_addrs l [].

(** [cur_group.name = token]. *)
Definition group_name_from_token (l : locals) : locals :=
  set_cur_group l (Mail_group (token l) (members (cur_group l))).

(** Modelled from the spec: [mail_group::add] (mailboxes.hpp is not under
    src/) appends the addresses to the members of the group. *)
Definition cur_group_add (l : locals) : locals :=
  set_cur_group l
    (Mail_group (group_name (cur_group l))
                (members (cur_group l) ++ mail_addrs l)).

(** [mail_group_list.push_back(cur_group)]. *)
Definition push_group (l : locals) : locals :=
  set_mail_group_list l (mail_group_list l ++ [cur_group l]).

(** Modelled from the spec: [mail_group::clear] empties the name and the
    members. *)
Definition cur_group_clear (l : locals) : locals :=
  set_cur_group l (Mail_group [] []).

Definition bad : result locals := Err Bad_address_or_group.

(** *** case state_t::BEGIN *)

Definition on_BEGIN (ch : ascii) (l : locals) : result locals :=
  if isspace ch then Ok l
  else if is_atext ch then
    let l := token_add ch l in
    Ok (set_state l NAMEADDRGRP)
  else if is_char QUOTE_CHAR ch then Ok (set_state l QNAMEADDRBEG)
  else if is_char LESS_THAN_CHAR ch then Ok (set_state l ADDRBRBEG)
  else bad.

Definition end_BEGIN (pos : nat) (l : locals) : result locals :=
  match state l with
  | BEGIN => Ok l
  | NAMEADDRGRP =>
      if group_found l then bad
      else if negb (is_nil (token l)) then
        let l := name_from_token l in
        let l := trim_name l in
        Ok (push_mail_list pos l)
      else Ok l
  | _ => bad
  end.

(** *** case state_t::NAMEADDRGRP *)

Definition on_NAMEADDRGRP (pos : nat) (ch : ascii) (l : locals) : result locals :=
  if is_atext ch then Ok (token_add ch l)
  else if is_char MONKEY_CHAR ch then
    let l := token_add ch l in
    let l := set_state l ADDR in
    Ok (set_monkey_found l true)
  else if isspace ch then
    let l := token_add ch l in
    Ok (set_state l NAME)
  else if is_char COMMA_CHAR ch then
    let l := name_from_token l in
    let l := trim_name l in
    let l := token_clear l in
    let l := push_mail_addrs pos l in
    let l := cur_address_clear l in
    let l := set_monkey_found l false in
    Ok (set_state l BEGIN)
  else if is_char COLON_CHAR ch then
    if group_found l then bad
    else
      let l := insert_mail_list l in
      let l := mail_addrs_clear l in
      let l := group_name_from_token l in
      let l := token_clear l in
      let l := set_group_found l true in
      Ok (set_state l GROUPBEG)
  else bad.

Definition end_NAMEADDRGRP (pos : nat) (l : locals) : result locals :=
  match state l with
  | NAMEADDRGRP =>
      if group_found l then bad
      else if negb (is_nil (token l)) then
        let l := name_from_token l in
        let l := push_mail_addrs pos l in
        Ok (insert_mail_list l)
      else Ok l
  | ADDR => bad
  | NAME => bad
  | BEGIN =>
      if group_found l then bad else Ok (insert_mail_list l)
  | GROUPBEG => bad
  | _ => Ok l
  end.

(** *** case state_t::NAME *)

Definition on_NAME (ch : ascii) (l : locals) : result locals :=
  if is_atext ch || isspace ch then Ok (token_add ch l)
  else if is_char LESS_THAN_CHAR ch then
    let l := name_from_token l in
    let l := trim_name l in
    let l := token_clear l in
    Ok (set_state l ADDRBRBEG)
  else bad.

Definition end_NAME (l : locals) : result locals := bad.

(** *** case state_t::ADDR *)

Definition on_ADDR (pos : nat) (ch : ascii) (l : locals) : result locals :=
  if is_atext ch then Ok (token_add ch l)
  else if is_char MONKEY_CHAR ch then
    let l := token_add ch l in
    Ok (set_monkey_found l true)
  else if isspace ch then Ok l
  else if is_char COMMA_CHAR ch then
    let l := address_from_token l in
    let l := token_clear l in
    let l := push_mail_addrs pos l in
    let l := cur_address_clear l in
    if negb (monkey_found l) then bad
    else
      let l := set_monkey_found l false in
      Ok (set_state l BEGIN)
  else if is_char SEMICOLON_CHAR ch then
    if group_found l then
      let l := address_from_token l in
      let l := token_clear l in
      let l := push_mail_addrs pos l in
      let l := cur_address_clear l in
      let l := cur_group_add l in
      let l := mail_addrs_clear l in
      let l := push_group l in
      let l := cur_group_clear l in
      let l := set_group_found l false in
      Ok (set_state l GROUPEND)
    else bad
  else if is_char LEFT_PARENTHESIS_CHAR ch then
    if group_found l then bad
    else
      let l := address_from_token l in
      let l := token_clear l in
      let l := push_mail_addrs pos l in
      let l := cur_address_clear l in
      if negb (monkey_found l) then bad
      else
        let l := insert_mail_list l in
        Ok (set_state l COMMBEG)
  else bad.

Definition end_ADDR (pos : nat) (l : locals) : result locals :=
  match state l with
  | ADDR =>
      if group_found l then bad
      else if negb (monkey_found l) then bad
      else if negb (is_nil (token l)) then
        let l := address_from_token l in
        let l := push_mail_addrs pos l in
        Ok (insert_mail_list l)
      else Ok l
  | BEGIN =>
      if group_found l then bad else Ok (insert_mail_list l)
  | GROUPEND => Ok l
  | COMMBEG => bad
  | _ => Ok l
  end.

(** *** case state_t::QNAMEADDRBEG *)

Definition on_QNAMEADDRBEG (ch : ascii) (l : locals) : result locals :=
  if isalpha ch || isdigit ch || isspace ch || find_char QTEXT ch
  then Ok (token_add ch l)
  else if is_char BACKSLASH_CHAR ch then Ok l
  else if is_char QUOTE_CHAR ch then
    let l := name_from_token l in
    let l := token_clear l in
    Ok (set_state l QNAMEADDREND)
  else bad.

Definition end_QNAMEADDRBEG (l : locals) : result locals := bad.

(** *** case state_t::QNAMEADDREND *)

Definition on_QNAMEADDREND (ch : ascii) (l : locals) : result locals :=
  if isspace ch then Ok l
  else if is_char LESS_THAN_CHAR ch then Ok (set_state l ADDRBRBEG)
  else bad.

Definition end_QNAMEADDREND (l : locals) : result locals := bad.

(** *** case state_t::ADDRBRBEG *)

Definition on_ADDRBRBEG (pos : nat) (ch : ascii) (l : locals) : result locals :=
  if is_atext ch then Ok (token_add ch l)
  else if is_char MONKEY_CHAR ch then
    let l := token_add ch l in
    Ok (set_monkey_found l true)
  else if is_char GREATER_THAN_CHAR ch then
    let l := address_from_token l in
    let l := token_clear l in
    let l := push_mail_addrs pos l in
    let l := cur_address_clear l in
    if negb (monkey_found l) then bad
    else
      let l := set_monkey_found l false in
      Ok (set_state l ADDRBREND)
  else bad.

Definition end_ADDRBRBEG (l : locals) : result locals :=
  match state l with
  | ADDRBRBEG => bad
  | ADDRBREND =>
      if group_found l then
        let l := cur_group_add l in
        Ok (push_group l)
      else Ok (insert_mail_list l)
  | _ => Ok l
  end.

(** *** case state_t::ADDRBREND *)

Definition on_ADDRBREND (ch : ascii) (l : locals) : result locals :=
  if isspace ch then Ok l
  else if is_char COMMA_CHAR ch then Ok (set_state l BEGIN)
  else if is_char SEMICOLON_CHAR ch then
    if group_found l then
      let l := cur_group_add l in
      let l := mail_addrs_clear l in
      let l := set_group_found l false in
      let l := push_group l in
      let l := cur_group_clear l in
      let l := set_group_found l false in
      Ok (set_state l GROUPEND)
    else bad
  else if is_char LEFT_PARENTHESIS_CHAR ch then
    if group_found l then bad
    else
      let l := insert_mail_list l in
      Ok (set_state l COMMBEG)
  else Ok l.

Definition end_ADDRBREND (l : locals) : result locals :=
  match state l with
  | ADDRBREND | BEGIN =>
      if group_found l then bad else Ok (insert_mail_list l)
  | COMMBEG => bad
  | _ => Ok l
  end.

(** *** case state_t::GROUPBEG *)

Definition on_GROUPBEG (ch : ascii) (l : locals) : result locals :=
  if is_atext ch then
    let l := token_add ch l in
    Ok (set_state l BEGIN)
  else if isspace ch then Ok l
  else if is_char LESS_THAN_CHAR ch then Ok (set_state l ADDRBRBEG)
  else if is_char SEMICOLON_CHAR ch then
    let l := cur_group_add l in
    let l := mail_addrs_clear l in
    let l := push_group l in
    let l := cur_group_clear l in
    let l := set_group_found l false in
    Ok (set_state l GROUPEND)
  else Ok l.

Definition end_GROUPBEG (l : locals) : result locals :=
  match state l with
  | BEGIN | ADDRBRBEG => bad
  | _ => Ok l
  end.

(** *** case state_t::GROUPEND *)

Definition on_GROUPEND (ch : ascii) (l : locals) : result locals :=
  if is_atext ch then
    let l := token_add ch l in
    Ok (set_state l BEGIN)
  else if is_char LEFT_PARENTHESIS_CHAR ch then Ok (set_state l COMMBEG)
  else if isspace ch then Ok l
  else Ok l.

Definition end_GROUPEND (l : locals) : result locals :=
  match state l with
  | BEGIN | COMMBEG => bad
  | _ => Ok l
  end.

(** *** case state_t::COMMBEG, COMMEND, EOL *)

Definition on_COMMBEG (ch : ascii) (l : locals) : result locals :=
  if is_atext ch || isspace ch then Ok l
  else if is_char RIGHT_PARENTHESIS_CHAR ch then Ok (set_state l COMMEND)
  else bad.

Definition on_COMMEND (ch : ascii) (l : locals) : result locals :=
  if isspace ch then Ok l else bad.

Definition on_EOL (pos : nat) (l : locals) : result locals :=
  Ok (push_mail_addrs pos l).

(** [if (ch == address_list.end() - 1)]: the block [at_end] runs on the
    last character only. *)
Definition at_last (last : bool) (at_end : locals -> result locals)
    (l : locals) : result locals :=
  if last then at_end l else Ok l.

(** One iteration of the loop: the [switch] on the state at the character
    [ch] of index [pos]; [last] tells whether it is the last one. *)
Definition step (last : bool) (pos : nat) (ch : ascii) (l : locals)
    : result locals :=
  match state l with
  | BEGIN => l <- on_BEGIN ch l ;; at_last last (end_BEGIN pos) l
  | NAMEADDRGRP =>
      l <- on_NAMEADDRGRP pos ch l ;; at_last last (end_NAMEADDRGRP pos) l
  | NAME => l <- on_NAME ch l ;; at_last last end_NAME l
  | ADDR => l <- on_ADDR pos ch l ;; at_last last (end_ADDR pos) l
  | QNAMEADDRBEG => l <- on_QNAMEADDRBEG ch l ;; at_last last end_QNAMEADDRBEG l
  | QNAMEADDREND => l <- on_QNAMEADDREND ch l ;; at_last last end_QNAMEADDREND l
  | ADDRBRBEG => l <- on_ADDRBRBEG pos ch l ;; at_last last end_ADDRBRBEG l
  | ADDRBREND => l <- on_ADDRBREND ch l ;; at_last last end_ADDRBREND l
  | GROUPBEG => l <- on_GROUPBEG ch l ;; at_last last end_GROUPBEG l
  | GROUPEND => l <- on_GROUPEND ch l ;; at_last last end_GROUPEND l
  | COMMBEG => on_COMMBEG ch l
  | COMMEND => on_COMMEND ch l
  | EOL => on_EOL pos l
  end.

(** The [for] loop from the character of index [pos] on. *)
Fixpoint run (pos : nat) (chars : text) (l : locals) : result locals :=
  match chars with
  | [] => Ok l
  | ch :: rest =>
      l <- step (is_nil rest) pos ch l ;; run (S pos) rest l
  end.

Definition initial : locals :=
  Locals [] [] empty_address (Mail_group [] []) [] BEGIN false false [].

(** [message::parse_address_list], over the stored type [A]. *)
Definition parse_address_list_of (address_list : text)
    : result (mailboxes_of A) :=
  l <- run 0 address_list initial ;;
  Ok (Mailboxes (mail_list l) (mail_group_list l)).

End Address_list.

(** [message::parse_address_list]. *)
Definition parse_address_list (QTEXT : text) (address_list : text)
    : result mailboxes :=
  parse_address_list_of QTEXT (fun _ a => a) address_list.

(** An address with its stamp: the index of the character which completed
    it. *)
Definition stamped := (nat * mail_address)%type.

Definition with_index (pos : nat) (a : mail_address) : stamped := (pos, a).

(** The same machine with every stored address stamped. *)
Definition parse_address_list_stamped (QTEXT : text) (address_list : text)
    : result (mailboxes_of stamped) :=
  parse_address_list_of QTEXT with_index address_list.

Definition erase_group (g : mail_group_of stamped) : mail_group :=
  Mail_group (group_name g) (map snd (members g)).

Definition erase (m : mailboxes_of stamped) : mailboxes :=
  Mailboxes (map snd (addresses m)) (map erase_group (groups m)).

(** ** Date parser *)

(** The regular expressions of the program are sequences of repeated
    character classes and capture parentheses. [Rep cls lo hi] is the greedy
    [cls{lo,hi}] ([hi = None]: unbounded); [Open i] and [Close i] are the
    parentheses of the group [i]. *)
Inductive item : Type :=
| Rep (cls : ascii -> bool) (lo : nat) (hi : option nat)
| Open (i : nat)
| Close (i : nat).

Definition regex := list item.

(** The groups matched so far: the start and the end of each. *)
Record captures : Type := Captures {
  starts : list (nat * nat);
  ends : list (nat * nat)
}.

Definition no_captures : captures := Captures [] [].

Fixpoint lookup (i : nat) (l : list (nat * nat)) : nat :=
  match l with
  | [] => 0
  | (j, v) :: l' => if i =? j then v else lookup i l'
  end.

(** The number of leading characters of [s] in the class, at most [hi]. *)
Fixpoint greedy (cls : ascii -> bool) (hi : option nat) (s : text) : nat :=
  match s with
  | [] => 0
  | c :: s' =>
      match hi with
      | Some 0 => 0
      | Some (S h) => if cls c then S (greedy cls (Some h) s') else 0
      | None => if cls c then S (greedy cls None s') else 0
      end
  end.

(** The repetition counts [n], [n - 1], ..., [lo] in turn: the first with
    which the rest of the expression matches. *)
Fixpoint backtrack (try : nat -> option captures) (lo n : nat)
    : option captures :=
  if n <? lo then None
  else match try n with
       | Some c => Some c
       | None => match n with
                 | 0 => None
                 | S n' => backtrack try lo n'
                 end
       end.

(** [regex_match]: the whole of the text from [pos] on matches [r]. *)
Fixpoint rmatch (r : regex) (pos : nat) (s : text) (caps : captures)
    : option captures :=
  match r with
  | [] => if is_nil s then Some caps else None
  | Open i :: r' =>
      rmatch r' pos s (Captures ((i, pos) :: starts caps) (ends caps))
  | Close i :: r' =>
      rmatch r' pos s (Captures (starts caps) ((i, pos) :: ends caps))
  | Rep cls lo hi :: r' =>
      backtrack (fun n => rmatch r' (pos + n) (skipn n s) caps)
                lo (greedy cls hi s)
  end.

Definition regex_match (s : text) (r : regex) : option captures :=
  rmatch r 0 s no_captures.

(** [m[i].str()]. *)
Definition group_str (s : text) (m : captures) (i : nat) : text :=
  substr s (lookup i (starts m)) (lookup i (ends m) - lookup i (starts m)).

Definition is_blank (c : ascii) : bool :=
  Ascii.eqb c SPACE_CHAR || Ascii.eqb c TAB_CHAR.

Definition any_char (c : ascii) : bool := true.

Definition is_sign (c : ascii) : bool :=
  Ascii.eqb c "+"%char || Ascii.eqb c "-"%char.

Definition one (c : ascii) : item := Rep (is_char c) 1 (Some 1).
Definition exactly (n : nat) (cls : ascii -> bool) : item := Rep cls n (Some n).
Definition plus (cls : ascii -> bool) : item := Rep cls 1 None.
Definition star (cls : ascii -> bool) : item := Rep cls 0 None.

(** The expression of [parse_date]:
    ([A-Za-z]{3}[\ \t]*,)[\ \t]+(\d{1,2}[\ \t]+[A-Za-z]{3}[\ \t]+\d{4})[\ \t]+(\d{2}:\d{2}:\d{2}[\ \t]+(\+|\-)\d{4}).* *)
Definition date_regex : regex :=
  [ Open 1; exactly 3 isalpha; star is_blank; one ","%char; Close 1;
    plus is_blank;
    Open 2; Rep isdigit 1 (Some 2); plus is_blank; exactly 3 isalpha;
            plus is_blank; exactly 4 isdigit; Close 2;
    plus is_blank;
    Open 3; exactly 2 isdigit; one ":"%char; exactly 2 isdigit; one ":"%char;
            exactly 2 isdigit; plus is_blank;
            Open 4; exactly 1 is_sign; Close 4; exactly 4 isdigit; Close 3;
    star any_char ].

Section Parsing.
Context {MC : Mime_collaborator} {DF : Date_facets}.

(** The text which [parse_date] hands to the date facet: the weekday with
    its comma, the date with a zero before a single digit day, the time,
    and the zone with a colon between its hours and minutes. *)
Definition dttz (date_str : text) (m : captures) : text :=
  let m1 := group_str date_str m 1 in
  let m2 := group_str date_str m 2 in
  let m3 := group_str date_str m 3 in
  m1 ++ txt " "
     ++ (if Ascii.eqb (nth 1 m2 zero) " "%char then txt "0" else [])
     ++ m2 ++ txt " " ++ substr m3 0 12 ++ txt ":" ++ substr_from m3 12.

(** [message::parse_date]: the [catch (...)] turns every exception of the
    facet into the date format error. *)
Definition parse_date (date_str : text) : result local_date_time :=
  match regex_match date_str date_regex with
  | Some m =>
      match facet_read (dttz date_str m) with
      | Some ldt => Ok ldt
      | None => Err Bad_date_format
      end
  | None => Ok not_a_date_time
  end.

(** ** Header codec: parsing *)

Definition set_sender (msg : message) (a : mail_address) : message :=
  Message (base msg) a (_reply_address msg) (_recipients msg)
          (_cc_recipients msg) (_bcc_recipients msg) (_subject msg)
          (_date_time msg).
Definition set_reply_address (msg : message) (a : mail_address) : message :=
  Message (base msg) (_sender msg) a (_recipients msg)
          (_cc_recipients msg) (_bcc_recipients msg) (_subject msg)
          (_date_time msg).
Definition set_recipients (msg : message) (m : mailboxes) : message :=
  Message (base msg) (_sender msg) (_reply_address msg) m
          (_cc_recipients msg) (_bcc_recipients msg) (_subject msg)
          (_date_time msg).
Definition set_cc_recipients (msg : message) (m : mailboxes) : message :=
  Message (base msg) (_sender msg) (_reply_address msg) (_recipients msg)
          m (_bcc_recipients msg) (_subject msg) (_date_time msg).
Definition set_subject (msg : message) (s : text) : message :=
  Message (base msg) (_sender msg) (_reply_address msg) (_recipients msg)
          (_cc_recipients msg) (_bcc_recipients msg) s (_date_time msg).
Definition set_date_time (msg : message) (d : local_date_time) : message :=
  Message (base msg) (_sender msg) (_reply_address msg) (_recipients msg)
          (_cc_recipients msg) (_bcc_recipients msg) (_subject msg) d.

Variable QTEXT : text.

(** [message::parse_header_line]. The result is the message when the call
    returns; when it throws, what the message holds is not modelled. *)
Definition parse_header_line (header_line : text) (msg : message)
    : result message :=
  b <- mime_parse_header_line header_line (base msg) ;;
  let msg := set_base msg b in
  ' (header_name, header_value) <- parse_header_name_value header_line ;;
  if iequals header_name FROM_HEADER then
    mbx <- parse_address_list QTEXT header_value ;;
    match addresses mbx with
    | [] => Err Bad_sender
    | a :: _ => Ok (set_sender msg a)
    end
  else if iequals header_name REPLY_TO_HEADER then
    mbx <- parse_address_list QTEXT header_value ;;
    match addresses mbx with
    | [] => Ok msg
    | a :: _ => Ok (set_reply_address msg a)
    end
  else if iequals header_name TO_HEADER then
    mbx <- parse_address_list QTEXT header_value ;;
    Ok (set_recipients msg mbx)
  else if iequals header_name CC_HEADER then
    mbx <- parse_address_list QTEXT header_value ;;
    Ok (set_cc_recipients msg mbx)
  else if iequals header_name SUBJECT_HEADER then
    Ok (set_subject msg (trim header_value))
  else if iequals header_name DATE_HEADER then
    d <- parse_date (trim header_value) ;;
    Ok (set_date_time msg d)
  else if iequals header_name MIME_VERSION_HEADER then
    Ok (set_base msg (set_version (base msg) (trim header_value)))
  else Ok msg.

(** The header lines fed to [parse_header_line], one after the other. *)
Fixpoint parse_header_lines (lines : list text) (msg : message)
    : result message :=
  match lines with
  | [] => Ok msg
  | line :: rest =>
      msg <- parse_header_line line msg ;; parse_header_lines rest msg
  end.

End Parsing.

(** ** Reference collaborators

    Instances of the two interfaces, used where a statement is evaluated on
    a concrete message. *)

Fixpoint split_colon (s : text) : option (text * text) :=
  match s with
  | [] => None
  | c :: s' =>
      if Ascii.eqb c COLON_CHAR then Some ([], s')
      else match split_colon s' with
           | Some (n, v) => Some (c :: n, v)
           | None => None
           end
  end.

(** A [mime] entity with no header of its own, whose content needs no
    encoding, and which splits a header line at its first colon. *)
#[export] Instance plain_mime : Mime_collaborator := {|
  mime_format_header := fun _ => Ok [];
  format_content := fun m _ => Ok (_content m);
  mime_format := fun m _ => Ok (_content m);
  mime_parse_header_line := fun _ m => Ok m;
  parse_header_name_value := fun line =>
    match split_colon line with
    | Some nv => Ok nv
    | None => Err Foreign_error
    end
|}.

Definition digit_char (n : nat) : ascii := ascii_of_nat (48 + n).

Definition two_digits (n : nat) : text :=
  [digit_char (n / 10); digit_char (n mod 10)].

Definition four_digits (n : nat) : text :=
  two_digits (n / 100) ++ two_digits (n mod 100).

Definition month_name (m : month_t) : text :=
  match m with
  | Jan => txt "Jan" | Feb => txt "Feb" | Mar => txt "Mar" | Apr => txt "Apr"
  | May => txt "May" | Jun => txt "Jun" | Jul => txt "Jul" | Aug => txt "Aug"
  | Sep => txt "Sep" | Oct => txt "Oct" | Nov => txt "Nov" | Dec => txt "Dec"
  end.

Definition month_number (m : month_t) : nat :=
  match m with
  | Jan => 1 | Feb => 2 | Mar => 3 | Apr => 4 | May => 5 | Jun => 6
  | Jul => 7 | Aug => 8 | Sep => 9 | Oct => 10 | Nov => 11 | Dec => 12
  end.

Definition all_months : list month_t :=
  [Jan; Feb; Mar; Apr; May; Jun; Jul; Aug; Sep; Oct; Nov; Dec].

(** The day of the week of a Gregorian date, Sunday being 0. *)
Definition day_of_week (y : nat) (m : month_t) (d : nat) : nat :=
  let t := nth (month_number m - 1) [0; 3; 2; 5; 0; 3; 5; 1; 4; 6; 2; 4] 0 in
  let y := if month_number m <? 3 then y - 1 else y in
  (y + y / 4 - y / 100 + y / 400 + t + d) mod 7.

Definition weekday_name (k : nat) : text :=
  nth k [txt "Sun"; txt "Mon"; txt "Tue"; txt "Wed"; txt "Thu"; txt "Fri";
         txt "Sat"] (txt "Sun").

Definition zone_sign (west : bool) : text :=
  if west then txt "-" else txt "+".

(** The date and the time of day of the layouts below:
    [Www, DD Mon YYYY HH:MM:SS]. *)
Definition rfc_date_time (d : date_fields) : text :=
  weekday_name (day_of_week (year d) (month d) (day d)) ++ txt ", "
  ++ two_digits (day d) ++ txt " " ++ month_name (month d) ++ txt " "
  ++ four_digits (year d) ++ txt " "
  ++ two_digits (hours d) ++ txt ":" ++ two_digits (minutes d) ++ txt ":"
  ++ two_digits (seconds d).

(** The layout of the facet "%a, %d %b %Y %H:%M:%S %q": the zone as
    [+HHMM]. *)
Definition rfc_write (d : date_fields) : text :=
  rfc_date_time d ++ txt " " ++ zone_sign (zone_west d)
  ++ two_digits (zone_hours d) ++ two_digits (zone_minutes d).

(** The layout which [parse_date] hands to the input facet: the zone as
    [+HH:MM]. *)
Definition rfc_read_form (d : date_fields) : text :=
  rfc_date_time d ++ txt " " ++ zone_sign (zone_west d)
  ++ two_digits (zone_hours d) ++ txt ":" ++ two_digits (zone_minutes d).

(** The date-times the layouts can hold. *)
Definition date_in_range (d : date_fields) : bool :=
  (year d <? 100 * 100) && (1 <=? day d) && (day d <=? 31) && (hours d <? 24)
  && (minutes d <? 60) && (seconds d <? 60)
  && (zone_hours d <? 24) && (zone_minutes d <? 60).

(** A date-time without its sub-second part. *)
Definition to_the_second (d : date_fields) : date_fields :=
  Date_fields (year d) (month d) (day d) (hours d) (minutes d) (seconds d) 0
              (zone_west d) (zone_hours d) (zone_minutes d).

Definition digit_value (c : ascii) : option nat :=
  if isdigit c then Some (nat_of_ascii c - 48) else None.

Definition number2 (a b : ascii) : option nat :=
  match digit_value a, digit_value b with
  | Some x, Some y => Some (10 * x + y)
  | _, _ => None
  end.

Definition month_of_name (n : text) : option month_t :=
  find (fun m => text_eqb (month_name m) n) all_months.

(** A reader of the layout [Www, DD Mon YYYY HH:MM:SS +HH:MM]; the weekday
    is read and ignored. *)
Definition reference_read (s : text) : option local_date_time :=
  match s with
  | w1 :: w2 :: w3 :: _ :: _ :: d1 :: d2 :: _ :: m1 :: m2 :: m3 :: _
    :: y1 :: y2 :: y3 :: y4 :: _ :: h1 :: h2 :: _ :: mi1 :: mi2 :: _
    :: s1 :: s2 :: _ :: sg :: z1 :: z2 :: _ :: z3 :: z4 :: [] =>
      match number2 d1 d2, month_of_name [m1; m2; m3], number2 y1 y2,
            number2 y3 y4, number2 h1 h2, number2 mi1 mi2, number2 s1 s2,
            number2 z1 z2, number2 z3 z4 with
      | Some d, Some m, Some yh, Some yl, Some h, Some mi, Some sec,
        Some zh, Some zm =>
          if isalpha w1 && isalpha w2 && isalpha w3 && is_sign sg
          then Some (date_time_at
                       (Date_fields (100 * yh + yl) m d h mi sec 0
                                    (Ascii.eqb sg "-"%char) zh zm))
          else None
      | _, _, _, _, _, _, _, _, _ => None
      end
  | _ => None
  end.

#[export] Instance rfc_facets : Date_facets := {|
  facet_write := fun d =>
    match d with
    | not_a_date_time => None
    | date_time_at f => Some (rfc_write f)
    end;
  facet_read := reference_read
|}.

(** ** Concrete messages *)

(** A message as the constructor leaves it, but for the date. *)
Definition blank_message : message :=
  Message mime_default empty_address empty_address
          (Mailboxes [] []) (Mailboxes [] []) (Mailboxes [] []) []
          not_a_date_time.

(** A message with one attachment named report.pdf. *)
Definition report_message : message :=
  attach (txt "my_bound") (txt "%PDF-1.4") (txt "report.pdf")
         APPLICATION (txt "pdf") blank_message.

(** The header block of [report_message]. *)
Definition report_header : text :=
  txt "From: " ++ CRLF ++ txt "To: " ++ CRLF ++ txt "MIME-Version: 1.0"
  ++ CRLF ++ txt "Subject: " ++ CRLF ++ CRLF.

(** A message with a boundary and the content type text/plain. *)
Definition text_plain_with_boundary : message :=
  set_base blank_message
    (set_boundary
       (set_content_type mime_default (Content_type TEXT (txt "plain")))
       (txt "my_bound")).

(** A message whose reply address has an address and no display name. *)
Definition reply_without_name : message :=
  set_reply_address
    (set_sender blank_message (Mail_address (txt "mailio") (txt "adre@sa.com")))
    (Mail_address [] (txt "reply@sa.com")).

(** The layout of a message with parts in which the separator after the
    body content does not depend on the content: header, content, CRLF, the
    parts between boundary lines, the closing boundary line. *)
Definition layout_with_separator (message_str header content boundary : text)
    (parts_str : list text) : text :=
  message_str ++ header ++ content ++ CRLF
  ++ concat (map (fun p_str => txt "--" ++ boundary ++ CRLF ++ p_str ++ CRLF)
                 parts_str)
  ++ txt "--" ++ boundary ++ txt "--" ++ CRLF.

(** The layout of [format] for a message with parts: the separator follows
    a non-empty body content only. *)
Definition layout (message_str header content boundary : text)
    (parts_str : list text) : text :=
  message_str ++ header ++ content
  ++ (if is_nil content then [] else CRLF)
  ++ concat (map (fun p_str => txt "--" ++ boundary ++ CRLF ++ p_str ++ CRLF)
                 parts_str)
  ++ txt "--" ++ boundary ++ txt "--" ++ CRLF.

(** The parts which are attachments, in the order of [_parts]. *)
Definition attachments (msg : message) : list mime :=
  filter (fun m => is_attachment (_disposition m)) (_parts (base msg)).

(** 17 July 2014, 10:31:49, two hours east of UTC; the same on 7 July. *)
Definition july_17 : date_fields :=
  Date_fields 2014 Jul 17 10 31 49 0 false 2 0.

Definition july_7 : date_fields :=
  Date_fields 2014 Jul 7 10 31 49 0 false 2 0.

(** ** Stamps of the stored addresses *)

(** The stamps of the members of the groups, group after group. *)
Definition group_stamps (gs : list (mail_group_of stamped)) : list nat :=
  flat_map (fun g => map fst (members g)) gs.

(** The stamps of a result: of the top-level addresses, then of the group
    members. *)
Definition result_stamps (m : mailboxes_of stamped) : list nat :=
  map fst (addresses m) ++ group_stamps (groups m).

(** The stamps which the machine has stored in [mail_list] and in
    [mail_group_list], and those waiting in [mail_addrs]. *)
Definition stored (l : locals stamped) : list nat :=
  map fst (mail_list l) ++ group_stamps (mail_group_list l).

Definition pending (l : locals stamped) : list nat :=
  map fst (mail_addrs l).

(** How often [n] is in [L]. *)
Definition cnt (n : nat) (L : list nat) : nat := count_occ Nat.eq_dec L n.

Definition in_comment (s : state_t) : bool :=
  match s with COMMBEG | COMMEND => true | _ => false end.

(** The invariant of the loop before the character of index [pos]: no
    member is in [cur_group]; every stamp is below [pos]; no stamp is stored
    twice; outside a comment, no stamp is both stored and waiting, or
    waiting twice. *)
Record stamps_invariant (pos : nat) (l : locals stamped) : Prop := {
  inv_cur_group : members (cur_group l) = [];
  inv_fresh : forall n, pos <= n -> cnt n (stored l) + cnt n (pending l) = 0;
  inv_stored : forall n, cnt n (stored l) <= 1;
  inv_pending : in_comment (state l) = false ->
                forall n, cnt n (stored l) + cnt n (pending l) <= 1
}.

(** The fields of the locals which do not hold stamped addresses, erased to
    the program's. *)
Definition erase_locals (l : locals stamped) : locals mail_address :=
  Locals (map snd (mail_list l)) (map erase_group (mail_group_list l))
         (cur_address l) (erase_group (cur_group l)) (map snd (mail_addrs l))
         (state l) (monkey_found l) (group_found l) (token l).

Definition map_result {A B} (f : A -> B) (r : result A) : result B :=
  match r with
  | Ok a => Ok (f a)
  | Err e => Err e
  end.

(** ** Round trip of the header *)

Definition CR : ascii := ascii_of_nat 13.
Definition LF : ascii := ascii_of_nat 10.

(** The lines of a header block: the text is cut at every CRLF, up to the
    empty line which ends the block. [cur] holds the characters of the
    current line, last first. *)
Fixpoint header_lines_from (cur : text) (s : text) : list text :=
  match s with
  | [] => []
  | c :: s' =>
      match s' with
      | d :: s'' =>
          if Ascii.eqb c CR && Ascii.eqb d LF
          then if is_nil cur then []
               else rev cur :: header_lines_from [] s''
          else header_lines_from (c :: cur) s'
      | [] => []
      end
  end.

Definition header_lines (s : text) : list text := header_lines_from [] s.

Definition no_lf (s : text) : bool :=
  forallb (fun c => negb (Ascii.eqb c LF)) s.

Definition trimmed (s : text) : bool := text_eqb (trim s) s.

(** The header names of message.cpp, and those on which
    [parse_header_line] acts. *)
Definition message_headers : list text :=
  [FROM_HEADER; REPLY_TO_HEADER; TO_HEADER; CC_HEADER; BCC_HEADER;
   SUBJECT_HEADER; DATE_HEADER; MIME_VERSION_HEADER].

Definition parsed_header (n : text) : bool :=
  existsb (iequals n)
    [FROM_HEADER; REPLY_TO_HEADER; TO_HEADER; CC_HEADER; SUBJECT_HEADER;
     DATE_HEADER; MIME_VERSION_HEADER].

(** An address which [format_address] writes as [name <address>] without
    quotes, or as [<address>], and which the parser reads back: the address
    is not empty, is made of the characters of an address and has a monkey;
    the name is made of letters, digits, spaces and tabs, with no space or
    tab at either end. *)
Definition good_address (a : mail_address) : bool :=
  negb (is_nil (address a)) && DTEXT_REGEX (address a)
  && find_char (address a) MONKEY_CHAR
  && NAME_REGEX (name a) && trimmed (name a).

(** A list of such addresses, without groups. *)
Definition good_mailboxes (m : mailboxes) : bool :=
  is_nil (groups m) && forallb good_address (addresses m).

(** The messages of the round trip: the sender and the recipients are good;
    the reply address has no name or is good; the subject has no white space
    at either end; the subject and, with parts, the version have no line
    feed. *)
Definition round_trippable (msg : message) : bool :=
  good_address (_sender msg)
  && (is_nil (name (_reply_address msg)) || good_address (_reply_address msg))
  && good_mailboxes (_recipients msg)
  && good_mailboxes (_cc_recipients msg)
  && good_mailboxes (_bcc_recipients msg)
  && trimmed (_subject msg) && no_lf (_subject msg)
  && (is_nil (_parts (base msg)) || no_lf (_version (base msg))).

(** What the round trip asks of the [mime] entity: it cuts a line of
    message.cpp after the name, keeping the value but for white space in
    front of it; it accepts every line; the lines of its own headers are not
    empty, have no line feed and have names on which [parse_header_line]
    does not act. *)
Definition splits_at_colon (MC : Mime_collaborator) : Prop :=
  forall hname v, In hname message_headers ->
    exists ws, forallb isspace ws = true
               /\ parse_header_name_value (hname ++ COLON ++ v)
                  = Ok (hname, ws ++ v).

Definition mime_accepts (MC : Mime_collaborator) : Prop :=
  forall line b, exists b', mime_parse_header_line line b = Ok b'.

Definition foreign_line (MC : Mime_collaborator) (l : text) : Prop :=
  l <> [] /\ no_lf l = true
  /\ exists n v, parse_header_name_value l = Ok (n, v)
                 /\ parsed_header n = false.

Definition mime_lines_foreign (MC : Mime_collaborator) (h : text) : Prop :=
  exists lines, h = concat (map (fun l => l ++ CRLF) lines)
                /\ Forall (foreign_line MC) lines.

(** The lines, each ended by CRLF. *)
Definition block (lines : list text) : text :=
  concat (map (fun l => l ++ CRLF) lines).

(** The characters of [NAME_REGEX] and of [DTEXT_REGEX]. *)
Definition name_char (c : ascii) : bool :=
  isalnum c || Ascii.eqb c SPACE_CHAR || Ascii.eqb c TAB_CHAR.

Definition dtext_char (c : ascii) : bool :=
  isalnum c || find_char (txt "!#$%&'*+-.@/=?^_`{|}~") c.

(** The loop of the address machine with no character the last. *)
Fixpoint steps (QTEXT : text) (pos : nat) (chars : text)
    (l : locals mail_address) : result (locals mail_address) :=
  match chars with
  | [] => Ok l
  | ch :: rest =>
      l <- step QTEXT (fun _ a => a) false pos ch l ;;
      steps QTEXT (S pos) rest l
  end.

(** The locals between two addresses of a list without groups: the
    addresses [done] read so far wait in [mail_addrs]. *)
Definition waiting (st : state_t) (done : list mail_address)
    : locals mail_address :=
  Locals [] [] empty_address (Mail_group [] []) done st false false [].

(** What [format_address] writes before the address of a good address. *)
Definition address_prefix (a : mail_address) : text :=
  if is_nil (name a) then [LESS_THAN_CHAR]
  else name a ++ [SPACE_CHAR; LESS_THAN_CHAR].

(** The groups of [date_regex] in a text of the layout [rfc_write]. *)
Definition rfc_captures : captures :=
  Captures [(4, 26); (3, 17); (2, 5); (1, 0)]
           [(3, 31); (4, 27); (2, 16); (1, 4)].

(** A message with a sender, two recipients, a subject and a date. *)
Definition sample_message : message :=
  Message mime_default
    (Mail_address (txt "mailio") (txt "adre@sa.com"))
    empty_address
    (Mailboxes [Mail_address (txt "John Doe") (txt "jdoe@mailio.dev");
                Mail_address [] (txt "jane@mailio.dev")] [])
    (Mailboxes [] []) (Mailboxes [] [])
    (txt "Hello, World!")
    (date_time_at (Date_fields 2014 Jul 7 10 31 49 250 false 2 0)).

(** The sample with a space in front of the subject. *)
Definition padded_subject_message : message :=
  set_subject sample_message (txt " Hello").

(** The sample with a group as its only recipient. *)
Definition group_only_message : message :=
  set_recipients sample_message
    (Mailboxes []
       [Mail_group (txt "Friends")
          [Mail_address (txt "Alice") (txt "alice@x.io")]]).

(** The four fields of the round trip are the same in two messages. *)
Definition keeps (msg msg' : message) : Prop :=
  _sender msg' = _sender msg /\ _recipients msg' = _recipients msg
  /\ _subject msg' = _subject msg /\ _date_time msg' = _date_time msg.

Section Harmless_lines.
Context {MC : Mime_collaborator} {DF : Date_facets}.

(** A line which is parsed without error and without a change of the four
    fields. *)
Definition harmless (QTEXT : text) (line : text) : Prop :=
  forall msg, exists msg',
    parse_header_line QTEXT line msg = Ok msg' /\ keeps msg msg'.

End Harmless_lines.

(** A line of a header block: it is not empty and has no line feed. *)
Definition plain_line (l : text) : Prop := l <> [] /\ no_lf l = true.

(** The text of [sample_message]. *)
Definition sample_output : text :=
  txt "From: mailio <adre@sa.com>" ++ CRLF
  ++ txt "To: John Doe <jdoe@mailio.dev>, <jane@mailio.dev>" ++ CRLF
  ++ txt "Date: Mon, 07 Jul 2014 10:31:49 +0200" ++ CRLF
  ++ txt "Subject: Hello, World!" ++ CRLF ++ CRLF.

(** ** Definitions of the further properties *)

(** The outcome [o] of a call on the empty output string, for the output
    string [message_str]. *)
Definition prepend (message_str : text) (o : outcome text) : outcome text :=
  match o with
  | Returned s => Returned (message_str ++ s)
  | Thrown e s => Thrown e (message_str ++ s)
  end.

(** A character which is no carriage return and no line feed. *)
Definition line_char (c : ascii) : bool :=
  negb (Ascii.eqb c CR) && negb (Ascii.eqb c LF).

Definition no_crlf (s : text) : bool := forallb line_char s.

(** The characters of [QTEXT_REGEX] and of [ATEXT_REGEX]. *)
Definition qtext_char (c : ascii) : bool :=
  isalnum c || Ascii.eqb c SPACE_CHAR || Ascii.eqb c TAB_CHAR
  || find_char (txt "!#$%&'()*+,-.@/:;<=>?[]^_`{|}~") c.

Definition atext_char (c : ascii) : bool :=
  isalnum c || find_char (txt "!#$%&'*+-./=?^_`{|}~") c.

(** The states in which the address list may not end. *)
Definition open_state (s : state_t) : bool :=
  match s with
  | NAME | QNAMEADDRBEG | QNAMEADDREND | ADDRBRBEG => true
  | _ => false
  end.

Definition is_EOL (s : state_t) : bool :=
  match s with EOL => true | _ => false end.


(** ** Messages and lists of the examples *)

Definition bcc_then_to_lines : list text :=
  [txt "Bcc: aa@b.c"; txt "To: bb@c.d"].

Definition bcc_then_to : message :=
  Eval vm_compute in
    match @parse_header_lines plain_mime rfc_facets [] bcc_then_to_lines
            blank_message with
    | Ok m => m
    | Err _ => blank_message
    end.

Definition padded_subject_output : text :=
  Eval vm_compute in
    match @format plain_mime rfc_facets padded_subject_message false [] with
    | Returned s => s
    | Thrown _ s => s
    end.

Definition group_only_output : text :=
  Eval vm_compute in
    match @format plain_mime rfc_facets group_only_message false [] with
    | Returned s => s
    | Thrown _ s => s
    end.

Definition blank_output : text :=
  Eval vm_compute in
    match @format plain_mime rfc_facets blank_message false [] with
    | Returned s => s
    | Thrown _ s => s
    end.

Definition padded_subject_parsed : message :=
  Eval vm_compute in
    match @parse_header_lines plain_mime rfc_facets []
            (header_lines padded_subject_output) blank_message with
    | Ok m => m
    | Err _ => blank_message
    end.

Definition two_addresses : text := txt "aa@b.c, John <j@x.io>".

Definition two_addresses_end : locals mail_address :=
  Eval vm_compute in
    match run [] (fun _ a => a) 0 two_addresses (initial mail_address) with
    | Ok l => l
    | Err _ => initial mail_address
    end.


(** ** Lists of addresses without brackets *)

(** A word of the characters of an atom, not empty. *)
Definition atom (s : text) : bool := negb (is_nil s) && forallb is_atext s.

(** [local@domain]. *)
Definition plain_address (p : text * text) : text :=
  fst p ++ MONKEY_CHAR :: snd p.

Definition plain (p : text * text) : bool := atom (fst p) && atom (snd p).

(** The texts [l], each followed by a comma and the white space [ws]. *)
Definition followed_by_commas (ws : text) (l : list text) : text :=
  concat (map (fun a => a ++ COMMA_CHAR :: ws) l).

(** The address without a name. *)
Definition nameless (a : text) : mail_address := Mail_address [] a.

(** The characters of a comment. *)
Definition comment_char (c : ascii) : bool := is_atext c || isspace c.



(** ** Names in quotes *)

(** The punctuation of [QTEXT_REGEX]. *)
Definition quoted_punctuation : text := txt "!#$%&'()*+,-.@/:;<=>?[]^_`{|}~".

(** An address which [format_address] writes with its name in quotes: the
    name has a character which is no letter, digit, space or tab, and passes
    [QTEXT_REGEX]; the address is as in a good address. *)
Definition quoted_address (a : mail_address) : bool :=
  negb (is_nil (address a)) && DTEXT_REGEX (address a)
  && find_char (address a) MONKEY_CHAR
  && negb (NAME_REGEX (name a)) && QTEXT_REGEX (name a).

Definition legible_address (a : mail_address) : bool :=
  good_address a || quoted_address a.

(** A list of such addresses, without groups. *)
Definition legible_mailboxes (m : mailboxes) : bool :=
  is_nil (groups m) && forallb legible_address (addresses m).

(** What [format_address] writes before the address of a legible address. *)
Definition written_prefix (a : mail_address) : text :=
  if NAME_REGEX (name a) then address_prefix a
  else QUOTE_CHAR :: name a ++ [QUOTE_CHAR; SPACE_CHAR; LESS_THAN_CHAR].

(** What the reading of quoted names asks of the constant [QTEXT] of the
    parser: it has the punctuation which [format_address] lets into a
    quoted name, and it has no quote. *)
Definition reads_quoted (QTEXT : text) : bool :=
  forallb (find_char QTEXT) quoted_punctuation
  && negb (find_char QTEXT QUOTE_CHAR).



(** ** Dates with a short day and with text after the zone *)

(** The layout of [rfc_write] with the day in one digit. *)
Definition rfc_write_short_day (d : date_fields) : text :=
  weekday_name (day_of_week (year d) (month d) (day d)) ++ txt ", "
  ++ [digit_char (day d)] ++ txt " " ++ month_name (month d) ++ txt " "
  ++ four_digits (year d) ++ txt " "
  ++ two_digits (hours d) ++ txt ":" ++ two_digits (minutes d) ++ txt ":"
  ++ two_digits (seconds d) ++ txt " " ++ zone_sign (zone_west d)
  ++ two_digits (zone_hours d) ++ two_digits (zone_minutes d).

(** What [parse_date] returns when the facet is given the text [s]. *)
Definition read_date {DF : Date_facets} (s : text) : result local_date_time :=
  match facet_read s with
  | Some ldt => Ok ldt
  | None => Err Bad_date_format
  end.

(** The groups of [date_regex] in a text of the layout
    [rfc_write_short_day]. *)
Definition short_day_captures : captures :=
  Captures [(4, 25); (3, 16); (2, 5); (1, 0)]
           [(3, 30); (4, 26); (2, 15); (1, 4)].


(** Two recipients, the first with a name which is written in quotes. *)
Definition doe_and_roe : mailboxes :=
  Mailboxes [Mail_address (txt "Doe, John (jr.)") (txt "jdoe@mailio.dev");
             Mail_address (txt "Jane Roe") (txt "jroe@mailio.dev")] [].

(** Two addresses without brackets, as [local] and [domain]. *)
Definition aa_and_bb : list (text * text) :=
  [(txt "aa", txt "b.c"); (txt "bb", txt "c.d")].


(** ** Groups *)

(** What [format_address] writes for a legible address, and
    [format_mailbox] for a list of them. *)
Definition written (a : mail_address) : text :=
  written_prefix a ++ address a ++ [GREATER_THAN_CHAR].

Fixpoint written_list (l : list mail_address) : text :=
  match l with
  | [] => []
  | a :: l' => written a ++ (if is_nil l' then [] else txt ", ")
               ++ written_list l'
  end.

(** The first member of a group: a good address without a name, or with a
    name whose second character is no blank. *)
Definition opening_member (a : mail_address) : bool :=
  good_address a
  && match name a with
     | [] => true
     | [_] => false
     | _ :: c2 :: _ => is_atext c2
     end.

Definition group_members (ms : list mail_address) : bool :=
  match ms with
  | [] => true
  | m :: ms' => opening_member m && forallb legible_address ms'
  end.

(** The first group of a list, and a group after another one: the name of
    the latter has two characters or more. *)
Definition first_group (g : mail_group) : bool :=
  atom (group_name g) && group_members (members g).

Definition later_group (g : mail_group) : bool :=
  first_group g && (2 <=? length (group_name g)).

(** A list of legible addresses, not empty, followed by such groups. *)
Definition grouped_mailboxes (m : mailboxes) : bool :=
  negb (is_nil (addresses m)) && forallb legible_address (addresses m)
  && match groups m with
     | [] => false
     | g :: gs => first_group g && forallb later_group gs
     end.

(** What [format_mailbox] writes for a group, up to its semicolon, and for
    the groups after the first, from the semicolon of the group before. *)
Definition group_body (g : mail_group) : text :=
  group_name g ++ [COLON_CHAR; SPACE_CHAR] ++ written_list (members g).

Fixpoint later_text (gs : list mail_group) : text :=
  match gs with
  | [] => []
  | g :: gs' => SPACE_CHAR :: group_body g ++ SEMICOLON_CHAR :: later_text gs'
  end.

(** The locals before the semicolon of a group, and after it. *)
Definition in_group (ml : list mail_address) (gl : list mail_group)
    (n : text) (ms : list mail_address) : locals mail_address :=
  Locals ml gl empty_address (Mail_group n []) ms
         (if is_nil ms then GROUPBEG else ADDRBREND) false true [].

Definition after_group (ml : list mail_address) (gl : list mail_group)
    : locals mail_address :=
  Locals ml gl empty_address (Mail_group [] []) [] GROUPEND false false [].


(** Two recipients and three groups. *)
Definition friends_and_family : mailboxes :=
  Mailboxes [Mail_address (txt "Doe, John") (txt "jdoe@mailio.dev");
             Mail_address [] (txt "jroe@mailio.dev")]
            [Mail_group (txt "F") [];
             Mail_group (txt "Friends")
               [Mail_address (txt "Al 1") (txt "al@mailio.dev");
                Mail_address (txt "Roe, Jane") (txt "jane@mailio.dev")];
             Mail_group (txt "Family") [Mail_address [] (txt "ma@mailio.dev")]].

Definition jroe : mail_address := Mail_address [] (txt "jroe@mailio.dev").

(** * Theorems *)

(** ** Multipart assembler *)

Lemma count_attachments_filter (ps : list mime) (no : nat) :
  count_attachments ps no
  = no + length (filter (fun m => is_attachment (_disposition m)) ps).
Proof.
  revert no; induction ps as [|m ps IH]; intros no; simpl.
  - lia.
  - destruct (is_attachment (_disposition m)); simpl; rewrite IH; lia.
Qed.

Lemma count_attachments_bound (ps : list mime) (no : nat) :
  count_attachments ps no <= no + length ps.
Proof.
  revert no; induction ps as [|m ps IH]; intros no; simpl.
  - lia.
  - destruct (is_attachment (_disposition m)).
    + specialize (IH (S no)); lia.
    + specialize (IH no); lia.
Qed.

(** The loop leaves the stream and the name alone when the index is past
    the attachments, and its counter is the number of attachments. *)
Lemma attachment_loop_past (index : nat) (ps : list mime) (no : nat)
    (att_strm att_name : text) :
  count_attachments ps no < index ->
  attachment_loop index ps no att_strm att_name
  = (count_attachments ps no, (att_strm, att_name)).
Proof.
  revert no; induction ps as [|m ps IH]; intros no Hlt;
    cbn [attachment_loop count_attachments] in *.
  - reflexivity.
  - destruct (is_attachment (_disposition m)).
    + pose proof (count_attachments_filter ps (S no)) as Hc.
      destruct (Nat.eqb_spec (S no) index) as [E|E]; [lia|].
      apply IH; assumption.
    + apply IH; assumption.
Qed.

(** The loop stops at the attachment of the given index, when there is
    one. *)
Lemma attachment_loop_hit (index : nat) (ps : list mime) (no : nat)
    (att_strm att_name : text) :
  no < index -> index <= count_attachments ps no ->
  exists p,
    nth_error (filter (fun m => is_attachment (_disposition m)) ps)
              (index - no - 1) = Some p
    /\ attachment_loop index ps no att_strm att_name
       = (index, (att_strm ++ _content p, _name p)).
Proof.
  revert no; induction ps as [|m ps IH]; intros no Hlo Hhi;
    cbn [attachment_loop count_attachments filter] in *.
  - lia.
  - destruct (is_attachment (_disposition m)) eqn:Ha.
    + destruct (Nat.eqb_spec (S no) index) as [E|E].
      * exists m. replace (index - no - 1) with 0 by lia.
        rewrite E. split; reflexivity.
      * destruct (IH (S no)) as [p [Hn Hl]]; [lia|assumption|].
        exists p.
        replace (index - no - 1) with (S (index - S no - 1)) by lia.
        split; [exact Hn | exact Hl].
    + apply IH; assumption.
Qed.

Lemma attachment_loop_counter (index : nat) (ps : list mime) (no : nat)
    (att_strm att_name : text) :
  fst (attachment_loop index ps no att_strm att_name) <= no + length ps.
Proof.
  revert no; induction ps as [|m ps IH]; intros no;
    cbn [attachment_loop length].
  - simpl; lia.
  - destruct (is_attachment (_disposition m)).
    + destruct (S no =? index); simpl; [lia|].
      specialize (IH (S no)); lia.
    + specialize (IH no); lia.
Qed.

(** C1. What [attachment] does at every index: index 0 throws the index
    error and writes nothing; an index from 1 to [attachments_size] returns,
    appends the content of the attachment of that rank to the stream and
    gives its name; an index past [attachments_size] does not throw: the
    call returns with the stream and the name as they were, because the
    counter tested after the loop never exceeds [_parts.size()]. So it is
    at [attachment(2, ...)] of the message with the one attachment
    report.pdf. *)
Theorem attachment_at_every_index (msg : message) (k : nat)
    (att_strm att_name : text) :
  attachment 0 msg att_strm att_name
  = Thrown No_attachment_at_the_given_index (att_strm, att_name)
  /\ (1 <= k <= attachments_size msg ->
      exists p,
        nth_error (attachments msg) (k - 1) = Some p
        /\ attachment k msg att_strm att_name
           = Returned (att_strm ++ _content p, _name p))
  /\ (attachments_size msg < k ->
      attachment k msg att_strm att_name = Returned (att_strm, att_name))
  /\ attachments_size report_message = 1
  /\ attachment 1 report_message [] []
     = Returned (txt "%PDF-1.4", txt "report.pdf")
  /\ attachment 2 report_message [] [] = Returned ([], []).
Proof.
  split; [reflexivity|].
  split; [|split; [|repeat split; reflexivity]].
  - intros [Hlo Hhi]. unfold attachments_size in Hhi.
    destruct (@attachment_loop_hit k (_parts (base msg)) 0 att_strm att_name)
      as [p [Hn Hl]]; [lia|assumption|].
    exists p. split.
    + unfold attachments. replace (k - 1) with (k - 0 - 1) by lia. exact Hn.
    + unfold attachment. destruct (Nat.eqb_spec k 0) as [E|_]; [lia|].
      rewrite Hl.
      pose proof (count_attachments_bound (_parts (base msg)) 0) as Hb.
      destruct (Nat.ltb_spec (length (_parts (base msg))) k); [lia|].
      reflexivity.
  - intros Hlt. unfold attachment, attachments_size in *.
    destruct (Nat.eqb_spec k 0) as [E|_]; [lia|].
    rewrite attachment_loop_past by assumption.
    pose proof (count_attachments_bound (_parts (base msg)) 0) as Hb.
    destruct (Nat.ltb_spec (length (_parts (base msg)))
                (count_attachments (_parts (base msg)) 0)); [lia|].
    reflexivity.
Qed.

(** C10. [attach] leaves the sender, the reply address, the three
    recipient lists, the subject and the date alone; it appends exactly one
    part, the part built from its arguments; it sets the content type to
    multipart/mixed whatever it was; it keeps a non-empty boundary and takes
    a fresh one only for an empty boundary. *)
Theorem attach_frame (fresh att_strm att_name : text) (ty : media_type_t)
    (sub : text) (msg : message) :
  let msg' := attach fresh att_strm att_name ty sub msg in
  _sender msg' = _sender msg
  /\ _reply_address msg' = _reply_address msg
  /\ _recipients msg' = _recipients msg
  /\ _cc_recipients msg' = _cc_recipients msg
  /\ _bcc_recipients msg' = _bcc_recipients msg
  /\ _subject msg' = _subject msg
  /\ _date_time msg' = _date_time msg
  /\ _parts (base msg')
     = _parts (base msg) ++ [attachment_part att_name ty sub att_strm]
  /\ length (_parts (base msg')) = S (length (_parts (base msg)))
  /\ _content_type (base msg') = Content_type MULTIPART (txt "mixed")
  /\ (_boundary (base msg) <> [] ->
      _boundary (base msg') = _boundary (base msg))
  /\ (_boundary (base msg) = [] -> _boundary (base msg') = fresh).
Proof.
  unfold attach. destruct msg as [b s r t c bc su d].
  destruct b as [bd v ct en di nm co ps]. simpl.
  destruct bd as [|x bd]; simpl; repeat split; try reflexivity;
    try (rewrite length_app; simpl; lia); intros H; congruence.
Qed.

(** ** Header codec: formatting *)

Section Formatting_facts.
Context {MC : Mime_collaborator} {DF : Date_facets}.

Lemma bind_ok {A B} (r : result A) (k : A -> result B) (b : B) :
  (x <- r ;; k x) = Ok b -> exists a, r = Ok a /\ k a = Ok b.
Proof. destruct r as [a|e]; simpl; [eauto | discriminate]. Qed.

(** C8. [format_header] puts the headers in one order: From, Reply-To, To,
    Cc, Bcc, Date, MIME-Version, the headers of the [mime] entity, Subject
    and the empty line. Cc and Bcc are there for non-empty lists, Date for a
    date which is set, MIME-Version for a message with parts. Reply-To is
    there exactly when the display name of the reply address is not empty:
    a reply address with an address and no name gives no Reply-To line. *)
Theorem format_header_layout (msg : message) (header : text) :
  format_header msg = Ok header ->
  exists h_from h_reply h_to h_cc h_bcc h_date h_mime,
    header = h_from ++ h_reply ++ h_to ++ h_cc ++ h_bcc ++ h_date
             ++ mime_version_lines msg ++ h_mime ++ subject_lines msg
    /\ (exists v, sender_to_string msg = Ok v
                  /\ h_from = header_line FROM_HEADER v)
    /\ (name (_reply_address msg) = [] -> h_reply = [])
    /\ (name (_reply_address msg) <> [] ->
        exists v, reply_address_to_string msg = Ok v
                  /\ h_reply = header_line REPLY_TO_HEADER v)
    /\ (exists v, recipients_to_string msg = Ok v
                  /\ h_to = header_line TO_HEADER v)
    /\ (if mailboxes_empty (_cc_recipients msg) then h_cc = []
        else exists v, cc_recipients_to_string msg = Ok v
                       /\ h_cc = header_line CC_HEADER v)
    /\ (if mailboxes_empty (_bcc_recipients msg) then h_bcc = []
        else exists v, bcc_recipients_to_string msg = Ok v
                       /\ h_bcc = header_line BCC_HEADER v)
    /\ (if is_not_a_date_time (_date_time msg) then h_date = []
        else exists v, facet_write (_date_time msg) = Some v
                       /\ h_date = header_line DATE_HEADER v)
    /\ (mime_version_lines msg
        = if is_nil (_parts (base msg)) then []
          else header_line MIME_VERSION_HEADER (_version (base msg)))
    /\ mime_format_header (base msg) = Ok h_mime
    /\ subject_lines msg
       = SUBJECT_HEADER ++ COLON ++ _subject msg ++ CRLF ++ CRLF.
Proof.
  unfold format_header.
  destruct (negb (is_nil (_boundary (base msg))) && _); [discriminate|].
  intros H.
  apply bind_ok in H; destruct H as [h_from [Hfrom H]].
  apply bind_ok in H; destruct H as [h_reply [Hreply H]].
  apply bind_ok in H; destruct H as [h_to [Hto H]].
  apply bind_ok in H; destruct H as [h_cc [Hcc H]].
  apply bind_ok in H; destruct H as [h_bcc [Hbcc H]].
  apply bind_ok in H; destruct H as [h_date [Hdate H]].
  apply bind_ok in H; destruct H as [h_mime [Hmime H]].
  injection H as <-.
  exists h_from, h_reply, h_to, h_cc, h_bcc, h_date, h_mime.
  split; [reflexivity|].
  split.
  { unfold from_lines in Hfrom. apply bind_ok in Hfrom.
    destruct Hfrom as [v [Hv E]]. injection E as <-. eauto. }
  unfold reply_to_lines in Hreply.
  split.
  { intros En. rewrite En in Hreply. simpl in Hreply. congruence. }
  split.
  { intros En. destruct (name (_reply_address msg)); [congruence|].
    simpl in Hreply. apply bind_ok in Hreply.
    destruct Hreply as [v [Hv E]]. injection E as <-. eauto. }
  split.
  { unfold to_lines in Hto. apply bind_ok in Hto.
    destruct Hto as [v [Hv E]]. injection E as <-. eauto. }
  split.
  { unfold cc_lines in Hcc. destruct (mailboxes_empty (_cc_recipients msg)).
    - congruence.
    - apply bind_ok in Hcc. destruct Hcc as [v [Hv E]].
      injection E as <-. eauto. }
  split.
  { unfold bcc_lines in Hbcc. destruct (mailboxes_empty (_bcc_recipients msg)).
    - congruence.
    - apply bind_ok in Hbcc. destruct Hbcc as [v [Hv E]].
      injection E as <-. eauto. }
  split.
  { unfold date_lines in Hdate.
    destruct (is_not_a_date_time (_date_time msg)).
    - congruence.
    - destruct (facet_write (_date_time msg)) as [v|]; [|discriminate].
      injection Hdate as <-. eauto. }
  repeat split; assumption.
Qed.

(** C4. A message with a non-empty boundary and a content type which is
    not multipart is not formatted: [format_header] fails with the
    structural error, and [format] throws it with the output string as it
    was given. *)
Theorem format_boundary_without_multipart (msg : message) (dot_escape : bool)
    (message_str : text) :
  _boundary (base msg) <> [] ->
  type (_content_type (base msg)) <> MULTIPART ->
  format_header msg = Err Non_multipart_message_with_boundary
  /\ format msg dot_escape message_str
     = Thrown Non_multipart_message_with_boundary message_str.
Proof.
  intros Hb Ht.
  assert (E : format_header msg = Err Non_multipart_message_with_boundary).
  { unfold format_header.
    destruct (_boundary (base msg)); [congruence|].
    destruct (type (_content_type (base msg))); try reflexivity; congruence. }
  split; [exact E|]. unfold format. rewrite E. reflexivity.
Qed.

Lemma format_parts_returns (boundary : text) (dot_escape : bool)
    (ps : list mime) (parts_str : list text) (message_str : text) :
  map (fun p => mime_format p dot_escape) ps = map (@Ok text) parts_str ->
  format_parts boundary dot_escape ps message_str
  = Returned
      (message_str
       ++ concat (map (fun p_str => txt "--" ++ boundary ++ CRLF ++ p_str
                                    ++ CRLF) parts_str)).
Proof.
  revert parts_str message_str.
  induction ps as [|p ps IH]; intros [|p_str strs] message_str Hm;
    simpl in Hm; try discriminate.
  - simpl. rewrite app_nil_r. reflexivity.
  - injection Hm as Hp Hrest. cbn [format_parts]. rewrite Hp.
    rewrite (IH strs) by assumption.
    cbn [map concat]. rewrite <- !app_assoc. reflexivity.
Qed.

(** C9 (amended). For a message with at least one part whose header, body
    content and parts are rendered without error, [format] appends to the
    output: the header block, the body content, a CRLF only when the body
    content is not empty, then for each part in the order of [_parts] the
    line of the boundary, the rendering of the part and a CRLF, then the
    closing line of the boundary. *)
Theorem format_layout (msg : message) (dot_escape : bool)
    (message_str header content : text) (parts_str : list text) :
  _parts (base msg) <> [] ->
  format_header msg = Ok header ->
  format_content (base msg) dot_escape = Ok content ->
  map (fun p => mime_format p dot_escape) (_parts (base msg))
  = map (@Ok text) parts_str ->
  format msg dot_escape message_str
  = Returned (layout message_str header content (_boundary (base msg))
                     parts_str).
Proof.
  intros Hne Hh Hc Hp. unfold format, layout. rewrite Hh, Hc.
  destruct (_parts (base msg)) as [|p ps] eqn:Eps; [congruence|].
  cbn [is_nil].
  rewrite format_parts_returns with (parts_str := parts_str) by exact Hp.
  destruct content; cbn [is_nil]; rewrite <- ?app_assoc; reflexivity.
Qed.

End Formatting_facts.

(** Scenario 6 of the specification: a boundary with text/plain. *)
Lemma format_boundary_without_multipart_witness :
  format_header text_plain_with_boundary
  = Err Non_multipart_message_with_boundary
  /\ format text_plain_with_boundary false (txt "kept")
     = Thrown Non_multipart_message_with_boundary (txt "kept").
Proof.
  apply (@format_boundary_without_multipart plain_mime rfc_facets
           text_plain_with_boundary false (txt "kept")); simpl; discriminate.
Defined.

(** The header of a message whose reply address is reply@sa.com without a
    display name: no Reply-To line. *)
Lemma format_header_layout_witness :
  format_header reply_without_name
  = Ok (txt "From: mailio <adre@sa.com>" ++ CRLF ++ txt "To: " ++ CRLF
        ++ txt "Subject: " ++ CRLF ++ CRLF)
  /\ exists h_from h_reply h_to : text,
       h_from = header_line FROM_HEADER (txt "mailio <adre@sa.com>")
       /\ h_reply = []
       /\ h_to = header_line TO_HEADER [].
Proof.
  split; [reflexivity|].
  destruct (@format_header_layout plain_mime rfc_facets reply_without_name _
              eq_refl)
    as (h_from & h_reply & h_to & h_cc & h_bcc & h_date & h_mime & _ &
        (v & Hv & Ef) & Er & _ & (w & Hw & Et) & _).
  exists h_from, h_reply, h_to.
  injection Hv as <-. injection Hw as <-.
  repeat split; [exact Ef | exact (Er eq_refl) | exact Et].
Defined.

(** C9 as stated fails. The message with the one attachment report.pdf has
    an empty body content; its rendering has no CRLF between the header
    block and the first boundary line. *)
Lemma format_without_separator :
  _parts (base report_message) <> []
  /\ format_header report_message = Ok report_header
  /\ format_content (base report_message) false = Ok []
  /\ map (fun p => mime_format p false) (_parts (base report_message))
     = map (@Ok text) [txt "%PDF-1.4"]
  /\ format report_message false []
     <> Returned
          (layout_with_separator [] report_header []
             (_boundary (base report_message)) [txt "%PDF-1.4"]).
Proof.
  split; [discriminate|]. repeat split. discriminate.
Qed.

Lemma format_layout_witness :
  format report_message false (txt ">")
  = Returned
      (txt ">From: " ++ CRLF ++ txt "To: " ++ CRLF
       ++ txt "MIME-Version: 1.0" ++ CRLF ++ txt "Subject: " ++ CRLF ++ CRLF
       ++ txt "--my_bound" ++ CRLF ++ txt "%PDF-1.4" ++ CRLF
       ++ txt "--my_bound--" ++ CRLF).
Proof.
  rewrite (@format_layout plain_mime rfc_facets report_message false
             (txt ">") report_header [] [txt "%PDF-1.4"]);
    [reflexivity | discriminate | reflexivity ..].
Defined.

(** ** Date parser *)

Section Date_facts.
Context {DF : Date_facets}.

(** C3 (amended). A text which the expression of [parse_date] does not
    match gives the not-a-date-time value, without an error. For a text
    which matches, the result is what the date facet reads from the
    rearranged text, whole; every failure of the facet is the date format
    error. *)
Theorem parse_date_cases (date_str : text) :
  (regex_match date_str date_regex = None ->
   parse_date date_str = Ok not_a_date_time)
  /\ (forall m, regex_match date_str date_regex = Some m ->
        facet_read (dttz date_str m) = None ->
        parse_date date_str = Err Bad_date_format)
  /\ (forall m ldt, regex_match date_str date_regex = Some m ->
        facet_read (dttz date_str m) = Some ldt ->
        parse_date date_str = Ok ldt).
Proof.
  unfold parse_date. repeat split.
  - intros ->. reflexivity.
  - intros m -> ->. reflexivity.
  - intros m ldt -> ->. reflexivity.
Qed.

(** C7. The text "Thu, 17 Jul 2014 10:31:49 +0200 (CET)" matches; the
    comment is dropped and the facet is given
    "Thu, 17 Jul 2014 10:31:49 +02:00". The text
    "Thu, 7 Jul 2014 10:31:49 +0200" matches; the day gets its zero and the
    facet is given "Thu, 07 Jul 2014 10:31:49 +02:00". With a facet which
    reads these two texts as 17 and 7 July 2014, 10:31:49 at +02:00,
    [parse_date] returns these date-times. *)
Theorem parse_date_scenarios :
  facet_read (txt "Thu, 17 Jul 2014 10:31:49 +02:00")
  = Some (date_time_at july_17) ->
  facet_read (txt "Thu, 07 Jul 2014 10:31:49 +02:00")
  = Some (date_time_at july_7) ->
  (exists m, regex_match (txt "Thu, 17 Jul 2014 10:31:49 +0200 (CET)")
                         date_regex = Some m
             /\ dttz (txt "Thu, 17 Jul 2014 10:31:49 +0200 (CET)") m
                = txt "Thu, 17 Jul 2014 10:31:49 +02:00")
  /\ parse_date (txt "Thu, 17 Jul 2014 10:31:49 +0200 (CET)")
     = Ok (date_time_at july_17)
  /\ (exists m, regex_match (txt "Thu, 7 Jul 2014 10:31:49 +0200")
                            date_regex = Some m
                /\ dttz (txt "Thu, 7 Jul 2014 10:31:49 +0200") m
                   = txt "Thu, 07 Jul 2014 10:31:49 +02:00")
  /\ parse_date (txt "Thu, 7 Jul 2014 10:31:49 +0200")
     = Ok (date_time_at july_7)
  /\ day july_17 = 17 /\ day july_7 = 7
  /\ (month july_17, year july_17) = (Jul, 2014)
  /\ (month july_7, year july_7) = (Jul, 2014)
  /\ (hours july_17, minutes july_17, seconds july_17) = (10, 31, 49)
  /\ (zone_west july_17, zone_hours july_17, zone_minutes july_17)
     = (false, 2, 0).
Proof.
  intros H17 H07.
  assert (E17 : exists m,
             regex_match (txt "Thu, 17 Jul 2014 10:31:49 +0200 (CET)")
                         date_regex = Some m
             /\ dttz (txt "Thu, 17 Jul 2014 10:31:49 +0200 (CET)") m
                = txt "Thu, 17 Jul 2014 10:31:49 +02:00").
  { eexists. split; [vm_compute; reflexivity | vm_compute; reflexivity]. }
  assert (E07 : exists m,
             regex_match (txt "Thu, 7 Jul 2014 10:31:49 +0200")
                         date_regex = Some m
             /\ dttz (txt "Thu, 7 Jul 2014 10:31:49 +0200") m
                = txt "Thu, 07 Jul 2014 10:31:49 +02:00").
  { eexists. split; [vm_compute; reflexivity | vm_compute; reflexivity]. }
  split; [exact E17|]. split.
  { destruct E17 as [m [Em Ed]]. unfold parse_date. rewrite Em, Ed, H17.
    reflexivity. }
  split; [exact E07|]. split.
  { destruct E07 as [m [Em Ed]]. unfold parse_date. rewrite Em, Ed, H07.
    reflexivity. }
  repeat split.
Qed.

End Date_facts.

(** C3 as stated fails: a text which is no date gives not-a-date-time, not
    the date format error. *)
Lemma parse_date_mismatch_returns :
  regex_match (txt "yesterday at noon") date_regex = None
  /\ @parse_date rfc_facets (txt "yesterday at noon") = Ok not_a_date_time
  /\ @parse_date rfc_facets (txt "yesterday at noon") <> Err Bad_date_format.
Proof.
  repeat split. discriminate.
Qed.

Lemma parse_date_scenarios_witness :
  @parse_date rfc_facets (txt "Thu, 17 Jul 2014 10:31:49 +0200 (CET)")
  = Ok (date_time_at july_17)
  /\ @parse_date rfc_facets (txt "Thu, 7 Jul 2014 10:31:49 +0200")
     = Ok (date_time_at july_7).
Proof.
  destruct (@parse_date_scenarios rfc_facets eq_refl eq_refl)
    as (_ & H17 & _ & H07 & _).
  split; [exact H17 | exact H07].
Defined.

(** ** Address list parser *)

Section Address_list_facts.
Variable QTEXT : text.

Section Any_stamp.
Variable A : Type.
Variable stamp : nat -> mail_address -> A.

(** Inside angle brackets with no monkey seen, the machine fails at the
    closing bracket or before. *)
Lemma run_bracket_without_monkey (body rest : text) (pos : nat)
    (l : locals A) :
  state l = ADDRBRBEG -> monkey_found l = false ->
  find_char body MONKEY_CHAR = false ->
  run QTEXT stamp pos (body ++ GREATER_THAN_CHAR :: rest) l
  = Err Bad_address_or_group.
Proof.
  revert pos l. induction body as [|c body IH]; intros pos l Hs Hm Hb.
  - cbn [app run]. unfold step. rewrite Hs.
    unfold on_ADDRBRBEG. cbn. rewrite Hm. reflexivity.
  - cbn [app run].
    replace (is_nil (body ++ GREATER_THAN_CHAR :: rest)) with false
      by (destruct body; reflexivity).
    unfold step. rewrite Hs. unfold on_ADDRBRBEG.
    cbn [find_char existsb] in Hb. apply orb_false_elim in Hb.
    destruct Hb as [Hc Hb]. unfold is_char. rewrite Ascii.eqb_sym in Hc.
    rewrite Hc.
    destruct (is_atext c).
    + cbn [bind at_last]. apply IH; [exact Hs | exact Hm | exact Hb].
    + destruct (Ascii.eqb c GREATER_THAN_CHAR); [|reflexivity].
      cbn. rewrite Hm. reflexivity.
Qed.

End Any_stamp.

(** C5. After a closing angle bracket the machine has no branch for a
    character which is no space, comma, semicolon or left parenthesis: the
    character is skipped, and "<a@b.c>x" is accepted as the address a@b.c.
    A list which starts with a bracketed address without a monkey is
    rejected; the flag is not lowered at the semicolon which ends a group
    after a plain address, so a bracketed address without a monkey is
    accepted after such a group. *)
Theorem bracket_end_cases :
  parse_address_list QTEXT (txt "<a@b.c>x")
  = Ok (Mailboxes [Mail_address [] (txt "a@b.c")] [])
  /\ (forall (ch : ascii) (l : locals mail_address),
        isspace ch = false -> ch <> COMMA_CHAR -> ch <> SEMICOLON_CHAR ->
        ch <> LEFT_PARENTHESIS_CHAR ->
        on_ADDRBREND ch l = Ok l)
  /\ (forall body rest : text,
        find_char body MONKEY_CHAR = false ->
        parse_address_list QTEXT
          (LESS_THAN_CHAR :: body ++ GREATER_THAN_CHAR :: rest)
        = Err Bad_address_or_group)
  /\ parse_address_list QTEXT (txt "G: aa@b.c; Bob <bob>")
     = Ok (Mailboxes [Mail_address (txt "Bob") (txt "bob")]
                     [Mail_group (txt "G") [Mail_address [] (txt "aa@b.c")]]).
Proof.
  split; [reflexivity|]. split; [|split; [|reflexivity]].
  - intros ch l Hsp Hc Hs Hp. unfold on_ADDRBREND, is_char. rewrite Hsp.
    apply Ascii.eqb_neq in Hc, Hs, Hp. rewrite Hc, Hs, Hp. reflexivity.
  - intros body rest Hb. unfold parse_address_list, parse_address_list_of.
    cbn [run].
    replace (is_nil (body ++ GREATER_THAN_CHAR :: rest)) with false
      by (destruct body; reflexivity).
    change (step QTEXT (fun _ a => a) false 0 LESS_THAN_CHAR
              (initial mail_address))
      with (Ok (set_state (initial mail_address) ADDRBRBEG)).
    cbn [bind].
    rewrite run_bracket_without_monkey; [reflexivity ..| exact Hb].
Qed.

End Address_list_facts.

(** ** Stamps: no address is stored twice *)

Section Stamps.
Variable QTEXT : text.

#[local] Arguments cnt : simpl never.
#[local] Arguments group_stamps : simpl never.

Lemma cnt_app (n : nat) (l1 l2 : list nat) :
  cnt n (l1 ++ l2) = cnt n l1 + cnt n l2.
Proof. apply count_occ_app. Qed.

Lemma cnt_nil (n : nat) : cnt n [] = 0.
Proof. reflexivity. Qed.

Lemma cnt_one (n m : nat) : cnt n [m] = if Nat.eq_dec m n then 1 else 0.
Proof. unfold cnt. simpl. destruct (Nat.eq_dec m n); reflexivity. Qed.

Lemma group_stamps_nil : group_stamps [] = [].
Proof. reflexivity. Qed.

Lemma group_stamps_app (g1 g2 : list (mail_group_of stamped)) :
  group_stamps (g1 ++ g2) = group_stamps g1 ++ group_stamps g2.
Proof. apply flat_map_app. Qed.

Lemma group_stamps_one (g : mail_group_of stamped) :
  group_stamps [g] = map fst (members g).
Proof. unfold group_stamps. simpl. apply app_nil_r. Qed.

(** Every conditional of a hypothesis split into its cases. *)
Ltac split_conditionals H :=
  repeat match type of H with
         | context [if ?c then _ else _] => destruct c eqn:?
         | context [match ?c with BEGIN => _ | _ => _ end] => destruct c eqn:?
         end;
  cbn in H; try discriminate H.

(** The counts of a goal or hypothesis about the stamps of a state, as
    sums. *)
Ltac counts :=
  unfold stored, pending, with_index, stamped in *; cbn in *;
  repeat (progress (repeat rewrite ?map_app, ?group_stamps_app,
                      ?group_stamps_one, ?group_stamps_nil, ?cnt_app,
                      ?cnt_nil, ?cnt_one in *;
                    cbn [map fst members app] in *)).

Ltac decide_stamps :=
  repeat match goal with
         | |- context [Nat.eq_dec ?a ?b] => destruct (Nat.eq_dec a b)
         | H : context [Nat.eq_dec ?a ?b] |- _ => destruct (Nat.eq_dec a b)
         end.

(** A goal of the invariant at [n], from the invariant before the step. *)
Ltac from_invariant Hfresh Hstored Hpending n :=
  pose proof (Hfresh n) as Hf; pose proof (Hstored n) as Hs;
  try (pose proof (Hpending eq_refl n) as Hp);
  counts; decide_stamps; lia.

(** One iteration which is not the last keeps the invariant. *)
Lemma step_invariant (pos : nat) (ch : ascii) (l l' : locals stamped) :
  stamps_invariant pos l ->
  step QTEXT with_index false pos ch l = Ok l' ->
  stamps_invariant (S pos) l'.
Proof.
  intros [Hcur Hfresh Hstored Hpending] Hstep.
  destruct l as [ml gl ca cg ma st mf gf tk]. destruct cg as [gn gm].
  cbn in Hcur. subst gm.
  destruct st; cbn in Hstep;
    unfold on_BEGIN, on_NAMEADDRGRP, on_NAME, on_ADDR, on_QNAMEADDRBEG,
           on_QNAMEADDREND, on_ADDRBRBEG, on_ADDRBREND, on_GROUPBEG,
           on_GROUPEND, on_COMMBEG, on_COMMEND, on_EOL, bad in Hstep;
    cbn in Hstep; split_conditionals Hstep;
    injection Hstep as <-;
    (split;
     [ reflexivity
     | intros n Hn; from_invariant Hfresh Hstored Hpending n
     | intros n; from_invariant Hfresh Hstored Hpending n
     | intros Hc n; try discriminate Hc;
       from_invariant Hfresh Hstored Hpending n ]).
Qed.

(** The last iteration leaves no stamp stored twice. *)
Lemma last_step_stored (pos : nat) (ch : ascii) (l l' : locals stamped) :
  stamps_invariant pos l ->
  step QTEXT with_index true pos ch l = Ok l' ->
  forall n, cnt n (stored l') <= 1.
Proof.
  intros [Hcur Hfresh Hstored Hpending] Hstep.
  destruct l as [ml gl ca cg ma st mf gf tk]. destruct cg as [gn gm].
  cbn in Hcur. subst gm.
  destruct st; cbn in Hstep;
    unfold on_BEGIN, on_NAMEADDRGRP, on_NAME, on_ADDR, on_QNAMEADDRBEG,
           on_QNAMEADDREND, on_ADDRBRBEG, on_ADDRBREND, on_GROUPBEG,
           on_GROUPEND, on_COMMBEG, on_COMMEND, on_EOL, bad in Hstep;
    cbn in Hstep; split_conditionals Hstep;
    unfold end_BEGIN, end_NAMEADDRGRP, end_NAME, end_ADDR, end_QNAMEADDRBEG,
           end_QNAMEADDREND, end_ADDRBRBEG, end_ADDRBREND, end_GROUPBEG,
           end_GROUPEND, bad in Hstep;
    cbn in Hstep; split_conditionals Hstep;
    injection Hstep as <-;
    intros n; from_invariant Hfresh Hstored Hpending n.
Qed.

Lemma initial_invariant : stamps_invariant 0 (initial stamped).
Proof.
  split; intros; try reflexivity;
    unfold stored, pending, cnt, group_stamps; cbn; lia.
Qed.

(** The loop leaves no stamp stored twice. *)
Lemma run_stored (chars : text) (pos : nat) (l l' : locals stamped) :
  stamps_invariant pos l ->
  run QTEXT with_index pos chars l = Ok l' ->
  forall n, cnt n (stored l') <= 1.
Proof.
  revert pos l. induction chars as [|ch rest IH]; intros pos l Hinv Hrun.
  - injection Hrun as <-. apply Hinv.
  - cbn [run] in Hrun.
    destruct (step QTEXT with_index (is_nil rest) pos ch l) as [l1|e] eqn:Hstep;
      [|discriminate].
    cbn [bind] in Hrun. destruct rest as [|ch' rest].
    + injection Hrun as <-.
      apply last_step_stored with (pos := pos) (ch := ch) (l := l);
        assumption.
    + apply IH with (pos := S pos) (l := l1); [|exact Hrun].
      apply step_invariant with (ch := ch) (l := l); assumption.
Qed.

(** The last iteration stores no stamp above its index. *)
Lemma last_step_fresh (pos : nat) (ch : ascii) (l l' : locals stamped) :
  stamps_invariant pos l ->
  step QTEXT with_index true pos ch l = Ok l' ->
  forall n, S pos <= n -> cnt n (stored l') = 0.
Proof.
  intros [Hcur Hfresh Hstored Hpending] Hstep.
  destruct l as [ml gl ca cg ma st mf gf tk]. destruct cg as [gn gm].
  cbn in Hcur. subst gm.
  destruct st; cbn in Hstep;
    unfold on_BEGIN, on_NAMEADDRGRP, on_NAME, on_ADDR, on_QNAMEADDRBEG,
           on_QNAMEADDREND, on_ADDRBRBEG, on_ADDRBREND, on_GROUPBEG,
           on_GROUPEND, on_COMMBEG, on_COMMEND, on_EOL, bad in Hstep;
    cbn in Hstep; split_conditionals Hstep;
    unfold end_BEGIN, end_NAMEADDRGRP, end_NAME, end_ADDR, end_QNAMEADDRBEG,
           end_QNAMEADDREND, end_ADDRBRBEG, end_ADDRBREND, end_GROUPBEG,
           end_GROUPEND, bad in Hstep;
    cbn in Hstep; split_conditionals Hstep;
    injection Hstep as <-;
    intros n Hn; pose proof (Hfresh n) as Hf; counts; decide_stamps; lia.
Qed.

(** The loop stores the stamps of characters of the list only. *)
Lemma run_fresh (chars : text) (pos : nat) (l l' : locals stamped) :
  stamps_invariant pos l ->
  run QTEXT with_index pos chars l = Ok l' ->
  forall n, pos + length chars <= n -> cnt n (stored l') = 0.
Proof.
  revert pos l. induction chars as [|ch rest IH]; intros pos l Hinv Hrun n Hn.
  - injection Hrun as <-. cbn [length] in Hn.
    pose proof (@inv_fresh _ _ Hinv n ltac:(lia)). lia.
  - cbn [run] in Hrun.
    destruct (step QTEXT with_index (is_nil rest) pos ch l) as [l1|e] eqn:Hstep;
      [|discriminate].
    cbn [bind] in Hrun. cbn [length] in Hn. destruct rest as [|ch' rest].
    + injection Hrun as <-.
      apply last_step_fresh with (pos := pos) (ch := ch) (l := l);
        [assumption | assumption | lia].
    + apply IH with (pos := S pos) (l := l1); [| exact Hrun | lia].
      apply step_invariant with (ch := ch) (l := l); assumption.
Qed.

(** The machine on stamped addresses is the program's with the stamps
    added: erasing them commutes with every iteration. *)
Lemma step_erase (last : bool) (pos : nat) (ch : ascii) (l : locals stamped) :
  step QTEXT (fun _ a => a) last pos ch (erase_locals l)
  = map_result erase_locals (step QTEXT with_index last pos ch l).
Proof.
  destruct l as [ml gl ca cg ma st mf gf tk]. destruct cg as [gn gm].
  destruct st; cbn;
    unfold on_BEGIN, on_NAMEADDRGRP, on_NAME, on_ADDR, on_QNAMEADDRBEG,
           on_QNAMEADDREND, on_ADDRBRBEG, on_ADDRBREND, on_GROUPBEG,
           on_GROUPEND, on_COMMBEG, on_COMMEND, on_EOL, bad; cbn;
    repeat match goal with
           | |- context [if ?c then _ else _] => destruct c eqn:?
           end;
    cbn; try reflexivity;
    destruct last; cbn; try reflexivity;
    unfold end_BEGIN, end_NAMEADDRGRP, end_NAME, end_ADDR, end_QNAMEADDRBEG,
           end_QNAMEADDREND, end_ADDRBRBEG, end_ADDRBREND, end_GROUPBEG,
           end_GROUPEND, bad; cbn;
    repeat match goal with
           | |- context [if ?c then _ else _] => destruct c eqn:?
           end;
    cbn; unfold erase_locals, erase_group, with_index; cbn;
    repeat (rewrite !map_app; cbn); reflexivity.
Qed.

Lemma run_erase (chars : text) (pos : nat) (l : locals stamped) :
  run QTEXT (fun _ a => a) pos chars (erase_locals l)
  = map_result erase_locals (run QTEXT with_index pos chars l).
Proof.
  revert pos l. induction chars as [|ch rest IH]; intros pos l.
  - reflexivity.
  - cbn [run]. rewrite step_erase.
    destruct (step QTEXT with_index (is_nil rest) pos ch l) as [l1|e]; cbn.
    + apply IH.
    + reflexivity.
Qed.

Lemma parse_address_list_erase (address_list : text) :
  parse_address_list QTEXT address_list
  = map_result erase (parse_address_list_stamped QTEXT address_list).
Proof.
  unfold parse_address_list, parse_address_list_stamped,
    parse_address_list_of.
  change (initial mail_address) with (erase_locals (initial stamped)).
  rewrite run_erase.
  destruct (run QTEXT with_index 0 address_list (initial stamped)); reflexivity.
Qed.

Lemma cnt_in (n : nat) (L : list nat) : In n L -> 1 <= cnt n L.
Proof.
  intros H. apply (count_occ_In Nat.eq_dec) in H. unfold cnt. lia.
Qed.

Lemma in_group_stamps (gs : list (mail_group_of stamped))
    (g : mail_group_of stamped) (a : stamped) :
  In g gs -> In a (members g) -> In (fst a) (group_stamps gs).
Proof.
  intros Hg Ha. unfold group_stamps. apply in_flat_map.
  exists g. split; [exact Hg | apply in_map; exact Ha].
Qed.


End Stamps.



(** ** Round trip of the header *)

(** *** Trimming *)

Lemma trim_left_spaces (ws s : text) :
  forallb isspace ws = true -> trim_left (ws ++ s) = trim_left s.
Proof.
  induction ws as [|c ws IH]; intros H; [reflexivity|].
  cbn in H. apply andb_prop in H. destruct H as [Hc Hws].
  cbn. rewrite Hc. apply IH; exact Hws.
Qed.

Lemma trim_spaces (ws s : text) :
  forallb isspace ws = true -> trim (ws ++ s) = trim s.
Proof. intros H. unfold trim. rewrite trim_left_spaces by exact H. reflexivity. Qed.

Lemma trim_left_length (s : text) : length (trim_left s) <= length s.
Proof.
  induction s as [|c s IH]; cbn; [lia|].
  destruct (isspace c); cbn; lia.
Qed.

Lemma trim_right_length (s : text) : length (trim_right s) <= length s.
Proof.
  unfold trim_right. rewrite length_rev.
  pose proof (trim_left_length (rev s)) as H. rewrite length_rev in H. exact H.
Qed.

Lemma text_eqb_eq (a b : text) : text_eqb a b = true -> a = b.
Proof. unfold text_eqb. destruct (list_eq_dec ascii_dec a b); congruence. Qed.

Lemma text_eqb_refl (a : text) : text_eqb a a = true.
Proof. unfold text_eqb. destruct (list_eq_dec ascii_dec a a); congruence. Qed.

Lemma trimmed_trim (s : text) : trimmed s = true -> trim s = s.
Proof. apply text_eqb_eq. Qed.

(** A trimmed text which is not empty starts with a character which is no
    space, and its left and right trimmings leave it as it is. *)
Lemma trimmed_head (c : ascii) (s : text) :
  trimmed (c :: s) = true -> isspace c = false.
Proof.
  intros H. apply trimmed_trim in H. destruct (isspace c) eqn:Hc; [|reflexivity].
  exfalso. unfold trim in H. cbn [trim_left] in H. rewrite Hc in H.
  pose proof (trim_right_length (trim_left s)) as H1.
  pose proof (trim_left_length s) as H2.
  rewrite H in H1. cbn in H1. lia.
Qed.

Lemma trimmed_right (s : text) : trimmed s = true -> trim_right s = s.
Proof.
  intros H. destruct s as [|c s]; [reflexivity|].
  pose proof (trimmed_head _ _ H) as Hc. apply trimmed_trim in H.
  unfold trim in H. cbn [trim_left] in H. rewrite Hc in H. exact H.
Qed.

Lemma trim_right_space (s : text) (c : ascii) :
  isspace c = true -> trim_right (s ++ [c]) = trim_right s.
Proof.
  intros Hc. unfold trim_right. rewrite rev_app_distr. cbn. rewrite Hc.
  reflexivity.
Qed.

(** The name which the machine takes from the token [name ++ " "]. *)
Lemma trim_name_space (n : text) :
  trimmed n = true -> trim (n ++ [SPACE_CHAR]) = n.
Proof.
  intros H. destruct n as [|c n]; [reflexivity|].
  pose proof (trimmed_head _ _ H) as Hc.
  unfold trim. cbn [app trim_left]. rewrite Hc.
  change (c :: n ++ [SPACE_CHAR]) with ((c :: n) ++ [SPACE_CHAR]).
  rewrite trim_right_space by reflexivity. apply trimmed_right. exact H.
Qed.

(** A value behind white space is read trimmed. *)
Lemma trim_value (ws v : text) :
  forallb isspace ws = true -> trimmed v = true -> trim (ws ++ v) = v.
Proof.
  intros Hws Hv. rewrite trim_spaces by exact Hws. apply trimmed_trim; exact Hv.
Qed.

(** *** Lines *)

Lemma block_app (a b : list text) : block (a ++ b) = block a ++ block b.
Proof. unfold block. rewrite map_app, concat_app. reflexivity. Qed.

Lemma is_nil_rev {A} (l : list A) : is_nil (rev l) = is_nil l.
Proof.
  destruct l as [|a l]; [reflexivity|]. cbn.
  destruct (rev l); reflexivity.
Qed.

Lemma header_lines_from_line (v : text) (cur rest : text) :
  no_lf v = true ->
  header_lines_from cur (v ++ CRLF ++ rest)
  = if is_nil (rev cur ++ v) then []
    else (rev cur ++ v) :: header_lines_from [] rest.
Proof.
  revert cur. induction v as [|c v IH]; intros cur Hv.
  - cbn [app header_lines_from CRLF].
    change (Ascii.eqb (ascii_of_nat 13) CR && Ascii.eqb (ascii_of_nat 10) LF)
      with true.
    cbn [andb]. rewrite app_nil_r, is_nil_rev. reflexivity.
  - cbn in Hv. apply andb_prop in Hv. destruct Hv as [Hc Hv].
    cbn [app header_lines_from].
    assert (E : exists d s'', v ++ CRLF ++ rest = d :: s''
                              /\ Ascii.eqb d LF = false).
    { destruct v as [|d v'].
      - exists CR, (LF :: rest). split; reflexivity.
      - exists d, (v' ++ CRLF ++ rest). split; [reflexivity|].
        cbn in Hv. apply andb_prop in Hv. destruct Hv as [Hd _].
        apply negb_true_iff in Hd. exact Hd. }
    destruct E as (d & s'' & Es & Hd).
    specialize (IH (c :: cur) Hv). rewrite Es in IH |- *. rewrite Hd.
    rewrite andb_false_r. rewrite IH.
    cbn [rev]. rewrite <- app_assoc. cbn [app]. reflexivity.
Qed.

(** The lines of a block of lines followed by the empty line. *)
Lemma header_lines_block (lines : list text) (rest : text) :
  Forall (fun l => l <> [] /\ no_lf l = true) lines ->
  header_lines (block lines ++ CRLF ++ rest) = lines.
Proof.
  unfold header_lines. induction 1 as [|l lines [Hne Hlf] _ IH].
  - reflexivity.
  - unfold block. cbn [map concat]. fold (block lines).
    rewrite <- !app_assoc.
    change (l ++ CRLF ++ block lines ++ CRLF ++ rest)
      with (l ++ CRLF ++ (block lines ++ CRLF ++ rest)).
    rewrite header_lines_from_line by exact Hlf.
    cbn [rev app]. destruct l as [|c l]; [congruence|].
    cbn [is_nil]. rewrite IH. reflexivity.
Qed.

(** *** The address machine on a formatted list *)

Lemma name_char_cases (c : ascii) :
  name_char c = true ->
  is_atext c = true
  \/ (is_atext c = false /\ is_char MONKEY_CHAR c = false
      /\ isspace c = true).
Proof.
  destruct c as [[] [] [] [] [] [] [] []]; vm_compute; intros H;
    first [discriminate H | left; reflexivity | right; repeat split].
Qed.

Lemma atext_no_space (c : ascii) : is_atext c = true -> isspace c = false.
Proof.
  destruct c as [[] [] [] [] [] [] [] []]; vm_compute; intros H;
    first [discriminate H | reflexivity].
Qed.

Lemma dtext_char_cases (c : ascii) :
  dtext_char c = true ->
  is_atext c = true \/ (is_atext c = false /\ c = MONKEY_CHAR).
Proof.
  destruct c as [[] [] [] [] [] [] [] []]; vm_compute; intros H;
    first [discriminate H | left; reflexivity | right; split; reflexivity].
Qed.

Lemma atext_no_monkey (c : ascii) :
  is_atext c = true -> Ascii.eqb MONKEY_CHAR c = false.
Proof.
  destruct c as [[] [] [] [] [] [] [] []]; vm_compute; intros H;
    first [discriminate H | reflexivity].
Qed.

Section Machine_runs.
Variable QTEXT : text.

Notation step' := (step QTEXT (fun (_ : nat) (a : mail_address) => a)).
Notation run' := (run QTEXT (fun (_ : nat) (a : mail_address) => a)).

Lemma is_nil_app_r {A} (a b : list A) : b <> [] -> is_nil (a ++ b) = false.
Proof. destruct a; [destruct b; [congruence|reflexivity] | reflexivity]. Qed.

(** The loop on [a ++ rest], [rest] not empty: no character of [a] is the
    last one. *)
Lemma run_steps (a rest : text) (pos : nat) (l : locals mail_address) :
  rest <> [] ->
  run' pos (a ++ rest) l
  = (l' <- steps QTEXT pos a l ;; run' (length a + pos) rest l').
Proof.
  intros Hr. revert pos l. induction a as [|c a IH]; intros pos l.
  - reflexivity.
  - cbn [app run steps length]. rewrite is_nil_app_r by exact Hr.
    destruct (step' false pos c l) as [l1|e]; cbn [bind]; [|reflexivity].
    rewrite IH. replace (length a + S pos) with (S (length a) + pos) by lia.
    reflexivity.
Qed.

Lemma steps_app (a b : text) (pos : nat) (l : locals mail_address) :
  steps QTEXT pos (a ++ b) l
  = (l' <- steps QTEXT pos a l ;; steps QTEXT (length a + pos) b l').
Proof.
  revert pos l. induction a as [|c a IH]; intros pos l.
  - reflexivity.
  - cbn [app steps length].
    destruct (step' false pos c l) as [l1|e]; cbn [bind]; [|reflexivity].
    rewrite IH. replace (length a + S pos) with (S (length a) + pos) by lia.
    reflexivity.
Qed.

(** White space before an address is skipped. *)
Lemma steps_spaces (ws : text) (pos : nat) (l : locals mail_address) :
  state l = BEGIN -> forallb isspace ws = true ->
  steps QTEXT pos ws l = Ok l.
Proof.
  intros Hs. revert pos. induction ws as [|c ws IH]; intros pos Hws.
  - reflexivity.
  - cbn in Hws. apply andb_prop in Hws. destruct Hws as [Hc Hws].
    cbn [steps]. unfold step. rewrite Hs. unfold on_BEGIN. rewrite Hc.
    cbn [bind at_last]. apply IH; exact Hws.
Qed.

(** A list which is white space only has no address. *)
Lemma run_spaces (ws : text) (pos : nat) (l : locals mail_address) :
  state l = BEGIN -> forallb isspace ws = true ->
  run' pos ws l = Ok l.
Proof.
  intros Hs. revert pos. induction ws as [|c ws IH]; intros pos Hws.
  - reflexivity.
  - cbn in Hws. apply andb_prop in Hws. destruct Hws as [Hc Hws].
    cbn [run]. unfold step. rewrite Hs. unfold on_BEGIN. rewrite Hc.
    cbn [bind]. unfold at_last, end_BEGIN. rewrite Hs.
    destruct (is_nil ws); cbn [bind]; apply IH; exact Hws.
Qed.

(** The characters of a name, after its first, go to the token. *)
Lemma steps_name (chars : text) (pos : nat) ml gl ca cg ma st mf gf tk :
  st = NAMEADDRGRP \/ st = NAME ->
  forallb name_char chars = true ->
  exists st',
    (st' = NAMEADDRGRP \/ st' = NAME)
    /\ steps QTEXT pos chars (Locals ml gl ca cg ma st mf gf tk)
       = Ok (Locals ml gl ca cg ma st' mf gf (tk ++ chars)).
Proof.
  revert pos st tk. induction chars as [|c chars IH]; intros pos st tk Hst Hc.
  - exists st. rewrite app_nil_r. auto.
  - cbn in Hc. apply andb_prop in Hc. destruct Hc as [Hc Hcs].
    cbn [steps]. unfold step. cbn [state].
    assert (E : exists st1,
               (st1 = NAMEADDRGRP \/ st1 = NAME)
               /\ match st with
                  | NAMEADDRGRP =>
                      l <- on_NAMEADDRGRP (fun _ a => a) pos c
                             (Locals ml gl ca cg ma st mf gf tk) ;;
                      at_last false (end_NAMEADDRGRP (fun _ a => a) pos) l
                  | _ => l <- on_NAME c (Locals ml gl ca cg ma st mf gf tk) ;;
                         at_last false (@end_NAME _) l
                  end
                  = Ok (Locals ml gl ca cg ma st1 mf gf (tk ++ [c]))).
    { destruct (name_char_cases _ Hc) as [Ha | (Ha & Hm & Hs)].
      - destruct Hst as [-> | ->].
        + exists NAMEADDRGRP. split; [auto|].
          unfold on_NAMEADDRGRP. rewrite Ha. reflexivity.
        + exists NAME. split; [auto|].
          unfold on_NAME. rewrite Ha. reflexivity.
      - exists NAME. split; [auto|]. destruct Hst as [-> | ->].
        + unfold on_NAMEADDRGRP. rewrite Ha, Hm, Hs. reflexivity.
        + unfold on_NAME. rewrite Ha, Hs. reflexivity. }
    destruct E as (st1 & Hst1 & E).
    assert (E' : step' false pos c (Locals ml gl ca cg ma st mf gf tk)
                 = Ok (Locals ml gl ca cg ma st1 mf gf (tk ++ [c]))).
    { unfold step. cbn [state]. destruct Hst as [-> | ->]; exact E. }
    unfold step in E'. cbn [state] in E'. rewrite E'. cbn [bind].
    destruct (IH (S pos) st1 (tk ++ [c]) Hst1 Hcs) as (st' & Hst' & Es).
    exists st'. split; [exact Hst'|]. rewrite Es. rewrite <- app_assoc.
    reflexivity.
Qed.

Lemma step_bracketed (c : ascii) (pos : nat) ml gl ca cg ma mf gf tk :
  dtext_char c = true ->
  step' false pos c (Locals ml gl ca cg ma ADDRBRBEG mf gf tk)
  = Ok (Locals ml gl ca cg ma ADDRBRBEG
               (mf || Ascii.eqb MONKEY_CHAR c) gf (tk ++ [c])).
Proof.
  intros Hc. unfold step. cbn [state]. unfold on_ADDRBRBEG.
  destruct (dtext_char_cases _ Hc) as [Ha | (Ha & ->)].
  - rewrite Ha. rewrite (atext_no_monkey _ Ha), orb_false_r. reflexivity.
  - rewrite Ha. cbn. rewrite orb_true_r. reflexivity.
Qed.

(** The characters of an address in angle brackets go to the token; the
    flag is raised at a monkey. *)
Lemma steps_bracketed (chars : text) (pos : nat) ml gl ca cg ma mf gf tk :
  forallb dtext_char chars = true ->
  steps QTEXT pos chars (Locals ml gl ca cg ma ADDRBRBEG mf gf tk)
  = Ok (Locals ml gl ca cg ma ADDRBRBEG
               (mf || find_char chars MONKEY_CHAR) gf (tk ++ chars)).
Proof.
  revert pos mf tk. induction chars as [|c chars IH]; intros pos mf tk Hc.
  - cbn. rewrite orb_false_r, app_nil_r. reflexivity.
  - cbn in Hc. apply andb_prop in Hc. destruct Hc as [Hc Hcs].
    cbn [steps]. rewrite step_bracketed by exact Hc. cbn [bind].
    rewrite IH by exact Hcs. cbn [find_char existsb].
    rewrite orb_assoc, <- app_assoc. reflexivity.
Qed.

Lemma good_address_parts (a : mail_address) :
  good_address a = true ->
  address a <> [] /\ forallb dtext_char (address a) = true
  /\ find_char (address a) MONKEY_CHAR = true
  /\ forallb name_char (name a) = true /\ trimmed (name a) = true.
Proof.
  unfold good_address. intros H.
  repeat (apply andb_prop in H; destruct H as [H ?]).
  repeat split; try assumption.
  destruct (address a); [discriminate | congruence].
Qed.

Lemma format_good_address (a : mail_address) :
  good_address a = true ->
  format_address (name a) (address a)
  = Ok (address_prefix a ++ address a ++ [GREATER_THAN_CHAR]).
Proof.
  intros H. destruct (good_address_parts _ H) as (Hne & Hd & _ & Hn & _).
  unfold format_address, address_prefix.
  change (NAME_REGEX (name a)) with (forallb name_char (name a)).
  change (DTEXT_REGEX (address a)) with (forallb dtext_char (address a)).
  rewrite Hn, Hd. destruct (address a) as [|x ad]; [congruence|].
  rewrite andb_false_r. cbn [bind is_nil].
  destruct (name a) as [|c n]; cbn [is_nil app]; [reflexivity|].
  rewrite <- app_assoc. reflexivity.
Qed.

Lemma step_open_after_name (pos : nat) ml gl ca cg ma mf gf tk :
  step' false pos LESS_THAN_CHAR (Locals ml gl ca cg ma NAME mf gf tk)
  = Ok (Locals ml gl (Mail_address (trim tk) (address ca)) cg ma ADDRBRBEG
               mf gf []).
Proof. reflexivity. Qed.

(** The machine on what is written before the address: the name is in
    [cur_address], the state is the one of an opened bracket. *)
Lemma steps_prefix (a : mail_address) (done : list mail_address) (pos : nat) :
  good_address a = true ->
  steps QTEXT pos (address_prefix a) (waiting BEGIN done)
  = Ok (Locals [] [] (Mail_address (name a) []) (Mail_group [] []) done
               ADDRBRBEG false false []).
Proof.
  intros H. destruct (good_address_parts _ H) as (_ & _ & _ & Hn & Ht).
  unfold address_prefix. destruct (name a) as [|c n] eqn:En.
  - reflexivity.
  - cbn [is_nil]. cbn in Hn. apply andb_prop in Hn. destruct Hn as [Hc Hn].
    pose proof (trimmed_head _ _ Ht) as Hsp.
    assert (Ha : is_atext c = true).
    { destruct (name_char_cases _ Hc) as [Ha | (_ & _ & Hs)];
        [exact Ha | congruence]. }
    cbn [app steps]. unfold step at 1. cbn [state waiting].
    unfold on_BEGIN. rewrite Hsp, Ha. cbn [bind at_last].
    unfold token_add, set_token, set_state. cbn.
    rewrite steps_app.
    destruct (@steps_name n (S pos) [] [] empty_address (Mail_group [] [])
                done NAMEADDRGRP false false [c] (or_introl eq_refl) Hn)
      as (st' & Hst' & Es).
    rewrite Es. cbn [bind steps].
    assert (E1 : step' false (length n + S pos) SPACE_CHAR
                   (Locals [] [] empty_address (Mail_group [] []) done st'
                           false false ([c] ++ n))
                 = Ok (Locals [] [] empty_address (Mail_group [] []) done
                              NAME false false (c :: n ++ [SPACE_CHAR]))).
    { destruct Hst' as [-> | ->]; reflexivity. }
    rewrite E1. cbn [bind].
    rewrite step_open_after_name. cbn [bind steps].
    change (c :: n ++ [SPACE_CHAR]) with ((c :: n) ++ [SPACE_CHAR]).
    rewrite trim_name_space by exact Ht. reflexivity.
Qed.

(** The closing bracket stores the address; at the end of the list the
    stored addresses go to the result. *)
Lemma step_close (last : bool) (pos : nat) (n tk : text)
    (done : list mail_address) :
  step' last pos GREATER_THAN_CHAR
    (Locals [] [] (Mail_address n []) (Mail_group [] []) done ADDRBRBEG
            true false tk)
  = Ok (Locals (if last then done ++ [Mail_address n tk] else []) []
               empty_address (Mail_group [] []) (done ++ [Mail_address n tk])
               ADDRBREND false false []).
Proof. destruct last; reflexivity. Qed.

Lemma no_lf_app (a b : text) : no_lf (a ++ b) = no_lf a && no_lf b.
Proof. apply forallb_app. Qed.

Lemma name_char_no_lf (s : text) : forallb name_char s = true -> no_lf s = true.
Proof.
  unfold no_lf. intros H. rewrite forallb_forall in H |- *. intros c Hc.
  specialize (H c Hc). revert H.
  destruct c as [[] [] [] [] [] [] [] []]; vm_compute; congruence.
Qed.

Lemma dtext_char_no_lf (s : text) :
  forallb dtext_char s = true -> no_lf s = true.
Proof.
  unfold no_lf. intros H. rewrite forallb_forall in H |- *. intros c Hc.
  specialize (H c Hc). revert H.
  destruct c as [[] [] [] [] [] [] [] []]; vm_compute; congruence.
Qed.

Lemma formatted_address_no_lf (a : mail_address) :
  good_address a = true ->
  no_lf (address_prefix a ++ address a ++ [GREATER_THAN_CHAR]) = true.
Proof.
  intros H. destruct (good_address_parts _ H) as (_ & Hd & _ & Hn & _).
  rewrite !no_lf_app. rewrite (dtext_char_no_lf _ Hd).
  unfold address_prefix. destruct (is_nil (name a)); [reflexivity|].
  rewrite no_lf_app, (name_char_no_lf _ Hn). reflexivity.
Qed.

(** The machine on one formatted address, the last of the list or not. *)
Lemma steps_address (a : mail_address) (done : list mail_address) (pos : nat) :
  good_address a = true ->
  steps QTEXT pos (address_prefix a ++ address a) (waiting BEGIN done)
  = Ok (Locals [] [] (Mail_address (name a) []) (Mail_group [] []) done
               ADDRBRBEG true false (address a)).
Proof.
  intros H. destruct (good_address_parts _ H) as (_ & Hd & Hm & _ & _).
  rewrite steps_app, steps_prefix by exact H. cbn [bind].
  rewrite steps_bracketed by exact Hd. rewrite Hm. reflexivity.
Qed.

Lemma mail_address_eta (a : mail_address) :
  Mail_address (name a) (address a) = a.
Proof. destruct a; reflexivity. Qed.

Lemma ends_not_nil {A} (a b : list A) (c : A) (d : list A) :
  (a ++ b ++ [c]) ++ d <> [].
Proof.
  intros E. apply (f_equal (@length A)) in E.
  rewrite !length_app in E. cbn in E. lia.
Qed.

(** A list of good addresses is formatted, without a line feed, and the
    machine reads the text back: the addresses are in the result after those
    which were waiting. *)
Lemma run_good_list (l : list mail_address) :
  forallb good_address l = true -> l <> [] ->
  exists t, format_addresses l = Ok t /\ t <> [] /\ no_lf t = true
    /\ forall done pos, exists lf,
         run' pos t (waiting BEGIN done) = Ok lf
         /\ mail_list lf = done ++ l /\ mail_group_list lf = [].
Proof.
  induction l as [|a l IH]; intros Hg Hne; [congruence|].
  cbn in Hg. apply andb_prop in Hg. destruct Hg as [Ha Hl].
  cbn [format_addresses]. rewrite format_good_address by exact Ha.
  cbn [bind]. destruct l as [|b l'].
  - cbn [format_addresses bind is_nil]. rewrite !app_nil_r.
    exists (address_prefix a ++ address a ++ [GREATER_THAN_CHAR]).
    split; [reflexivity|].
    split; [rewrite <- (app_nil_r (_ ++ _ ++ [_])); apply ends_not_nil|].
    split; [apply formatted_address_no_lf; exact Ha|].
    intros done pos.
    rewrite app_assoc, run_steps by discriminate.
    rewrite steps_address by exact Ha. cbn [bind run is_nil].
    rewrite step_close, mail_address_eta. cbn [bind].
    eexists. split; [reflexivity|]. split; reflexivity.
  - destruct (IH Hl ltac:(discriminate)) as (t & Ef & Hne' & Hlf & Hrun).
    rewrite Ef. cbn [bind is_nil].
    exists ((address_prefix a ++ address a ++ [GREATER_THAN_CHAR])
            ++ txt ", " ++ t).
    split; [reflexivity|].
    split; [apply ends_not_nil|].
    split.
    { rewrite no_lf_app, formatted_address_no_lf by exact Ha.
      rewrite no_lf_app, Hlf. reflexivity. }
    intros done pos.
    replace ((address_prefix a ++ address a ++ [GREATER_THAN_CHAR])
             ++ txt ", " ++ t)
      with (((address_prefix a ++ address a)
             ++ GREATER_THAN_CHAR :: txt ", ") ++ t)
      by (rewrite <- !app_assoc; reflexivity).
    rewrite run_steps by exact Hne'.
    rewrite steps_app, steps_address by exact Ha. cbn [bind steps].
    rewrite step_close, mail_address_eta. cbn [bind].
    set (p := length (address_prefix a ++ address a) + pos).
    change (step' false (S p) (ascii_of_nat 44)
              (Locals [] [] empty_address (Mail_group [] [])
                      (done ++ [a]) ADDRBREND false false []))
      with (Ok (waiting BEGIN (done ++ [a]))).
    cbn [bind].
    change (step' false (S (S p)) (ascii_of_nat 32)
              (waiting BEGIN (done ++ [a])))
      with (Ok (waiting BEGIN (done ++ [a]))).
    cbn [bind].
    destruct (Hrun (done ++ [a])
                (length ((address_prefix a ++ address a)
                         ++ GREATER_THAN_CHAR :: txt ", ") + pos))
      as (lf & Er & Em & Eg).
    exists lf. split; [exact Er|]. split; [|exact Eg].
    rewrite Em, <- app_assoc. reflexivity.
Qed.

(** A good list of mailboxes is formatted, and read back behind any white
    space. *)
Lemma parse_good_mailboxes (mb : mailboxes) :
  good_mailboxes mb = true ->
  exists t, format_mailbox mb = Ok t /\ no_lf t = true
            /\ forall ws, forallb isspace ws = true ->
                  parse_address_list QTEXT (ws ++ t) = Ok mb.
Proof.
  unfold good_mailboxes. intros Hg. apply andb_prop in Hg.
  destruct Hg as [Hgr Hl]. destruct mb as [l gs]. cbn [addresses groups] in *.
  destruct gs; [|discriminate]. unfold format_mailbox.
  cbn [addresses groups format_groups is_nil].
  destruct l as [|a l].
  - exists []. split; [reflexivity|]. split; [reflexivity|]. intros ws Hws.
    rewrite app_nil_r. unfold parse_address_list, parse_address_list_of.
    rewrite run_spaces by (reflexivity || exact Hws). reflexivity.
  - destruct (run_good_list Hl ltac:(discriminate))
      as (t & Ef & Hne & Hlf & Hrun).
    rewrite Ef. cbn [bind]. rewrite !app_nil_r.
    exists t. split; [reflexivity|]. split; [exact Hlf|]. intros ws Hws.
    unfold parse_address_list, parse_address_list_of.
    rewrite run_steps by exact Hne.
    rewrite steps_spaces by (reflexivity || exact Hws). cbn [bind].
    destruct (Hrun [] (length ws + 0)) as (lf & Er & Em & Eg).
    change (initial mail_address) with (waiting BEGIN []).
    rewrite Er. cbn [bind]. rewrite Em, Eg. reflexivity.
Qed.

(** A good address is formatted, and read back, alone, behind any white
    space. *)
Lemma parse_good_address (a : mail_address) :
  good_address a = true ->
  exists t, format_address (name a) (address a) = Ok t /\ no_lf t = true
            /\ forall ws, forallb isspace ws = true ->
                  parse_address_list QTEXT (ws ++ t) = Ok (Mailboxes [a] []).
Proof.
  intros Ha.
  destruct (@parse_good_mailboxes (Mailboxes [a] [])) as (t & Ef & Hlf & Ep);
    [cbn; rewrite Ha; reflexivity |].
  unfold format_mailbox in Ef. cbn in Ef.
  destruct (format_address (name a) (address a)) as [fa|e]; [|discriminate].
  cbn in Ef. rewrite !app_nil_r in Ef. injection Ef as <-.
  exists fa. auto.
Qed.

End Machine_runs.

Lemma digit_not_blank (c : ascii) : isdigit c = true -> is_blank c = false.
Proof.
  destruct c as [[] [] [] [] [] [] [] []]; vm_compute; congruence.
Qed.

Lemma alpha_not_blank (c : ascii) : isalpha c = true -> is_blank c = false.
Proof.
  destruct c as [[] [] [] [] [] [] [] []]; vm_compute; congruence.
Qed.

Lemma sign_not_blank (c : ascii) : is_sign c = true -> is_blank c = false.
Proof.
  destruct c as [[] [] [] [] [] [] [] []]; vm_compute; congruence.
Qed.

Lemma digit_not_space (c : ascii) :
  isdigit c = true -> Ascii.eqb c " "%char = false.
Proof.
  destruct c as [[] [] [] [] [] [] [] []]; vm_compute; congruence.
Qed.

(** *** The expression of the date on a text of the layout *)

Lemma skipn_length_app {A} (a s : list A) : skipn (length a) (a ++ s) = s.
Proof. induction a as [|x a IH]; [reflexivity | exact IH]. Qed.

Lemma greedy_exact (cls : ascii -> bool) (a s : text) :
  forallb cls a = true -> greedy cls (Some (length a)) (a ++ s) = length a.
Proof.
  induction a as [|x a IH]; intros H.
  - destruct s; reflexivity.
  - cbn in H. apply andb_prop in H. destruct H as [Hx Ha].
    cbn [app length greedy]. rewrite Hx, IH by exact Ha. reflexivity.
Qed.

Lemma greedy_stop (cls : ascii -> bool) (a s : text) :
  forallb cls a = true ->
  match s with [] => True | x :: _ => cls x = false end ->
  greedy cls None (a ++ s) = length a.
Proof.
  intros H Hs. induction a as [|x a IH].
  - destruct s as [|y s]; [reflexivity|]. cbn. rewrite Hs. reflexivity.
  - cbn in H. apply andb_prop in H. destruct H as [Hx Ha].
    cbn [app length greedy]. rewrite Hx, IH by exact Ha. reflexivity.
Qed.

Lemma backtrack_first (try : nat -> option captures) (lo n : nat)
    (c : captures) :
  lo <= n -> try n = Some c -> backtrack try lo n = Some c.
Proof.
  intros Hl Ht. destruct n as [|n]; cbn [backtrack].
  - destruct (Nat.ltb_spec 0 lo); [lia|]. rewrite Ht. reflexivity.
  - destruct (Nat.ltb_spec (S n) lo); [lia|]. rewrite Ht. reflexivity.
Qed.

(** A repetition with an upper bound takes a run of that length. *)
Lemma rmatch_exact (cls : ascii -> bool) (lo : nat) (a : text) (r' : regex)
    (pos : nat) (s : text) (caps c : captures) :
  forallb cls a = true -> lo <= length a ->
  rmatch r' (pos + length a) s caps = Some c ->
  rmatch (Rep cls lo (Some (length a)) :: r') pos (a ++ s) caps = Some c.
Proof.
  intros Ha Hl Hr. cbn [rmatch]. rewrite greedy_exact by exact Ha.
  apply backtrack_first; [exact Hl|]. rewrite skipn_length_app. exact Hr.
Qed.

(** A repetition without an upper bound takes a run which ends the text or
    is followed by a character outside the class. *)
Lemma rmatch_stop (cls : ascii -> bool) (lo : nat) (a : text) (r' : regex)
    (pos : nat) (s : text) (caps c : captures) :
  forallb cls a = true -> lo <= length a ->
  match s with [] => True | x :: _ => cls x = false end ->
  rmatch r' (pos + length a) s caps = Some c ->
  rmatch (Rep cls lo None :: r') pos (a ++ s) caps = Some c.
Proof.
  intros Ha Hl Hs Hr. cbn [rmatch]. rewrite greedy_stop by assumption.
  apply backtrack_first; [exact Hl|]. rewrite skipn_length_app. exact Hr.
Qed.

Lemma rmatch_open (i : nat) (r' : regex) (pos : nat) (s : text)
    (caps : captures) :
  rmatch (Open i :: r') pos s caps
  = rmatch r' pos s (Captures ((i, pos) :: starts caps) (ends caps)).
Proof. reflexivity. Qed.

Lemma rmatch_close (i : nat) (r' : regex) (pos : nat) (s : text)
    (caps : captures) :
  rmatch (Close i :: r') pos s caps
  = rmatch r' pos s (Captures (starts caps) ((i, pos) :: ends caps)).
Proof. reflexivity. Qed.

(** The class of every character of a short text, from the hypotheses. *)
Ltac class_true :=
  cbn [forallb];
  repeat match goal with
         | H : ?t = true |- context [?t] => rewrite H
         end;
  reflexivity.

(** The next item of the expression takes the characters [a]. *)
Ltac takes a :=
  first
    [ apply (@rmatch_exact _ _ a); [class_true | cbn; lia | ]
    | apply (@rmatch_stop _ _ a);
      [class_true | cbn; lia | first [exact I | assumption | reflexivity] | ] ].

Lemma date_regex_match
    (w1 w2 w3 d1 d2 m1 m2 m3 y1 y2 y3 y4 h1 h2 mi1 mi2 s1 s2 sg z1 z2 z3 z4
       : ascii) :
  forallb isalpha [w1; w2; w3; m1; m2; m3] = true ->
  forallb isdigit [d1; d2; y1; y2; y3; y4; h1; h2; mi1; mi2; s1; s2;
                   z1; z2; z3; z4] = true ->
  is_sign sg = true ->
  let s := [w1; w2; w3; ","; " "; d1; d2; " "; m1; m2; m3; " "; y1; y2; y3;
            y4; " "; h1; h2; ":"; mi1; mi2; ":"; s1; s2; " "; sg; z1; z2;
            z3; z4]%char in
  regex_match s date_regex = Some rfc_captures
  /\ dttz s rfc_captures
     = [w1; w2; w3; ","; " "; d1; d2; " "; m1; m2; m3; " "; y1; y2; y3;
        y4; " "; h1; h2; ":"; mi1; mi2; ":"; s1; s2; " "; sg; z1; z2; ":";
        z3; z4]%char.
Proof.
  intros Ha Hd Hs s. subst s.
  cbn [forallb] in Ha, Hd.
  repeat (apply andb_prop in Ha; destruct Ha as [? Ha]).
  repeat (apply andb_prop in Hd; destruct Hd as [? Hd]).
  clear Ha Hd.
  assert (Bd := digit_not_blank d1 ltac:(assumption)).
  assert (Bm := alpha_not_blank m1 ltac:(assumption)).
  assert (By := digit_not_blank y1 ltac:(assumption)).
  assert (Bh := digit_not_blank h1 ltac:(assumption)).
  assert (Bs := sign_not_blank sg ltac:(assumption)).
  assert (Sd := digit_not_space d2 ltac:(assumption)).
  split.
  - unfold regex_match, date_regex, exactly, one, plus, star.
    rewrite rmatch_open. takes [w1; w2; w3]. takes (@nil ascii).
    takes [","%char]. rewrite rmatch_close. takes [" "%char].
    rewrite rmatch_open. takes [d1; d2]. takes [" "%char].
    takes [m1; m2; m3]. takes [" "%char]. takes [y1; y2; y3; y4].
    rewrite rmatch_close. takes [" "%char].
    rewrite rmatch_open. takes [h1; h2]. takes [":"%char]. takes [mi1; mi2].
    takes [":"%char]. takes [s1; s2]. takes [" "%char].
    rewrite rmatch_open. takes [sg]. rewrite rmatch_close.
    takes [z1; z2; z3; z4]. rewrite rmatch_close. takes (@nil ascii).
    reflexivity.
  - unfold dttz. cbn. rewrite Sd. reflexivity.
Qed.

(** *** The layout of a date *)

Lemma isdigit_digit_char (k : nat) : k < 10 -> isdigit (digit_char k) = true.
Proof. intros H. do 10 (destruct k as [|k]; [reflexivity|]). lia. Qed.

Lemma two_digits_are_digits (n : nat) :
  n < 100 -> forallb isdigit (two_digits n) = true.
Proof.
  intros H. unfold two_digits. cbn [forallb].
  rewrite !isdigit_digit_char; [reflexivity | |].
  - apply Nat.mod_upper_bound. lia.
  - apply Nat.Div0.div_lt_upper_bound. lia.
Qed.

Lemma weekday_name_letters (k : nat) :
  exists a b c, weekday_name k = [a; b; c]
                /\ forallb isalpha [a; b; c] = true.
Proof.
  unfold weekday_name.
  do 7 (destruct k as [|k]; [do 3 eexists; split; reflexivity|]).
  destruct k; do 3 eexists; split; reflexivity.
Qed.

Lemma month_name_letters (m : month_t) :
  exists a b c, month_name m = [a; b; c]
                /\ forallb isalpha [a; b; c] = true.
Proof. destruct m; do 3 eexists; split; reflexivity. Qed.

Lemma zone_sign_char (west : bool) :
  exists sg, zone_sign west = [sg] /\ is_sign sg = true.
Proof. destruct west; eexists; split; reflexivity. Qed.

Lemma date_in_range_bounds (d : date_fields) :
  date_in_range d = true ->
  year d / 100 < 100 /\ year d mod 100 < 100 /\ day d < 100 /\ hours d < 100
  /\ minutes d < 100 /\ seconds d < 100 /\ zone_hours d < 100
  /\ zone_minutes d < 100.
Proof.
  unfold date_in_range. intros H.
  repeat (apply andb_prop in H; destruct H as [H ?]).
  repeat match goal with
         | H : (_ <? _) = true |- _ => apply Nat.ltb_lt in H
         | H : (_ <=? _) = true |- _ => apply Nat.leb_le in H
         end.
  assert (year d / 100 < 100) by (apply Nat.Div0.div_lt_upper_bound; lia).
  assert (year d mod 100 < 100) by (apply Nat.mod_upper_bound; lia).
  repeat split; lia.
Qed.

(** The characters of the two layouts of a date in range. *)
Lemma rfc_layout_chars (d : date_fields) :
  date_in_range d = true ->
  exists w1 w2 w3 d1 d2 m1 m2 m3 y1 y2 y3 y4 h1 h2 mi1 mi2 s1 s2 sg z1 z2
         z3 z4,
    rfc_write d
    = [w1; w2; w3; ","; " "; d1; d2; " "; m1; m2; m3; " "; y1; y2; y3; y4;
       " "; h1; h2; ":"; mi1; mi2; ":"; s1; s2; " "; sg; z1; z2; z3; z4]%char
    /\ rfc_read_form d
       = [w1; w2; w3; ","; " "; d1; d2; " "; m1; m2; m3; " "; y1; y2; y3;
          y4; " "; h1; h2; ":"; mi1; mi2; ":"; s1; s2; " "; sg; z1; z2; ":";
          z3; z4]%char
    /\ forallb isalpha [w1; w2; w3; m1; m2; m3] = true
    /\ forallb isdigit [d1; d2; y1; y2; y3; y4; h1; h2; mi1; mi2; s1; s2;
                        z1; z2; z3; z4] = true
    /\ is_sign sg = true.
Proof.
  intros H.
  destruct (date_in_range_bounds _ H)
    as (Hy1 & Hy2 & Hd & Hh & Hmi & Hs & Hzh & Hzm).
  destruct (weekday_name_letters (day_of_week (year d) (month d) (day d)))
    as (w1 & w2 & w3 & Ew & Hw).
  destruct (month_name_letters (month d)) as (m1 & m2 & m3 & Em & Hm).
  destruct (zone_sign_char (zone_west d)) as (sg & Es & Hsg).
  pose proof (two_digits_are_digits Hy1) as Dy1.
  pose proof (two_digits_are_digits Hy2) as Dy2.
  pose proof (two_digits_are_digits Hd) as Dd.
  pose proof (two_digits_are_digits Hh) as Dh.
  pose proof (two_digits_are_digits Hmi) as Dmi.
  pose proof (two_digits_are_digits Hs) as Ds.
  pose proof (two_digits_are_digits Hzh) as Dzh.
  pose proof (two_digits_are_digits Hzm) as Dzm.
  unfold rfc_write, rfc_read_form, rfc_date_time, four_digits.
  rewrite Ew, Em, Es. unfold two_digits in *.
  cbn [forallb] in *.
  repeat match goal with
         | H : _ && _ = true |- _ =>
             apply andb_prop in H; destruct H as [? ?]
         end.
  do 23 eexists. split; [reflexivity|]. split; [reflexivity|].
  cbn [forallb].
  repeat match goal with
         | H : ?t = true |- context [?t] => rewrite H
         end.
  repeat split.
Qed.

Lemma alpha_no_space (c : ascii) : isalpha c = true -> isspace c = false.
Proof.
  destruct c as [[] [] [] [] [] [] [] []]; vm_compute; congruence.
Qed.

Lemma digit_no_space (c : ascii) : isdigit c = true -> isspace c = false.
Proof.
  destruct c as [[] [] [] [] [] [] [] []]; vm_compute; congruence.
Qed.

Lemma alpha_no_lf (c : ascii) : isalpha c = true -> Ascii.eqb c LF = false.
Proof.
  destruct c as [[] [] [] [] [] [] [] []]; vm_compute; congruence.
Qed.

Lemma digit_no_lf (c : ascii) : isdigit c = true -> Ascii.eqb c LF = false.
Proof.
  destruct c as [[] [] [] [] [] [] [] []]; vm_compute; congruence.
Qed.

Lemma sign_no_lf (c : ascii) : is_sign c = true -> Ascii.eqb c LF = false.
Proof.
  destruct c as [[] [] [] [] [] [] [] []]; vm_compute; congruence.
Qed.

Lemma trim_ends (c e : ascii) (mid : text) :
  isspace c = false -> isspace e = false ->
  trim (c :: mid ++ [e]) = c :: mid ++ [e].
Proof.
  intros Hc He. unfold trim. cbn [trim_left]. rewrite Hc.
  unfold trim_right.
  change (c :: mid ++ [e]) with ((c :: mid) ++ [e]).
  rewrite rev_app_distr.
  change (rev [e] ++ rev (c :: mid)) with (e :: rev (c :: mid)).
  cbn [trim_left]. rewrite He.
  change (rev (e :: rev (c :: mid))) with (rev (rev (c :: mid)) ++ [e]).
  rewrite rev_involutive. reflexivity.
Qed.

(** The written date has no white space at its ends and no line feed. *)
Lemma rfc_write_clean (d : date_fields) :
  date_in_range d = true ->
  trimmed (rfc_write d) = true /\ no_lf (rfc_write d) = true.
Proof.
  intros H.
  destruct (rfc_layout_chars _ H)
    as (w1 & w2 & w3 & d1 & d2 & m1 & m2 & m3 & y1 & y2 & y3 & y4 & h1 & h2
        & mi1 & mi2 & s1 & s2 & sg & z1 & z2 & z3 & z4 & Ew & _ & Ha & Hd
        & Hs).
  rewrite Ew. cbn [forallb] in Ha, Hd.
  repeat (apply andb_prop in Ha; destruct Ha as [? Ha]).
  repeat (apply andb_prop in Hd; destruct Hd as [? Hd]).
  split.
  - unfold trimmed.
    match goal with
    | |- text_eqb (trim (?c :: ?rest)) _ = true =>
        change (c :: rest)
          with (c :: [w2; w3; ","; " "; d1; d2; " "; m1; m2; m3; " "; y1;
                      y2; y3; y4; " "; h1; h2; ":"; mi1; mi2; ":"; s1; s2;
                      " "; sg; z1; z2; z3]%char ++ [z4])
    end.
    rewrite trim_ends; [apply text_eqb_refl | |].
    + apply alpha_no_space; assumption.
    + apply digit_no_space; assumption.
  - unfold no_lf. cbn [forallb].
    repeat match goal with
           | H : isalpha ?c = true |- context [Ascii.eqb ?c LF] =>
               rewrite (alpha_no_lf _ H)
           | H : isdigit ?c = true |- context [Ascii.eqb ?c LF] =>
               rewrite (digit_no_lf _ H)
           | H : is_sign ?c = true |- context [Ascii.eqb ?c LF] =>
               rewrite (sign_no_lf _ H)
           end.
    reflexivity.
Qed.

Section Date_round_trip.
Context {DF : Date_facets}.

(** [parse_date] on a written date: the facet is given the layout with the
    colon in the zone. *)
Lemma parse_date_rfc_write (d : date_fields) (r : local_date_time) :
  date_in_range d = true ->
  facet_read (rfc_read_form d) = Some r ->
  parse_date (rfc_write d) = Ok r.
Proof.
  intros H Hr.
  destruct (rfc_layout_chars _ H)
    as (w1 & w2 & w3 & d1 & d2 & m1 & m2 & m3 & y1 & y2 & y3 & y4 & h1 & h2
        & mi1 & mi2 & s1 & s2 & sg & z1 & z2 & z3 & z4 & Ew & Er & Ha & Hd
        & Hs).
  destruct (date_regex_match w1 w2 w3 d1 d2 m1 m2 m3 y1 y2 y3 y4 h1 h2 mi1
              mi2 s1 s2 sg z1 z2 z3 z4 Ha Hd Hs) as [Em Et].
  unfold parse_date. rewrite Ew, Em, Et, <- Er, Hr. reflexivity.
Qed.

End Date_round_trip.

(** *** The lines of the header, parsed *)

Section Header_lines.
Context {MC : Mime_collaborator} {DF : Date_facets}.
Variable QTEXT : text.
Hypothesis Hsplit : splits_at_colon MC.
Hypothesis Haccept : mime_accepts MC.

(** The comparisons of two header names of the program, computed. *)
Ltac compare_names :=
  repeat match goal with
         | |- context [iequals ?a ?b] =>
             let v := eval vm_compute in (iequals a b) in
             change (iequals a b) with v
         end;
  cbv iota.

(** [parse_header_line] on a line of message.cpp with the name [hname], up
    to the comparisons of the name. *)
Ltac open_line hname v msg :=
  let b' := fresh "b'" in
  let Eb := fresh "Eb" in
  let ws := fresh "ws" in
  let Hws := fresh "Hws" in
  let Es := fresh "Es" in
  let Hs := fresh "Hs" in
  let Ha := fresh "Ha" in
  pose proof Hsplit as Hs; unfold splits_at_colon in Hs;
  pose proof Haccept as Ha; unfold mime_accepts in Ha;
  unfold parse_header_line;
  destruct (Ha (hname ++ COLON ++ v) (base msg)) as [b' Eb];
  rewrite Eb; cbn [bind];
  destruct (Hs hname v) as (ws & Hws & Es);
  [ cbn; tauto
  | rewrite Es; cbn [bind]; compare_names ].

Lemma line_from (v : text) (a : mail_address) (msg : message) :
  (forall ws, forallb isspace ws = true ->
     parse_address_list QTEXT (ws ++ v) = Ok (Mailboxes [a] [])) ->
  exists msg',
    parse_header_line QTEXT (FROM_HEADER ++ COLON ++ v) msg = Ok msg'
    /\ _sender msg' = a /\ _recipients msg' = _recipients msg
    /\ _subject msg' = _subject msg /\ _date_time msg' = _date_time msg.
Proof.
  intros Hp. open_line FROM_HEADER v msg.
  rewrite Hp by exact Hws. cbn [bind addresses].
  eexists. split; [reflexivity|]. repeat split.
Qed.

Lemma line_to (v : text) (mb : mailboxes) (msg : message) :
  (forall ws, forallb isspace ws = true ->
     parse_address_list QTEXT (ws ++ v) = Ok mb) ->
  exists msg',
    parse_header_line QTEXT (TO_HEADER ++ COLON ++ v) msg = Ok msg'
    /\ _sender msg' = _sender msg /\ _recipients msg' = mb
    /\ _subject msg' = _subject msg /\ _date_time msg' = _date_time msg.
Proof.
  intros Hp. open_line TO_HEADER v msg.
  rewrite Hp by exact Hws. cbn [bind].
  eexists. split; [reflexivity|]. repeat split.
Qed.

Lemma line_subject (s : text) (msg : message) :
  trimmed s = true ->
  exists msg',
    parse_header_line QTEXT (SUBJECT_HEADER ++ COLON ++ s) msg = Ok msg'
    /\ _sender msg' = _sender msg /\ _recipients msg' = _recipients msg
    /\ _subject msg' = s /\ _date_time msg' = _date_time msg.
Proof.
  intros Ht. open_line SUBJECT_HEADER s msg.
  rewrite trim_value by assumption.
  eexists. split; [reflexivity|]. repeat split.
Qed.

Lemma line_date (d : date_fields) (r : local_date_time) (msg : message) :
  date_in_range d = true ->
  facet_read (rfc_read_form d) = Some r ->
  exists msg',
    parse_header_line QTEXT (DATE_HEADER ++ COLON ++ rfc_write d) msg
    = Ok msg'
    /\ _sender msg' = _sender msg /\ _recipients msg' = _recipients msg
    /\ _subject msg' = _subject msg /\ _date_time msg' = r.
Proof.
  intros Hd Hr. open_line DATE_HEADER (rfc_write d) msg.
  rewrite trim_value by (exact Hws || apply rfc_write_clean; exact Hd).
  rewrite (parse_date_rfc_write _ Hd Hr). cbn [bind].
  eexists. split; [reflexivity|]. repeat split.
Qed.

Lemma harmless_reply (v : text) (a : mail_address) :
  (forall ws, forallb isspace ws = true ->
     parse_address_list QTEXT (ws ++ v) = Ok (Mailboxes [a] [])) ->
  harmless QTEXT (REPLY_TO_HEADER ++ COLON ++ v).
Proof.
  intros Hp msg. open_line REPLY_TO_HEADER v msg.
  rewrite Hp by exact Hws. cbn [bind addresses].
  eexists. split; [reflexivity|]. repeat split.
Qed.

Lemma harmless_cc (v : text) (mb : mailboxes) :
  (forall ws, forallb isspace ws = true ->
     parse_address_list QTEXT (ws ++ v) = Ok mb) ->
  harmless QTEXT (CC_HEADER ++ COLON ++ v).
Proof.
  intros Hp msg. open_line CC_HEADER v msg.
  rewrite Hp by exact Hws. cbn [bind].
  eexists. split; [reflexivity|]. repeat split.
Qed.

Lemma harmless_bcc (v : text) : harmless QTEXT (BCC_HEADER ++ COLON ++ v).
Proof.
  intros msg. open_line BCC_HEADER v msg.
  eexists. split; [reflexivity|]. repeat split.
Qed.

Lemma harmless_version (v : text) :
  harmless QTEXT (MIME_VERSION_HEADER ++ COLON ++ v).
Proof.
  intros msg. open_line MIME_VERSION_HEADER v msg.
  eexists. split; [reflexivity|]. repeat split.
Qed.

Lemma harmless_foreign (l : text) : foreign_line MC l -> harmless QTEXT l.
Proof.
  intros (_ & _ & n & v & En & Hn) msg. unfold parse_header_line.
  pose proof Haccept as Ha. unfold mime_accepts in Ha.
  destruct (Ha l (base msg)) as [b' Eb]. rewrite Eb, En. cbn [bind].
  unfold parsed_header in Hn. cbn [existsb] in Hn.
  repeat (apply orb_false_elim in Hn; destruct Hn as [? Hn]).
  repeat match goal with
         | H : iequals n _ = false |- _ => rewrite H; clear H
         end.
  eexists. split; [reflexivity|]. repeat split.
Qed.

Lemma parse_header_lines_app (a b : list text) (msg : message) :
  parse_header_lines QTEXT (a ++ b) msg
  = (msg' <- parse_header_lines QTEXT a msg ;;
     parse_header_lines QTEXT b msg').
Proof.
  revert msg. induction a as [|l a IH]; intros msg; [reflexivity|].
  cbn [app parse_header_lines].
  destruct (parse_header_line QTEXT l msg); cbn [bind]; [apply IH|reflexivity].
Qed.

(** Harmless lines are parsed without a change of the four fields. *)
Lemma parse_harmless_lines (lines : list text) (msg : message) :
  Forall (harmless QTEXT) lines ->
  exists msg', parse_header_lines QTEXT lines msg = Ok msg' /\ keeps msg msg'.
Proof.
  intros H. revert msg. induction H as [|l lines Hl _ IH]; intros msg.
  - exists msg. split; [reflexivity|]. repeat split.
  - destruct (Hl msg) as (m1 & E1 & K1). destruct (IH m1) as (m2 & E2 & K2).
    exists m2. cbn [parse_header_lines]. rewrite E1. cbn [bind].
    split; [exact E2|]. unfold keeps in *.
    destruct K1 as (? & ? & ? & ?), K2 as (? & ? & ? & ?).
    repeat split; congruence.
Qed.

End Header_lines.

(** *** The header block of a message *)

Lemma header_line_block (n v : text) :
  header_line n v = block [n ++ COLON ++ v].
Proof.
  unfold header_line, block. cbn [map concat].
  rewrite app_nil_r, <- !app_assoc. reflexivity.
Qed.

Lemma block_nil : block [] = [].
Proof. reflexivity. Qed.

Lemma plain_header_line (n v : text) :
  n <> [] -> no_lf n = true -> no_lf v = true ->
  plain_line (n ++ COLON ++ v).
Proof.
  intros Hn Hl Hv. split.
  - destruct n; [congruence | discriminate].
  - rewrite !no_lf_app, Hl, Hv. reflexivity.
Qed.

Section Header_block.
Context {MC : Mime_collaborator} {DF : Date_facets}.
Variable QTEXT : text.
Hypothesis Hsplit : splits_at_colon MC.
Hypothesis Haccept : mime_accepts MC.

Lemma from_block (msg : message) :
  good_address (_sender msg) = true ->
  exists v, from_lines msg = Ok (block [FROM_HEADER ++ COLON ++ v])
            /\ no_lf v = true
            /\ forall ws, forallb isspace ws = true ->
                 parse_address_list QTEXT (ws ++ v)
                 = Ok (Mailboxes [_sender msg] []).
Proof.
  intros H. destruct (parse_good_address QTEXT _ H) as (v & Ef & Hlf & Hp).
  exists v. unfold from_lines, sender_to_string. rewrite Ef. cbn [bind].
  rewrite header_line_block. auto.
Qed.

Lemma to_block (msg : message) :
  good_mailboxes (_recipients msg) = true ->
  exists v, to_lines msg = Ok (block [TO_HEADER ++ COLON ++ v])
            /\ no_lf v = true
            /\ forall ws, forallb isspace ws = true ->
                 parse_address_list QTEXT (ws ++ v) = Ok (_recipients msg).
Proof.
  intros H. destruct (parse_good_mailboxes QTEXT _ H) as (v & Ef & Hlf & Hp).
  exists v. unfold to_lines, recipients_to_string. rewrite Ef. cbn [bind].
  rewrite header_line_block. auto.
Qed.

Lemma reply_block (msg : message) :
  is_nil (name (_reply_address msg)) || good_address (_reply_address msg)
  = true ->
  exists lines, reply_to_lines msg = Ok (block lines)
                /\ Forall (harmless QTEXT) lines /\ Forall plain_line lines.
Proof.
  intros H. unfold reply_to_lines.
  destruct (is_nil (name (_reply_address msg))).
  - exists []. auto.
  - cbn [orb] in H.
    destruct (parse_good_address QTEXT _ H) as (v & Ef & Hlf & Hp).
    exists [REPLY_TO_HEADER ++ COLON ++ v].
    unfold reply_address_to_string. rewrite Ef. cbn [bind].
    rewrite header_line_block. split; [reflexivity|]. split.
    + constructor; [|constructor].
      apply harmless_reply with (a := _reply_address msg); assumption.
    + constructor; [|constructor].
      apply plain_header_line; [discriminate | reflexivity | exact Hlf].
Qed.

Lemma cc_block (msg : message) :
  good_mailboxes (_cc_recipients msg) = true ->
  exists lines, cc_lines msg = Ok (block lines)
                /\ Forall (harmless QTEXT) lines /\ Forall plain_line lines.
Proof.
  intros H. unfold cc_lines.
  destruct (mailboxes_empty (_cc_recipients msg)).
  - exists []. auto.
  - destruct (parse_good_mailboxes QTEXT _ H) as (v & Ef & Hlf & Hp).
    exists [CC_HEADER ++ COLON ++ v].
    unfold cc_recipients_to_string. rewrite Ef. cbn [bind].
    rewrite header_line_block. split; [reflexivity|]. split.
    + constructor; [|constructor].
      apply harmless_cc with (mb := _cc_recipients msg); assumption.
    + constructor; [|constructor].
      apply plain_header_line; [discriminate | reflexivity | exact Hlf].
Qed.

Lemma bcc_block (msg : message) :
  good_mailboxes (_bcc_recipients msg) = true ->
  exists lines, bcc_lines msg = Ok (block lines)
                /\ Forall (harmless QTEXT) lines /\ Forall plain_line lines.
Proof.
  intros H. unfold bcc_lines.
  destruct (mailboxes_empty (_bcc_recipients msg)).
  - exists []. auto.
  - destruct (parse_good_mailboxes QTEXT _ H) as (v & Ef & Hlf & Hp).
    exists [BCC_HEADER ++ COLON ++ v].
    unfold bcc_recipients_to_string. rewrite Ef. cbn [bind].
    rewrite header_line_block. split; [reflexivity|]. split.
    + constructor; [|constructor]. apply harmless_bcc; assumption.
    + constructor; [|constructor].
      apply plain_header_line; [discriminate | reflexivity | exact Hlf].
Qed.

Lemma version_block (msg : message) :
  is_nil (_parts (base msg)) || no_lf (_version (base msg)) = true ->
  exists lines, mime_version_lines msg = block lines
                /\ Forall (harmless QTEXT) lines /\ Forall plain_line lines.
Proof.
  intros H. unfold mime_version_lines.
  destruct (is_nil (_parts (base msg))).
  - exists []. auto.
  - cbn [orb] in H. exists [MIME_VERSION_HEADER ++ COLON ++ _version (base msg)].
    rewrite header_line_block. split; [reflexivity|]. split.
    + constructor; [|constructor]. apply harmless_version; assumption.
    + constructor; [|constructor].
      apply plain_header_line; [discriminate | reflexivity | exact H].
Qed.

Lemma mime_block (h : text) :
  mime_lines_foreign MC h ->
  exists lines, h = block lines
                /\ Forall (harmless QTEXT) lines /\ Forall plain_line lines.
Proof.
  intros (lines & Eh & Hf). exists lines. split; [exact Eh|].
  split; (eapply Forall_impl; [|exact Hf]); intros l Hl.
  - apply harmless_foreign; assumption.
  - destruct Hl as (Hne & Hlf & _). split; assumption.
Qed.

End Header_block.

(** *** The round trip *)

Lemma block_one (l : text) : block [l] = l ++ CRLF.
Proof. unfold block. cbn [map concat]. apply app_nil_r. Qed.

Section Round_trip.
Context {MC : Mime_collaborator} {DF : Date_facets}.

Lemma format_parts_appends (boundary : text) (dot_escape : bool)
    (ps : list mime) (message_str s : text) :
  format_parts boundary dot_escape ps message_str = Returned s ->
  exists r, s = message_str ++ r.
Proof.
  revert message_str. induction ps as [|p ps IH]; intros message_str H.
  - injection H as <-. exists []. rewrite app_nil_r. reflexivity.
  - cbn [format_parts] in H.
    destruct (mime_format p dot_escape) as [p_str|e]; [|discriminate].
    destruct (IH _ H) as [r ->]. eexists. rewrite <- app_assoc. reflexivity.
Qed.

(** The text which [format] returns starts with the header block. *)
Lemma format_returns_header (msg : message) (dot_escape : bool)
    (message_str out : text) :
  format msg dot_escape message_str = Returned out ->
  exists header rest,
    format_header msg = Ok header /\ out = message_str ++ header ++ rest.
Proof.
  unfold format. intros H.
  destruct (format_header msg) as [header|e]; [|discriminate].
  destruct (format_content (base msg) dot_escape) as [content|e];
    [|discriminate].
  exists header. destruct (is_nil (_parts (base msg))).
  - injection H as <-. exists content. split; [reflexivity|].
    rewrite <- app_assoc. reflexivity.
  - destruct (format_parts _ _ _ _) as [s|e s] eqn:Ep; [|discriminate].
    injection H as <-. apply format_parts_appends in Ep.
    destruct Ep as [r ->].
    destruct (is_nil content); eexists; (split; [reflexivity|]);
      rewrite <- !app_assoc; reflexivity.
Qed.

Variable QTEXT : text.

(** X1. Round trip of the header, under all of these conditions. The
    [mime] entity cuts a line with a header name of message.cpp after the
    name, keeping the value but for white space in front ([splits_at_colon]);
    it accepts every header line ([mime_accepts]); the lines of its own
    headers are not empty, have no line feed and have names other than From,
    Reply-To, To, Cc, Subject, Date and MIME-Version. The date of the
    message is set and in range; the output facet writes it in the layout
    [rfc_write] and the input facet reads the layout [rfc_read_form] as the
    date without its sub-second part. The message is [round_trippable]: the
    sender is a good address (an address of the characters of an address
    with a monkey, and a name of letters, digits and inner blanks); the
    reply address has no name or is good; the recipients, the Cc and the Bcc
    recipients are lists of good addresses without groups; the subject has
    no white space at its ends and no line feed; with parts, the version has
    no line feed. And [format] returns. Then the header lines of the
    formatted message, parsed one after the other into any message, are
    accepted and give the same sender, recipients and subject, and the date
    without its sub-second part. *)
Theorem header_round_trip (msg msg0 : message) (d : date_fields)
    (dot_escape : bool) (out : text) :
  splits_at_colon MC -> mime_accepts MC ->
  (forall h, mime_format_header (base msg) = Ok h -> mime_lines_foreign MC h) ->
  _date_time msg = date_time_at d -> date_in_range d = true ->
  facet_write (date_time_at d) = Some (rfc_write d) ->
  facet_read (rfc_read_form d) = Some (date_time_at (to_the_second d)) ->
  round_trippable msg = true ->
  format msg dot_escape [] = Returned out ->
  exists msg',
    parse_header_lines QTEXT (header_lines out) msg0 = Ok msg'
    /\ _sender msg' = _sender msg
    /\ _recipients msg' = _recipients msg
    /\ _subject msg' = _subject msg
    /\ _date_time msg' = date_time_at (to_the_second d).
Proof.
  intros Hsplit Haccept Hmime Hdate Hrange Hwrite Hread Hrt Hfmt.
  unfold round_trippable in Hrt.
  do 7 (apply andb_prop in Hrt; destruct Hrt as [Hrt ?]).
  rename Hrt into Hsender.
  match goal with H : trimmed (_subject msg) = true |- _ => rename H into Hst end.
  match goal with H : no_lf (_subject msg) = true |- _ => rename H into Hsl end.
  destruct (format_returns_header _ _ _ Hfmt) as (header & rest & Hh & ->).
  cbn [app].
  (* the pieces of the header block *)
  destruct (from_block QTEXT msg Hsender) as (vf & Ef & Lf & Pf).
  destruct (to_block QTEXT msg ltac:(assumption)) as (vt & Et & Lt & Pt).
  destruct (reply_block QTEXT Hsplit Haccept msg ltac:(assumption))
    as (Lr & Er & Hr & Plr).
  destruct (cc_block QTEXT Hsplit Haccept msg ltac:(assumption))
    as (Lc & Ec & Hc & Plc).
  destruct (bcc_block QTEXT Hsplit Haccept msg ltac:(assumption))
    as (Lb & Eb & Hb & Plb).
  destruct (version_block QTEXT Hsplit Haccept msg ltac:(assumption))
    as (Lv & Ev & Hv & Plv).
  unfold format_header in Hh.
  destruct (negb (is_nil (_boundary (base msg))) && _); [discriminate|].
  rewrite Ef, Er, Et, Ec, Eb in Hh. cbv beta iota delta [bind] in Hh.
  unfold date_lines in Hh. rewrite Hdate in Hh.
  change (is_not_a_date_time (date_time_at d)) with false in Hh.
  cbv beta iota in Hh.
  rewrite Hwrite in Hh. cbv beta iota delta [bind] in Hh.
  destruct (mime_format_header (base msg)) as [hm|e] eqn:Em; [|discriminate].
  cbv beta iota delta [bind] in Hh.
  apply (f_equal (fun r => match r with Ok x => x | Err _ => [] end)) in Hh.
  cbv beta iota in Hh. subst header.
  destruct (mime_block QTEXT Haccept (Hmime hm eq_refl)) as (Lm & -> & Hm & Plm).
  rewrite Ev, header_line_block.
  unfold subject_lines.
  set (ls := SUBJECT_HEADER ++ COLON ++ _subject msg).
  set (lf := FROM_HEADER ++ COLON ++ vf).
  set (lt := TO_HEADER ++ COLON ++ vt).
  set (ld := DATE_HEADER ++ COLON ++ rfc_write d).
  replace ((block [lf] ++ block Lr ++ block [lt] ++ block Lc ++ block Lb
            ++ block [ld] ++ block Lv ++ block Lm
            ++ SUBJECT_HEADER ++ COLON ++ _subject msg ++ CRLF ++ CRLF)
           ++ rest)
    with (block ([lf] ++ Lr ++ [lt] ++ (Lc ++ Lb) ++ [ld] ++ (Lv ++ Lm)
                 ++ [ls]) ++ CRLF ++ rest).
  2:{ rewrite !block_app. subst ls lf lt ld. rewrite !block_one.
      rewrite <- !app_assoc. reflexivity. }
  rewrite header_lines_block.
  2:{ destruct (rfc_write_clean _ Hrange) as [_ Hdl].
      repeat (apply Forall_app; split); try assumption;
        (constructor; [|constructor]); apply plain_header_line;
        solve [discriminate | reflexivity | assumption]. }
  (* the lines, parsed in turn *)
  destruct (line_from QTEXT Hsplit Haccept vf msg0 Pf) as (m1 & E1 & S1 & _).
  destruct (@parse_harmless_lines MC DF QTEXT Lr m1 Hr) as (m2 & E2 & K2).
  destruct (line_to QTEXT Hsplit Haccept vt m2 Pt) as (m3 & E3 & S3 & R3 & _).
  destruct (@parse_harmless_lines MC DF QTEXT (Lc ++ Lb) m3
              ltac:(apply Forall_app; split; assumption))
    as (m4 & E4 & K4).
  destruct (line_date QTEXT Hsplit Haccept d m4 Hrange Hread)
    as (m5 & E5 & S5 & R5 & _ & D5).
  destruct (@parse_harmless_lines MC DF QTEXT (Lv ++ Lm) m5
              ltac:(apply Forall_app; split; assumption))
    as (m6 & E6 & K6).
  destruct (line_subject QTEXT Hsplit Haccept (_subject msg) m6 Hst)
    as (m7 & E7 & S7 & R7 & U7 & D7).
  exists m7.
  subst lf lt ld ls.
  rewrite parse_header_lines_app. cbn [parse_header_lines].
  rewrite E1. cbn [bind].
  rewrite parse_header_lines_app, E2. cbn [bind].
  rewrite parse_header_lines_app. cbn [parse_header_lines].
  rewrite E3. cbn [bind].
  rewrite parse_header_lines_app, E4. cbn [bind].
  rewrite parse_header_lines_app. cbn [parse_header_lines].
  rewrite E5. cbn [bind].
  rewrite parse_header_lines_app, E6. cbn [bind].
  cbn [parse_header_lines]. rewrite E7. cbn [bind].
  split; [reflexivity|].
  unfold keeps in *.
  destruct K2 as (? & ? & ? & ?), K4 as (? & ? & ? & ?),
           K6 as (? & ? & ? & ?).
  repeat split; congruence.
Qed.

End Round_trip.

(** The reference [mime] entity and the reference facets are as the round
    trip asks. *)
Lemma plain_mime_splits : splits_at_colon plain_mime.
Proof.
  intros hname v Hin. exists [SPACE_CHAR]. split; [reflexivity|].
  cbn in Hin.
  repeat (destruct Hin as [<- | Hin]; [reflexivity|]).
  contradiction.
Qed.

Lemma plain_mime_accepts : mime_accepts plain_mime.
Proof. intros line b. exists b. reflexivity. Qed.

Lemma plain_mime_lines (b : mime) (h : text) :
  @mime_format_header plain_mime b = Ok h -> mime_lines_foreign plain_mime h.
Proof.
  intros H. injection H as <-. exists []. split; [reflexivity | constructor].
Qed.

(** The conditions of the round trip are needed. A subject set with a space
    in front comes back without it; a message whose only recipient is a
    group is formatted with a comma in front of the group, which the parser
    rejects; a message whose sender was not set is formatted with an empty
    From line, which the parser rejects as a bad sender. *)
Lemma header_round_trip_fails :
  (format padded_subject_message false [] = Returned padded_subject_output
   /\ parse_header_lines [] (header_lines padded_subject_output) blank_message
      = Ok padded_subject_parsed
   /\ _subject padded_subject_message = txt " Hello"
   /\ _subject padded_subject_parsed = txt "Hello")
  /\ (format group_only_message false [] = Returned group_only_output
      /\ parse_header_lines [] (header_lines group_only_output) blank_message
         = Err Bad_address_or_group)
  /\ (format blank_message false [] = Returned blank_output
      /\ parse_header_lines [] (header_lines blank_output) blank_message
         = Err Bad_sender).
Proof.
  repeat split; vm_compute; reflexivity.
Qed.

Lemma header_round_trip_witness :
  exists msg',
    parse_header_lines [] (header_lines sample_output) blank_message = Ok msg'
    /\ _sender msg' = Mail_address (txt "mailio") (txt "adre@sa.com")
    /\ _recipients msg' = _recipients sample_message
    /\ _subject msg' = txt "Hello, World!"
    /\ _date_time msg'
       = date_time_at (Date_fields 2014 Jul 7 10 31 49 0 false 2 0).
Proof.
  apply (@header_round_trip plain_mime rfc_facets [] sample_message
           blank_message (Date_fields 2014 Jul 7 10 31 49 250 false 2 0)
           false sample_output).
  - exact plain_mime_splits.
  - exact plain_mime_accepts.
  - exact (@plain_mime_lines (base sample_message)).
  - reflexivity.
  - vm_compute; reflexivity.
  - vm_compute; reflexivity.
  - vm_compute; reflexivity.
  - vm_compute; reflexivity.
  - vm_compute; reflexivity.
Defined.

(** ** Attaching and reading back *)

Lemma count_attachments_app (ps qs : list mime) (no : nat) :
  count_attachments (ps ++ qs) no
  = count_attachments qs (count_attachments ps no).
Proof.
  revert no. induction ps as [|m ps IH]; intros no; [reflexivity|].
  cbn [app count_attachments]. destruct (is_attachment (_disposition m)); apply IH.
Qed.

(** The loop on [ps ++ qs] stops in [ps] when the attachment of the index is
    there, and goes on in [qs] otherwise. *)
Lemma attachment_loop_app (index : nat) (ps qs : list mime) (no : nat)
    (att_strm att_name : text) :
  attachment_loop index (ps ++ qs) no att_strm att_name
  = if (no <? index) && (index <=? count_attachments ps no)
    then attachment_loop index ps no att_strm att_name
    else if index <=? no
         then attachment_loop index (ps ++ qs) no att_strm att_name
         else attachment_loop index qs (count_attachments ps no)
                att_strm att_name.
Proof.
  revert no. induction ps as [|m ps IH]; intros no.
  - cbn [app count_attachments attachment_loop].
    destruct (Nat.ltb_spec no index); destruct (Nat.leb_spec index no);
      cbn [andb]; try reflexivity; try lia.
  - destruct (Nat.ltb_spec no index) as [Hlt|Hge]; cbn [andb].
    2:{ destruct (Nat.leb_spec index no); [reflexivity | lia]. }
    destruct (Nat.leb_spec index no); [lia|].
    cbn [app count_attachments attachment_loop].
    destruct (is_attachment (_disposition m)) eqn:Ha.
    + destruct (Nat.eqb_spec (S no) index) as [E|E].
      * pose proof (count_attachments_filter ps (S no)).
        destruct (Nat.leb_spec index (count_attachments ps (S no)));
          [reflexivity | lia].
      * rewrite IH.
        destruct (Nat.ltb_spec (S no) index); [|lia]. cbn [andb].
        destruct (Nat.leb_spec index (count_attachments ps (S no)));
          [reflexivity|].
        destruct (Nat.leb_spec index (S no)); [lia | reflexivity].
    + rewrite IH. destruct (Nat.ltb_spec no index); [|lia]. cbn [andb].
      destruct (Nat.leb_spec index (count_attachments ps no)); [reflexivity|].
      destruct (Nat.leb_spec index no); [lia | reflexivity].
Qed.

(** X2. After [attach], the message has one attachment more; the new one is
    the last: [attachment] at the new count gives the attached bytes and the
    attached name, and at every index up to the old count it gives what it
    gave before. *)
Theorem attach_then_attachment (fresh content att_name : text)
    (ty : media_type_t) (sub : text) (msg : message)
    (att_strm name_out : text) :
  let msg' := attach fresh content att_name ty sub msg in
  attachments_size msg' = S (attachments_size msg)
  /\ attachment (attachments_size msg') msg' att_strm name_out
     = Returned (att_strm ++ content, att_name)
  /\ forall k, k <= attachments_size msg ->
       attachment k msg' att_strm name_out
       = attachment k msg att_strm name_out.
Proof.
  intros msg'.
  assert (Ep : _parts (base msg')
               = _parts (base msg)
                 ++ [attachment_part att_name ty sub content]).
  { subst msg'. unfold attach. destruct msg as [b s r t c bc su d].
    destruct b as [bd v ct en di nm co ps]. destruct bd; reflexivity. }
  assert (Es : attachments_size msg' = S (attachments_size msg)).
  { unfold attachments_size. rewrite Ep, count_attachments_app. reflexivity. }
  pose proof (count_attachments_bound (_parts (base msg)) 0) as Hb.
  split; [exact Es|]. split.
  - rewrite Es. unfold attachment. cbn [Nat.eqb].
    rewrite Ep, attachment_loop_app. unfold attachments_size.
    destruct (Nat.leb_spec (S (count_attachments (_parts (base msg)) 0))
                (count_attachments (_parts (base msg)) 0)); [lia|].
    rewrite andb_false_r. cbn [Nat.leb attachment_loop attachment_part
                                 _disposition is_attachment _content _name].
    rewrite Nat.eqb_refl. rewrite length_app. cbn [length].
    destruct (Nat.ltb_spec (length (_parts (base msg)) + 1)
                (S (count_attachments (_parts (base msg)) 0))); [lia|].
    reflexivity.
  - intros k Hk. unfold attachment.
    destruct (Nat.eqb_spec k 0) as [E|E]; [reflexivity|].
    rewrite Ep, attachment_loop_app. unfold attachments_size in Hk.
    destruct (Nat.ltb_spec 0 k); [|lia].
    destruct (Nat.leb_spec k (count_attachments (_parts (base msg)) 0)); [|lia].
    cbn [andb].
    destruct (@attachment_loop_hit k (_parts (base msg)) 0 att_strm name_out)
      as (p & _ & El); [lia | assumption |].
    rewrite El. rewrite length_app. cbn [length].
    destruct (Nat.ltb_spec (length (_parts (base msg)) + 1) k); [lia|].
    destruct (Nat.ltb_spec (length (_parts (base msg))) k); [lia|].
    reflexivity.
Qed.

(** ** Formatting appends *)

Section Format_appends.
Context {MC : Mime_collaborator} {DF : Date_facets}.

Lemma format_parts_prepend (boundary : text) (dot_escape : bool)
    (ps : list mime) (message_str s : text) :
  format_parts boundary dot_escape ps (message_str ++ s)
  = prepend message_str (format_parts boundary dot_escape ps s).
Proof.
  revert s. induction ps as [|p ps IH]; intros s; [reflexivity|].
  cbn [format_parts]. destruct (mime_format p dot_escape) as [p_str|e];
    [|reflexivity].
  rewrite <- app_assoc. apply IH.
Qed.

(** X3. [format] only appends to the output string: what it does with a
    string [message_str] is what it does with the empty string, after
    [message_str]; so it is when it throws, where the output string keeps
    the text written before the error. An error of the header leaves the
    string as it was. *)
Theorem format_appends (msg : message) (dot_escape : bool)
    (message_str : text) :
  format msg dot_escape message_str
  = prepend message_str (format msg dot_escape [])
  /\ (forall e, format_header msg = Err e ->
        format msg dot_escape message_str = Thrown e message_str)
  /\ (forall header e,
        format_header msg = Ok header ->
        format_content (base msg) dot_escape = Err e ->
        format msg dot_escape message_str
        = Thrown e (message_str ++ header)).
Proof.
  split; [|split].
  - unfold format. destruct (format_header msg) as [header|e].
    2:{ cbn [prepend]. rewrite app_nil_r. reflexivity. }
    destruct (format_content (base msg) dot_escape) as [content|e];
      [|reflexivity].
    destruct (is_nil (_parts (base msg))).
    { cbn [prepend app]. rewrite <- app_assoc. reflexivity. }
    cbn [app].
    destruct (is_nil content); rewrite <- ?app_assoc;
      rewrite format_parts_prepend with (message_str := message_str);
      destruct (format_parts _ _ _ _) as [s|e s]; cbn [prepend];
      rewrite <- ?app_assoc; reflexivity.
  - intros e He. unfold format. rewrite He. reflexivity.
  - intros header e Hh Hc. unfold format. rewrite Hh, Hc. reflexivity.
Qed.

End Format_appends.

(** ** The formatted mailboxes stay on their line *)

Lemma no_crlf_app (a b : text) : no_crlf (a ++ b) = no_crlf a && no_crlf b.
Proof. apply forallb_app. Qed.

Lemma class_no_crlf (cls : ascii -> bool) (s : text) :
  (forall c, cls c = true -> line_char c = true) ->
  forallb cls s = true -> no_crlf s = true.
Proof.
  intros Hc H. unfold no_crlf. rewrite forallb_forall in H |- *.
  intros c Hin. apply Hc, H, Hin.
Qed.

Lemma name_char_line (c : ascii) : name_char c = true -> line_char c = true.
Proof.
  destruct c as [[] [] [] [] [] [] [] []]; vm_compute; congruence.
Qed.

Lemma qtext_char_line (c : ascii) : qtext_char c = true -> line_char c = true.
Proof.
  destruct c as [[] [] [] [] [] [] [] []]; vm_compute; congruence.
Qed.

Lemma dtext_char_line (c : ascii) : dtext_char c = true -> line_char c = true.
Proof.
  destruct c as [[] [] [] [] [] [] [] []]; vm_compute; congruence.
Qed.

Lemma atext_char_line (c : ascii) : atext_char c = true -> line_char c = true.
Proof.
  destruct c as [[] [] [] [] [] [] [] []]; vm_compute; congruence.
Qed.

Lemma Ok_inj {A} (a b : A) : Ok a = Ok b -> a = b.
Proof. intros H. injection H as ->. reflexivity. Qed.

Lemma format_address_no_crlf (n a t : text) :
  format_address n a = Ok t -> no_crlf t = true.
Proof.
  unfold format_address. destruct (is_nil n && is_nil a).
  { intros H. injection H as <-. reflexivity. }
  change (NAME_REGEX n) with (forallb name_char n).
  change (QTEXT_REGEX n) with (forallb qtext_char n).
  change (DTEXT_REGEX a) with (forallb dtext_char a).
  intros H.
  assert (Hn : exists sn, (if forallb name_char n then Ok n
                           else if forallb qtext_char n
                                then Ok (QUOTE_CHAR :: n ++ [QUOTE_CHAR])
                                else Err Bad_address_or_group) = Ok sn
                          /\ no_crlf sn = true).
  { destruct (forallb name_char n) eqn:E1.
    - exists n. split; [reflexivity|].
      exact (class_no_crlf _ _ name_char_line E1).
    - destruct (forallb qtext_char n) eqn:E2; [|discriminate].
      eexists. split; [reflexivity|].
      change (QUOTE_CHAR :: n ++ [QUOTE_CHAR])
        with ([QUOTE_CHAR] ++ n ++ [QUOTE_CHAR]).
      rewrite !no_crlf_app, (class_no_crlf _ _ qtext_char_line E2).
      reflexivity. }
  destruct Hn as (sn & En & Hsn). rewrite En in H. cbn [bind] in H.
  assert (Ha : exists ad, (if is_nil a then Ok []
                           else if forallb dtext_char a
                                then Ok (LESS_THAN_CHAR :: a
                                         ++ [GREATER_THAN_CHAR])
                                else Err Bad_address_or_group) = Ok ad
                          /\ no_crlf ad = true).
  { destruct (is_nil a).
    - exists []. split; reflexivity.
    - destruct (forallb dtext_char a) eqn:E2; [|discriminate].
      eexists. split; [reflexivity|].
      change (LESS_THAN_CHAR :: a ++ [GREATER_THAN_CHAR])
        with ([LESS_THAN_CHAR] ++ a ++ [GREATER_THAN_CHAR]).
      rewrite !no_crlf_app, (class_no_crlf _ _ dtext_char_line E2).
      reflexivity. }
  destruct Ha as (ad & Ea & Had). rewrite Ea in H. cbn [bind] in H.
  apply Ok_inj in H. subst t.
  destruct (is_nil sn); [exact Had|].
  rewrite no_crlf_app, Hsn. destruct (is_nil ad); [reflexivity|].
  rewrite no_crlf_app, Had. reflexivity.
Qed.

Lemma format_addresses_no_crlf (l : list mail_address) (t : text) :
  format_addresses l = Ok t -> no_crlf t = true.
Proof.
  revert t. induction l as [|a l IH]; intros t H.
  - injection H as <-. reflexivity.
  - cbn [format_addresses] in H.
    destruct (format_address (name a) (address a)) as [fa|e] eqn:Ea;
      [|discriminate].
    cbn [bind] in H. destruct (format_addresses l) as [r|e]; [|discriminate].
    cbn [bind] in H. apply Ok_inj in H. subst t.
    rewrite !no_crlf_app, (format_address_no_crlf _ _ Ea), (IH r eq_refl).
    destruct (is_nil l); reflexivity.
Qed.

Lemma format_groups_no_crlf (l : list mail_group) (t : text) :
  format_groups l = Ok t -> no_crlf t = true.
Proof.
  revert t. induction l as [|g l IH]; intros t H.
  - injection H as <-. reflexivity.
  - cbn [format_groups] in H.
    change (ATEXT_REGEX (group_name g))
      with (forallb atext_char (group_name g)) in H.
    destruct (forallb atext_char (group_name g)) eqn:Eg; [|discriminate].
    destruct (format_addresses (members g)) as [ms|e] eqn:Em; [|discriminate].
    cbn [bind] in H. destruct (format_groups l) as [r|e]; [|discriminate].
    cbn [bind] in H. apply Ok_inj in H. subst t.
    rewrite !no_crlf_app, (class_no_crlf _ _ atext_char_line Eg),
      (format_addresses_no_crlf _ Em), (IH r eq_refl).
    destruct (is_nil l); reflexivity.
Qed.

(** X4. What [format_address] and [format_mailbox] write has no carriage
    return and no line feed, whatever the names and addresses: a text which
    is written passed the character classes, and none of them has these
    characters. A formatted address list cannot end its header line. *)
Theorem formatted_mailboxes_stay_on_the_line :
  (forall n a t, format_address n a = Ok t -> no_crlf t = true)
  /\ (forall mb t, format_mailbox mb = Ok t -> no_crlf t = true).
Proof.
  split; [exact format_address_no_crlf|].
  intros mb t H. unfold format_mailbox in H.
  destruct (format_addresses (addresses mb)) as [a|e] eqn:Ea; [|discriminate].
  cbn [bind] in H.
  destruct (format_groups (groups mb)) as [g|e] eqn:Eg; [|discriminate].
  cbn [bind] in H. apply Ok_inj in H. subst t.
  rewrite !no_crlf_app, (format_addresses_no_crlf _ Ea),
    (format_groups_no_crlf _ Eg).
  destruct (is_nil (groups mb)); reflexivity.
Qed.

(** ** What the header parser leaves alone *)

Section Parser_frame.
Context {MC : Mime_collaborator} {DF : Date_facets}.
Variable QTEXT : text.

Lemma parse_header_line_bcc (line : text) (msg msg' : message) :
  parse_header_line QTEXT line msg = Ok msg' ->
  _bcc_recipients msg' = _bcc_recipients msg.
Proof.
  unfold parse_header_line. intros H.
  destruct (mime_parse_header_line line (base msg)) as [b|e]; [|discriminate].
  cbn [bind] in H.
  destruct (parse_header_name_value line) as [[n v]|e]; [|discriminate].
  cbn [bind] in H.
  repeat match type of H with
         | context [if ?c then _ else _] => destruct c
         end;
    repeat match type of H with
           | context [parse_address_list ?q ?v] =>
               destruct (parse_address_list q v) as [mbx|e];
               [|discriminate]; cbn [bind] in H
           | context [parse_date ?v] =>
               destruct (parse_date v) as [d|e];
               [|discriminate]; cbn [bind] in H
           | context [match addresses ?m with _ => _ end] =>
               destruct (addresses m); try discriminate
           end;
    injection H as <-; reflexivity.
Qed.

(** X5. No header line sets the Bcc recipients: whatever lines are parsed,
    the Bcc recipients of the message are those it had. [format_header]
    writes a Bcc line, [parse_header_line] has no branch for it. *)
Theorem parsing_keeps_bcc (lines : list text) (msg msg' : message) :
  parse_header_lines QTEXT lines msg = Ok msg' ->
  _bcc_recipients msg' = _bcc_recipients msg.
Proof.
  revert msg. induction lines as [|l lines IH]; intros msg H.
  - injection H as <-. reflexivity.
  - cbn [parse_header_lines] in H.
    destruct (parse_header_line QTEXT l msg) as [m1|e] eqn:E1; [|discriminate].
    cbn [bind] in H. rewrite (IH _ H). exact (parse_header_line_bcc _ _ E1).
Qed.

Lemma iequals_same (a b c : text) :
  iequals a b = true -> iequals a c = iequals b c.
Proof.
  unfold iequals. intros H. apply text_eqb_eq in H. rewrite H. reflexivity.
Qed.

(** X6. The name of a header is compared without regard to the case of its
    letters: two lines which the [mime] entity treats alike and cuts into
    names equal up to case and the same value are parsed alike. *)
Theorem header_name_case (line1 line2 n1 n2 v : text) (msg : message) :
  mime_parse_header_line line1 (base msg)
  = mime_parse_header_line line2 (base msg) ->
  parse_header_name_value line1 = Ok (n1, v) ->
  parse_header_name_value line2 = Ok (n2, v) ->
  iequals n1 n2 = true ->
  parse_header_line QTEXT line1 msg = parse_header_line QTEXT line2 msg.
Proof.
  intros Hm H1 H2 Hn. unfold parse_header_line.
  rewrite Hm, H1, H2.
  destruct (mime_parse_header_line line2 (base msg)); [|reflexivity].
  cbn [bind]. rewrite !(iequals_same _ _ _ Hn). reflexivity.
Qed.

(** X7. A From line whose value is white space only, or empty, is refused
    as a bad sender; a Reply-To line of that kind is accepted and leaves the
    reply address, and every other field of the message proper, as it
    was. *)
Theorem sender_and_reply_without_address (line n ws : text) (b : mime)
    (msg : message) :
  mime_parse_header_line line (base msg) = Ok b ->
  parse_header_name_value line = Ok (n, ws) ->
  forallb isspace ws = true ->
  (iequals n FROM_HEADER = true ->
   parse_header_line QTEXT line msg = Err Bad_sender)
  /\ (iequals n FROM_HEADER = false -> iequals n REPLY_TO_HEADER = true ->
      parse_header_line QTEXT line msg = Ok (set_base msg b)).
Proof.
  intros Hm Hv Hws.
  assert (Hp : parse_address_list QTEXT ws = Ok (Mailboxes [] [])).
  { unfold parse_address_list, parse_address_list_of.
    rewrite run_spaces by (reflexivity || exact Hws). reflexivity. }
  unfold parse_header_line. rewrite Hm, Hv. cbn [bind].
  split.
  - intros ->. rewrite Hp. reflexivity.
  - intros -> ->. rewrite Hp. reflexivity.
Qed.

End Parser_frame.

Lemma header_name_case_witness :
  @parse_header_line plain_mime rfc_facets [] (txt "FROM: aa@b.c")
    blank_message
  = @parse_header_line plain_mime rfc_facets [] (txt "from: aa@b.c")
      blank_message.
Proof.
  apply (@header_name_case plain_mime rfc_facets [] (txt "FROM: aa@b.c")
           (txt "from: aa@b.c") (txt "FROM") (txt "from") (txt " aa@b.c")
           blank_message); reflexivity.
Defined.

Lemma parsing_keeps_bcc_witness :
  @parse_header_lines plain_mime rfc_facets [] bcc_then_to_lines blank_message
  = Ok bcc_then_to
  /\ _bcc_recipients bcc_then_to = _bcc_recipients blank_message.
Proof.
  assert (H : @parse_header_lines plain_mime rfc_facets [] bcc_then_to_lines
                blank_message = Ok bcc_then_to) by (vm_compute; reflexivity).
  split; [exact H|].
  exact (@parsing_keeps_bcc plain_mime rfc_facets [] bcc_then_to_lines
           blank_message bcc_then_to H).
Defined.

Lemma sender_and_reply_without_address_witness :
  @parse_header_line plain_mime rfc_facets [] (txt "From: ") blank_message
  = Err Bad_sender
  /\ @parse_header_line plain_mime rfc_facets [] (txt "Reply-To: ")
       blank_message
     = Ok blank_message.
Proof.
  split.
  - apply (@sender_and_reply_without_address plain_mime rfc_facets []
             (txt "From: ") (txt "From") (txt " ") mime_default blank_message);
      reflexivity.
  - apply (@sender_and_reply_without_address plain_mime rfc_facets []
             (txt "Reply-To: ") (txt "Reply-To") (txt " ") mime_default
             blank_message); reflexivity.
Defined.
(** ** Ends of an address list *)

Section List_ends.
Variable QTEXT : text.

Ltac split_branches H :=
  repeat match type of H with
         | context [if ?c then _ else _] => destruct c eqn:?
         | context [match ?c with BEGIN => _ | _ => _ end] => destruct c eqn:?
         end;
  cbn in H; try discriminate H.

Ltac unfold_step H :=
  cbn in H;
  unfold on_BEGIN, on_NAMEADDRGRP, on_NAME, on_ADDR, on_QNAMEADDRBEG,
         on_QNAMEADDREND, on_ADDRBRBEG, on_ADDRBREND, on_GROUPBEG,
         on_GROUPEND, on_COMMBEG, on_COMMEND, on_EOL, bad in H;
  cbn in H; split_branches H;
  unfold end_BEGIN, end_NAMEADDRGRP, end_NAME, end_ADDR, end_QNAMEADDRBEG,
         end_QNAMEADDREND, end_ADDRBRBEG, end_ADDRBREND, end_GROUPBEG,
         end_GROUPEND, bad in H;
  cbn in H; split_branches H.

(** No iteration takes the machine to the state EOL. *)
Lemma step_not_EOL (last : bool) (pos : nat) (ch : ascii)
    (l l' : locals mail_address) :
  is_EOL (state l) = false ->
  step QTEXT (fun _ a => a) last pos ch l = Ok l' ->
  is_EOL (state l') = false.
Proof.
  intros Hs Hstep. destruct l as [ml gl ca cg ma st mf gf tk].
  destruct st; try discriminate Hs; destruct last; unfold_step Hstep;
    injection Hstep as <-; reflexivity.
Qed.

(** The last iteration does not leave the machine in the middle of a name,
    of a quoted name or of a bracketed address. *)
Lemma last_step_closed (pos : nat) (ch : ascii) (l l' : locals mail_address) :
  step QTEXT (fun _ a => a) true pos ch l = Ok l' ->
  is_EOL (state l) = false ->
  open_state (state l') = false.
Proof.
  intros Hstep Hs. destruct l as [ml gl ca cg ma st mf gf tk].
  destruct st; try discriminate Hs; unfold_step Hstep;
    injection Hstep as <-; reflexivity.
Qed.

Lemma run_not_EOL (chars : text) (pos : nat) (l l' : locals mail_address) :
  is_EOL (state l) = false ->
  run QTEXT (fun _ a => a) pos chars l = Ok l' ->
  is_EOL (state l') = false.
Proof.
  revert pos l. induction chars as [|ch rest IH]; intros pos l Hs Hrun.
  - injection Hrun as <-. exact Hs.
  - cbn [run] in Hrun.
    destruct (step QTEXT (fun _ a => a) (is_nil rest) pos ch l) as [l1|e]
      eqn:Hstep; [|discriminate].
    cbn [bind] in Hrun.
    apply IH with (pos := S pos) (l := l1); [|exact Hrun].
    apply step_not_EOL with (last := is_nil rest) (pos := pos) (ch := ch)
                            (l := l); assumption.
Qed.

Lemma run_closed (chars : text) (pos : nat) (l l' : locals mail_address) :
  chars <> [] -> is_EOL (state l) = false ->
  run QTEXT (fun _ a => a) pos chars l = Ok l' ->
  open_state (state l') = false.
Proof.
  revert pos l. induction chars as [|ch rest IH]; intros pos l Hne Hs Hrun;
    [congruence|].
  cbn [run] in Hrun.
  destruct (step QTEXT (fun _ a => a) (is_nil rest) pos ch l) as [l1|e]
    eqn:Hstep; [|discriminate].
  cbn [bind] in Hrun. destruct rest as [|ch' rest].
  - injection Hrun as <-.
    apply last_step_closed with (pos := pos) (ch := ch) (l := l); assumption.
  - apply IH with (pos := S pos) (l := l1); [discriminate | | exact Hrun].
    apply step_not_EOL with (last := false) (pos := pos) (ch := ch) (l := l);
      assumption.
Qed.

(** X8. The case EOL of the switch is never reached: the machine is in no
    state EOL after any accepted list. And an accepted list which is not
    empty does not end in the middle of a name followed by a space, of a
    quoted name or of a bracketed address. *)
Theorem accepted_list_ends (address_list : text) (l : locals mail_address) :
  run QTEXT (fun _ a => a) 0 address_list (initial mail_address) = Ok l ->
  state l <> EOL
  /\ (address_list <> [] ->
      state l <> NAME /\ state l <> QNAMEADDRBEG /\ state l <> QNAMEADDREND
      /\ state l <> ADDRBRBEG).
Proof.
  intros Hrun. split.
  - pose proof (@run_not_EOL address_list 0 (initial mail_address) l
                  eq_refl Hrun) as H.
    intros E. rewrite E in H. discriminate.
  - intros Hne.
    pose proof (@run_closed address_list 0 (initial mail_address) l Hne
                  eq_refl Hrun) as H.
    repeat split; intros E; rewrite E in H; discriminate.
Qed.

(** X9. A list of mailboxes with a group and no address is written with
    a comma and a space before the first group; the parser refuses a list
    which starts with a comma, also behind white space: what
    [format_mailbox] writes for such a list is not read back. *)
Theorem groups_without_addresses (gs : list mail_group) (t ws : text) :
  gs <> [] ->
  format_mailbox (Mailboxes [] gs) = Ok t ->
  forallb isspace ws = true ->
  (exists g, t = COMMA_CHAR :: SPACE_CHAR :: g)
  /\ parse_address_list QTEXT (ws ++ t) = Err Bad_address_or_group.
Proof.
  intros Hne Hf Hws. unfold format_mailbox in Hf.
  cbn [addresses groups format_addresses bind] in Hf.
  destruct (format_groups gs) as [g|e]; [|discriminate].
  cbn [bind] in Hf. destruct gs as [|g0 gs]; [congruence|].
  cbn [is_nil app] in Hf. apply Ok_inj in Hf. subst t.
  split; [exists g; reflexivity|].
  unfold parse_address_list, parse_address_list_of.
  rewrite run_steps by discriminate.
  rewrite steps_spaces by (reflexivity || exact Hws). cbn [bind].
  reflexivity.
Qed.

End List_ends.

Lemma accepted_list_ends_witness :
  run [] (fun _ a => a) 0 two_addresses (initial mail_address)
  = Ok two_addresses_end
  /\ state two_addresses_end <> EOL /\ state two_addresses_end <> ADDRBRBEG.
Proof.
  assert (H : run [] (fun _ a => a) 0 two_addresses (initial mail_address)
              = Ok two_addresses_end) by (vm_compute; reflexivity).
  split; [exact H|].
  destruct (@accepted_list_ends [] two_addresses two_addresses_end H)
    as [H1 H2].
  split; [exact H1|]. apply H2. discriminate.
Defined.

Lemma groups_without_addresses_witness :
  parse_address_list [] (txt ", Friends: Alice <alice@x.io>;")
  = Err Bad_address_or_group.
Proof.
  apply (@groups_without_addresses []
           [Mail_group (txt "Friends")
              [Mail_address (txt "Alice") (txt "alice@x.io")]]
           (txt ", Friends: Alice <alice@x.io>;") []);
    [discriminate | reflexivity | reflexivity].
Defined.
Section Plain_lists.
Variable QTEXT : text.

(** The characters of an atom are added to the token, in the middle of a
    word and of an address. *)
Lemma steps_atom_chars (chars : text) (pos : nat) ml gl ca cg ma st mf gf tk :
  st = NAMEADDRGRP \/ st = ADDR ->
  forallb is_atext chars = true ->
  steps QTEXT pos chars (Locals ml gl ca cg ma st mf gf tk)
  = Ok (Locals ml gl ca cg ma st mf gf (tk ++ chars)).
Proof.
  intros Hst. revert pos tk. induction chars as [|c chars IH]; intros pos tk Hc.
  - rewrite app_nil_r. reflexivity.
  - cbn in Hc. apply andb_prop in Hc. destruct Hc as [Hc Hcs].
    cbn [steps].
    assert (E : step QTEXT (fun _ a => a) false pos c
                  (Locals ml gl ca cg ma st mf gf tk)
                = Ok (Locals ml gl ca cg ma st mf gf (tk ++ [c]))).
    { unfold step. cbn [state]. destruct Hst as [-> | ->].
      - unfold on_NAMEADDRGRP. rewrite Hc. reflexivity.
      - unfold on_ADDR. rewrite Hc. reflexivity. }
    rewrite E. cbn [bind]. rewrite IH by exact Hcs.
    rewrite <- app_assoc. reflexivity.
Qed.

Lemma atom_parts (s : text) :
  atom s = true -> exists c s', s = c :: s' /\ is_atext c = true
                                /\ forallb is_atext s' = true.
Proof.
  unfold atom. destruct s as [|c s']; [discriminate|]. cbn.
  intros H. apply andb_prop in H. destruct H as [Hc Hs]. eauto.
Qed.

(** The machine on a plain address which is not at the end of the list: the
    whole of it is in the token, the flag of the monkey is up. *)
Lemma steps_plain (p : text * text) (done : list mail_address) (pos : nat) :
  atom (fst p) = true -> forallb is_atext (snd p) = true ->
  steps QTEXT pos (plain_address p) (waiting BEGIN done)
  = Ok (Locals [] [] empty_address (Mail_group [] []) done ADDR true false
               (plain_address p)).
Proof.
  intros Hl Hd. destruct p as [loc dom]. cbn [fst snd] in *.
  destruct (atom_parts _ Hl) as (c & s' & -> & Hc & Hs).
  unfold plain_address. cbn [fst snd app steps].
  unfold step at 1. cbn [state waiting]. unfold on_BEGIN.
  rewrite (atext_no_space _ Hc), Hc. cbn [bind at_last].
  unfold token_add, set_token, set_state. cbn [token app mail_list
    mail_group_list cur_address cur_group mail_addrs state monkey_found
    group_found].
  rewrite steps_app.
  rewrite steps_atom_chars by (auto || exact Hs). cbn [bind steps].
  unfold step at 1. cbn [state]. unfold on_NAMEADDRGRP.
  change (is_atext MONKEY_CHAR) with false.
  change (is_char MONKEY_CHAR MONKEY_CHAR) with true.
  cbn [bind at_last]. unfold token_add, set_token, set_state, set_monkey_found.
  cbn [token app mail_list mail_group_list cur_address cur_group mail_addrs
       state monkey_found group_found].
  rewrite steps_atom_chars by (auto || exact Hd).
  rewrite <- !app_assoc. reflexivity.
Qed.

(** The comma after a plain address stores it. *)
Lemma step_comma (pos : nat) (tk : text) (done : list mail_address) :
  step QTEXT (fun _ a => a) false pos COMMA_CHAR
    (Locals [] [] empty_address (Mail_group [] []) done ADDR true false tk)
  = Ok (waiting BEGIN (done ++ [nameless tk])).
Proof. reflexivity. Qed.

Lemma app_last {A} (s : list A) (c : A) :
  exists a s', c :: s = s' ++ [a].
Proof.
  revert c. induction s as [|d s IH]; intros c.
  - exists c, []. reflexivity.
  - destruct (IH d) as (a & s' & E). exists a, (c :: s'). rewrite E.
    reflexivity.
Qed.

Lemma forallb_last {A} (f : A -> bool) (s : list A) (a : A) :
  forallb f (s ++ [a]) = true -> forallb f s = true /\ f a = true.
Proof.
  rewrite forallb_app. cbn. rewrite andb_true_r. apply andb_prop.
Qed.

(** The machine on a plain address at the end of the list: the address is
    stored and the stored addresses go to the result. *)
Lemma run_plain_last (p : text * text) (done : list mail_address) (pos : nat) :
  plain p = true ->
  run QTEXT (fun _ a => a) pos (plain_address p) (waiting BEGIN done)
  = Ok (Locals (done ++ [nameless (plain_address p)]) [] 
               (Mail_address [] (plain_address p)) (Mail_group [] [])
               (done ++ [nameless (plain_address p)]) ADDR true false
               (plain_address p)).
Proof.
  unfold plain. intros H. apply andb_prop in H. destruct H as [Hl Hd].
  destruct p as [loc dom]. cbn [fst snd] in *.
  destruct (atom_parts _ Hd) as (c & s' & -> & Hc & Hs).
  destruct (app_last s' c) as (a & d' & E).
  assert (Hd' : forallb is_atext (d' ++ [a]) = true).
  { rewrite <- E. cbn. rewrite Hc, Hs. reflexivity. }
  apply forallb_last in Hd'. destruct Hd' as [Hd' Ha].
  unfold plain_address. cbn [fst snd]. rewrite E.
  change (loc ++ MONKEY_CHAR :: d' ++ [a])
    with (loc ++ (MONKEY_CHAR :: d') ++ [a]).
  rewrite app_assoc, run_steps by discriminate.
  change (loc ++ MONKEY_CHAR :: d') with (plain_address (loc, d')).
  rewrite steps_plain by assumption. cbn [bind run is_nil].
  unfold step. cbn [state]. unfold on_ADDR. rewrite Ha. cbn [bind at_last].
  unfold end_ADDR, token_add, set_token. cbn [state group_found monkey_found
    token negb mail_list mail_group_list cur_address cur_group mail_addrs].
  rewrite is_nil_app_r by discriminate. cbn [negb bind].
  reflexivity.
Qed.

(** The machine on plain addresses, each followed by a comma and white
    space: they wait in [mail_addrs]. *)
Lemma steps_plain_list (ws : text) (l : list (text * text))
    (done : list mail_address) (pos : nat) :
  forallb isspace ws = true -> forallb plain l = true ->
  steps QTEXT pos (followed_by_commas ws (map plain_address l))
    (waiting BEGIN done)
  = Ok (waiting BEGIN (done ++ map nameless (map plain_address l))).
Proof.
  intros Hws Hl. revert done pos.
  induction l as [|q l IH]; intros done pos.
  - cbn. rewrite app_nil_r. reflexivity.
  - cbn in Hl. apply andb_prop in Hl. destruct Hl as [Hq Hl].
    unfold followed_by_commas. cbn [map concat].
    rewrite <- !app_assoc. rewrite steps_app.
    unfold plain in Hq. apply andb_prop in Hq. destruct Hq as [H1 H2].
    unfold atom in H2. apply andb_prop in H2. destruct H2 as [_ H2].
    rewrite steps_plain by assumption. cbn [bind app steps].
    rewrite step_comma. cbn [bind]. rewrite steps_app.
    rewrite steps_spaces by (reflexivity || exact Hws). cbn [bind].
    fold (followed_by_commas ws (map plain_address l)).
    rewrite IH by exact Hl. rewrite <- app_assoc. reflexivity.
Qed.

(** X10. A list of addresses written without brackets, [local@domain] with
    atoms on both sides, separated by a comma and white space, is read as
    these addresses, in their order, each without a name and no group. *)
Theorem plain_addresses_parsed (ws : text) (l : list (text * text))
    (p : text * text) :
  forallb isspace ws = true -> forallb plain l = true -> plain p = true ->
  parse_address_list QTEXT
    (followed_by_commas ws (map plain_address l) ++ plain_address p)
  = Ok (Mailboxes (map nameless (map plain_address (l ++ [p]))) []).
Proof.
  intros Hws Hl Hp. unfold parse_address_list, parse_address_list_of.
  rewrite run_steps by (destruct p as [[|c loc] dom]; discriminate).
  change (initial mail_address) with (waiting BEGIN []).
  rewrite steps_plain_list by assumption. cbn [bind app].
  rewrite run_plain_last by exact Hp. cbn [bind mail_list mail_group_list].
  rewrite !map_app. reflexivity.
Qed.

(** White space after an address without brackets is skipped. *)
Lemma steps_spaces_ADDR (ws : text) (pos : nat) (l : locals mail_address) :
  state l = ADDR -> forallb isspace ws = true ->
  steps QTEXT pos ws l = Ok l.
Proof.
  intros Hs. revert pos. induction ws as [|c ws IH]; intros pos Hws.
  - reflexivity.
  - cbn in Hws. apply andb_prop in Hws. destruct Hws as [Hc Hws].
    cbn [steps]. unfold step. rewrite Hs. unfold on_ADDR.
    assert (Ha : is_atext c = false).
    { destruct (is_atext c) eqn:E; [|reflexivity].
      rewrite (atext_no_space _ E) in Hc. discriminate. }
    assert (Hm : is_char MONKEY_CHAR c = false).
    { destruct c as [[] [] [] [] [] [] [] []]; try reflexivity;
        discriminate Hc. }
    rewrite Ha, Hm, Hc. cbn [bind at_last]. apply IH; exact Hws.
Qed.

(** In a comment and after it, the machine does not look at the end of the
    list. *)
Lemma run_comment (c ws : text) (pos : nat) ml gl ca cg ma mf gf tk :
  forallb comment_char c = true -> forallb isspace ws = true ->
  run QTEXT (fun _ a => a) pos (c ++ RIGHT_PARENTHESIS_CHAR :: ws)
    (Locals ml gl ca cg ma COMMBEG mf gf tk)
  = Ok (Locals ml gl ca cg ma COMMEND mf gf tk).
Proof.
  intros Hc Hws. revert pos. induction c as [|x c IH]; intros pos.
  - cbn [app run]. unfold step at 1. cbn [state]. unfold on_COMMBEG.
    change (is_atext RIGHT_PARENTHESIS_CHAR || isspace RIGHT_PARENTHESIS_CHAR)
      with false.
    change (is_char RIGHT_PARENTHESIS_CHAR RIGHT_PARENTHESIS_CHAR) with true.
    cbn [bind]. unfold set_state. cbn [mail_list mail_group_list cur_address
      cur_group mail_addrs monkey_found group_found token].
    generalize (S pos). clear pos.
    induction ws as [|y ws IHw]; intros pos; [reflexivity|].
    cbn in Hws. apply andb_prop in Hws. destruct Hws as [Hy Hws].
    cbn [run]. unfold step. cbn [state]. unfold on_COMMEND. rewrite Hy.
    cbn [bind]. apply IHw. exact Hws.
  - cbn in Hc. apply andb_prop in Hc. destruct Hc as [Hx Hc].
    cbn [app run]. unfold step at 1. cbn [state]. unfold on_COMMBEG.
    unfold comment_char in Hx. rewrite Hx. cbn [bind]. apply IH. exact Hc.
Qed.

(** After a comment, a character which is no white space is refused. *)
Lemma run_after_comment (c ws rest : text) (x : ascii) (pos : nat)
    ml gl ca cg ma mf gf tk :
  forallb comment_char c = true -> forallb isspace ws = true ->
  isspace x = false ->
  run QTEXT (fun _ a => a) pos
    (c ++ RIGHT_PARENTHESIS_CHAR :: ws ++ x :: rest)
    (Locals ml gl ca cg ma COMMBEG mf gf tk)
  = Err Bad_address_or_group.
Proof.
  intros Hc Hws Hx. revert pos. induction c as [|y c IH]; intros pos.
  - cbn [app run]. unfold step at 1. cbn [state]. unfold on_COMMBEG.
    change (is_atext RIGHT_PARENTHESIS_CHAR || isspace RIGHT_PARENTHESIS_CHAR)
      with false.
    change (is_char RIGHT_PARENTHESIS_CHAR RIGHT_PARENTHESIS_CHAR) with true.
    cbn [bind]. unfold set_state. cbn [mail_list mail_group_list cur_address
      cur_group mail_addrs monkey_found group_found token].
    generalize (S pos). clear pos.
    induction ws as [|z ws IHw]; intros pos.
    + cbn [app run]. unfold step. cbn [state]. unfold on_COMMEND.
      rewrite Hx. reflexivity.
    + cbn in Hws. apply andb_prop in Hws. destruct Hws as [Hz Hws].
      cbn [app run]. unfold step. cbn [state]. unfold on_COMMEND. rewrite Hz.
      cbn [bind]. apply IHw. exact Hws.
  - cbn in Hc. apply andb_prop in Hc. destruct Hc as [Hy Hc].
    cbn [app run]. unfold step at 1. cbn [state]. unfold on_COMMBEG.
    unfold comment_char in Hy. rewrite Hy. cbn [bind]. apply IH. exact Hc.
Qed.

(** The machine up to the parenthesis which opens a comment after the last
    address. *)
Lemma steps_to_comment (ws ws1 : text) (l : list (text * text))
    (p : text * text) :
  forallb isspace ws = true -> forallb plain l = true -> plain p = true ->
  forallb isspace ws1 = true ->
  steps QTEXT 0
    ((followed_by_commas ws (map plain_address l) ++ plain_address p ++ ws1)
     ++ [LEFT_PARENTHESIS_CHAR])
    (initial mail_address)
  = Ok (Locals (map nameless (map plain_address (l ++ [p]))) []
               empty_address (Mail_group [] [])
               (map nameless (map plain_address (l ++ [p]))) COMMBEG true
               false []).
Proof.
  intros Hws Hl Hp Hws1.
  change (initial mail_address) with (waiting BEGIN []).
  rewrite <- !app_assoc. rewrite steps_app.
  rewrite steps_plain_list by assumption. cbn [bind app].
  unfold plain in Hp. apply andb_prop in Hp. destruct Hp as [H1 H2].
  unfold atom in H2. apply andb_prop in H2. destruct H2 as [_ H2].
  rewrite steps_app, steps_plain by assumption. cbn [bind].
  rewrite steps_app, steps_spaces_ADDR by (reflexivity || exact Hws1).
  cbn [bind steps]. rewrite !map_app. reflexivity.
Qed.

(** X11. A comment in parentheses after the last address of such a list,
    made of the characters of an atom and white space, is dropped, with the
    white space around it: the list is read as it is without it. After the
    comment nothing but white space is accepted: a comment does not stand
    between two addresses. *)
Theorem comment_after_last_address (ws ws1 c ws2 : text)
    (l : list (text * text)) (p : text * text) :
  forallb isspace ws = true -> forallb plain l = true -> plain p = true ->
  forallb isspace ws1 = true -> forallb comment_char c = true ->
  forallb isspace ws2 = true ->
  let t := followed_by_commas ws (map plain_address l) ++ plain_address p in
  parse_address_list QTEXT
    (t ++ ws1 ++ LEFT_PARENTHESIS_CHAR :: c ++ RIGHT_PARENTHESIS_CHAR :: ws2)
  = Ok (Mailboxes (map nameless (map plain_address (l ++ [p]))) [])
  /\ forall x rest, isspace x = false ->
       parse_address_list QTEXT
         (t ++ ws1 ++ LEFT_PARENTHESIS_CHAR :: c
            ++ RIGHT_PARENTHESIS_CHAR :: ws2 ++ x :: rest)
       = Err Bad_address_or_group.
Proof.
  intros Hws Hl Hp Hws1 Hc Hws2 t. subst t. split.
  - unfold parse_address_list, parse_address_list_of.
    replace ((followed_by_commas ws (map plain_address l) ++ plain_address p)
             ++ ws1 ++ LEFT_PARENTHESIS_CHAR :: c
             ++ RIGHT_PARENTHESIS_CHAR :: ws2)
      with (((followed_by_commas ws (map plain_address l)
              ++ plain_address p ++ ws1) ++ [LEFT_PARENTHESIS_CHAR])
            ++ c ++ RIGHT_PARENTHESIS_CHAR :: ws2)
      by (rewrite <- !app_assoc; reflexivity).
    rewrite run_steps by (destruct c; discriminate).
    rewrite steps_to_comment by assumption. cbn [bind].
    rewrite run_comment by assumption. reflexivity.
  - intros x rest Hx.
    unfold parse_address_list, parse_address_list_of.
    replace ((followed_by_commas ws (map plain_address l) ++ plain_address p)
             ++ ws1 ++ LEFT_PARENTHESIS_CHAR :: c
             ++ RIGHT_PARENTHESIS_CHAR :: ws2 ++ x :: rest)
      with (((followed_by_commas ws (map plain_address l)
              ++ plain_address p ++ ws1) ++ [LEFT_PARENTHESIS_CHAR])
            ++ c ++ RIGHT_PARENTHESIS_CHAR :: ws2 ++ x :: rest)
      by (rewrite <- !app_assoc; reflexivity).
    rewrite run_steps by (destruct c; discriminate).
    rewrite steps_to_comment by assumption. cbn [bind].
    rewrite run_after_comment by assumption. reflexivity.
Qed.

(** X12. A list which ends in a comma and white space after its addresses
    has no address at all in the result; a list which ends in a word of one
    character after its addresses has that word alone, as a name: the
    addresses before it are lost. With a word of two characters they are
    kept. *)
Theorem addresses_lost_at_the_end (ws ws' : text) (l : list (text * text))
    (c d : ascii) :
  forallb isspace ws = true -> forallb plain l = true ->
  forallb isspace ws' = true -> ws' <> [] ->
  is_atext c = true -> is_atext d = true ->
  let t := followed_by_commas ws (map plain_address l) in
  parse_address_list QTEXT (t ++ ws') = Ok (Mailboxes [] [])
  /\ parse_address_list QTEXT (t ++ [c])
     = Ok (Mailboxes [Mail_address [c] []] [])
  /\ parse_address_list QTEXT (t ++ [c; d])
     = Ok (Mailboxes (map nameless (map plain_address l)
                      ++ [Mail_address [c; d] []]) []).
Proof.
  intros Hws Hl Hws' Hne Hc Hd t. subst t.
  unfold parse_address_list, parse_address_list_of.
  change (initial mail_address) with (waiting BEGIN []).
  split; [|split].
  - rewrite run_steps by exact Hne.
    rewrite steps_plain_list by assumption. cbn [bind app].
    rewrite run_spaces by (reflexivity || exact Hws'). reflexivity.
  - rewrite run_steps by discriminate.
    rewrite steps_plain_list by assumption. cbn [bind app run is_nil].
    unfold step. cbn [state waiting]. unfold on_BEGIN.
    rewrite (atext_no_space _ Hc), Hc. cbn [bind at_last].
    assert (Et : trim [c] = [c]).
    { cbn. rewrite (atext_no_space _ Hc). cbn.
      rewrite (atext_no_space _ Hc). reflexivity. }
    unfold end_BEGIN. cbn -[trim]. rewrite Et. reflexivity.
  - rewrite run_steps by discriminate.
    rewrite steps_plain_list by assumption. cbn [bind app run is_nil].
    unfold step at 1. cbn [state waiting]. unfold on_BEGIN.
    rewrite (atext_no_space _ Hc), Hc. cbn [bind at_last].
    unfold step. cbn [state token_add set_token set_state].
    unfold on_NAMEADDRGRP. rewrite Hd. cbn [bind at_last].
    unfold end_NAMEADDRGRP. cbn. reflexivity.
Qed.

End Plain_lists.
Section Quoted_names.
Variable QTEXT : text.
Hypothesis HQ : reads_quoted QTEXT = true.

Lemma find_char_in (s : text) (c : ascii) : find_char s c = true -> In c s.
Proof.
  unfold find_char. intros H. apply existsb_exists in H.
  destruct H as (x & Hin & E). apply Ascii.eqb_eq in E. subst x. exact Hin.
Qed.

Lemma quoted_char_accepted (c : ascii) :
  qtext_char c = true ->
  isalpha c || isdigit c || isspace c || find_char QTEXT c = true.
Proof.
  intros H. unfold reads_quoted in HQ. apply andb_prop in HQ.
  destruct HQ as [Hp _]. unfold qtext_char in H.
  apply orb_prop in H. destruct H as [H | H].
  - apply orb_prop in H. destruct H as [H | H].
    + apply orb_prop in H. destruct H as [H | H].
      * unfold isalnum in H. rewrite H. reflexivity.
      * apply Ascii.eqb_eq in H. subst c. rewrite orb_true_r. reflexivity.
    + apply Ascii.eqb_eq in H. subst c. rewrite orb_true_r. reflexivity.
  - apply find_char_in in H.
    rewrite (proj1 (forallb_forall _ _) Hp c H). apply orb_true_r.
Qed.

(** The characters of a quoted name go to the token. *)
Lemma steps_quoted (chars : text) (pos : nat) ml gl ca cg ma mf gf tk :
  forallb qtext_char chars = true ->
  steps QTEXT pos chars (Locals ml gl ca cg ma QNAMEADDRBEG mf gf tk)
  = Ok (Locals ml gl ca cg ma QNAMEADDRBEG mf gf (tk ++ chars)).
Proof.
  revert pos tk. induction chars as [|c chars IH]; intros pos tk Hc.
  - rewrite app_nil_r. reflexivity.
  - cbn in Hc. apply andb_prop in Hc. destruct Hc as [Hc Hcs].
    cbn [steps]. unfold step at 1. cbn [state]. unfold on_QNAMEADDRBEG.
    rewrite (quoted_char_accepted _ Hc). cbn [bind at_last].
    unfold token_add, set_token. cbn [token mail_list mail_group_list
      cur_address cur_group mail_addrs state monkey_found group_found].
    rewrite IH by exact Hcs. rewrite <- app_assoc. reflexivity.
Qed.

Lemma quoted_address_parts (a : mail_address) :
  quoted_address a = true ->
  address a <> [] /\ forallb dtext_char (address a) = true
  /\ find_char (address a) MONKEY_CHAR = true
  /\ NAME_REGEX (name a) = false /\ forallb qtext_char (name a) = true.
Proof.
  unfold quoted_address. intros H.
  repeat (apply andb_prop in H; destruct H as [H ?]).
  repeat split; try assumption.
  - destruct (address a); [discriminate | congruence].
  - destruct (NAME_REGEX (name a)); [discriminate | reflexivity].
Qed.

Lemma good_address_name (a : mail_address) :
  good_address a = true -> NAME_REGEX (name a) = true.
Proof.
  intros H. destruct (good_address_parts _ H) as (_ & _ & _ & Hn & _).
  exact Hn.
Qed.

Lemma format_legible_address (a : mail_address) :
  legible_address a = true ->
  format_address (name a) (address a)
  = Ok (written_prefix a ++ address a ++ [GREATER_THAN_CHAR]).
Proof.
  intros H. apply orb_prop in H. destruct H as [H | H].
  - unfold written_prefix. rewrite (good_address_name _ H).
    apply format_good_address. exact H.
  - destruct (quoted_address_parts _ H) as (Hne & Hd & _ & Hn & Hq).
    unfold format_address, written_prefix. rewrite Hn.
    change (QTEXT_REGEX (name a)) with (forallb qtext_char (name a)).
    change (DTEXT_REGEX (address a)) with (forallb dtext_char (address a)).
    rewrite Hq, Hd. destruct (address a) as [|x ad]; [congruence|].
    rewrite andb_false_r. cbn [bind is_nil app].
    rewrite <- !app_assoc. reflexivity.
Qed.

(** The machine on what is written before the address of a legible
    address. *)
Lemma steps_written_prefix (a : mail_address) (done : list mail_address)
    (pos : nat) :
  legible_address a = true ->
  steps QTEXT pos (written_prefix a) (waiting BEGIN done)
  = Ok (Locals [] [] (Mail_address (name a) []) (Mail_group [] []) done
               ADDRBRBEG false false []).
Proof.
  intros H. apply orb_prop in H. destruct H as [H | H].
  - unfold written_prefix. rewrite (good_address_name _ H).
    apply steps_prefix. exact H.
  - destruct (quoted_address_parts _ H) as (_ & _ & _ & Hn & Hq).
    unfold written_prefix. rewrite Hn. cbn [steps].
    change (step QTEXT (fun _ a => a) false pos QUOTE_CHAR
              (waiting BEGIN done))
      with (Ok (waiting QNAMEADDRBEG done)).
    cbn [bind]. rewrite steps_app. unfold waiting.
    rewrite steps_quoted by exact Hq. cbn [bind app steps].
    unfold step at 1. cbn [state]. unfold on_QNAMEADDRBEG.
    unfold reads_quoted in HQ. apply andb_prop in HQ.
    destruct HQ as [_ Hquote].
    apply negb_true_iff in Hquote. rewrite Hquote.
    reflexivity.
Qed.

Lemma steps_written_address (a : mail_address) (done : list mail_address)
    (pos : nat) :
  legible_address a = true ->
  steps QTEXT pos (written_prefix a ++ address a) (waiting BEGIN done)
  = Ok (Locals [] [] (Mail_address (name a) []) (Mail_group [] []) done
               ADDRBRBEG true false (address a)).
Proof.
  intros H.
  assert (Hd : forallb dtext_char (address a) = true
               /\ find_char (address a) MONKEY_CHAR = true).
  { pose proof H as H'. apply orb_prop in H'. destruct H' as [H' | H'].
    - destruct (good_address_parts _ H') as (_ & Hd & Hm & _). auto.
    - destruct (quoted_address_parts _ H') as (_ & Hd & Hm & _). auto. }
  destruct Hd as [Hd Hm].
  rewrite steps_app, steps_written_prefix by exact H. cbn [bind].
  rewrite steps_bracketed by exact Hd. rewrite Hm. reflexivity.
Qed.

(** A list of legible addresses is formatted and the machine reads the text
    back: the addresses are in the result after those which were waiting. *)
Lemma run_legible_list (l : list mail_address) :
  forallb legible_address l = true -> l <> [] ->
  exists t, format_addresses l = Ok t /\ t <> []
    /\ forall done pos, exists lf,
         run QTEXT (fun _ a => a) pos t (waiting BEGIN done) = Ok lf
         /\ mail_list lf = done ++ l /\ mail_group_list lf = [].
Proof.
  induction l as [|a l IH]; intros Hg Hne; [congruence|].
  cbn in Hg. apply andb_prop in Hg. destruct Hg as [Ha Hl].
  cbn [format_addresses]. rewrite format_legible_address by exact Ha.
  cbn [bind]. destruct l as [|b l'].
  - cbn [format_addresses bind is_nil]. rewrite !app_nil_r.
    exists (written_prefix a ++ address a ++ [GREATER_THAN_CHAR]).
    split; [reflexivity|].
    split; [rewrite <- (app_nil_r (_ ++ _ ++ [_])); apply ends_not_nil|].
    intros done pos.
    rewrite app_assoc, run_steps by discriminate.
    rewrite steps_written_address by exact Ha. cbn [bind run is_nil].
    rewrite step_close, mail_address_eta. cbn [bind].
    eexists. split; [reflexivity|]. split; reflexivity.
  - destruct (IH Hl ltac:(discriminate)) as (t & Ef & Hne' & Hrun).
    rewrite Ef. cbn [bind is_nil].
    exists ((written_prefix a ++ address a ++ [GREATER_THAN_CHAR])
            ++ txt ", " ++ t).
    split; [reflexivity|].
    split; [apply ends_not_nil|].
    intros done pos.
    replace ((written_prefix a ++ address a ++ [GREATER_THAN_CHAR])
             ++ txt ", " ++ t)
      with (((written_prefix a ++ address a)
             ++ GREATER_THAN_CHAR :: txt ", ") ++ t)
      by (rewrite <- !app_assoc; reflexivity).
    rewrite run_steps by exact Hne'.
    rewrite steps_app, steps_written_address by exact Ha. cbn [bind steps].
    rewrite step_close, mail_address_eta. cbn [bind].
    set (p := length (written_prefix a ++ address a) + pos).
    change (step QTEXT (fun _ a => a) false (S p) (ascii_of_nat 44)
              (Locals [] [] empty_address (Mail_group [] [])
                      (done ++ [a]) ADDRBREND false false []))
      with (Ok (waiting BEGIN (done ++ [a]))).
    cbn [bind].
    change (step QTEXT (fun _ a => a) false (S (S p)) (ascii_of_nat 32)
              (waiting BEGIN (done ++ [a])))
      with (Ok (waiting BEGIN (done ++ [a]))).
    cbn [bind].
    destruct (Hrun (done ++ [a])
                (length ((written_prefix a ++ address a)
                         ++ GREATER_THAN_CHAR :: txt ", ") + pos))
      as (lf & Er & Em & Eg).
    exists lf. split; [exact Er|]. split; [|exact Eg].
    rewrite Em, <- app_assoc. reflexivity.
Qed.

(** X13. Round trip of a list of addresses. Let the constant [QTEXT] of the
    parser have the punctuation of a quoted name and no quote. A list
    without groups, of addresses with a monkey, each with a name of
    letters, digits and inner blanks or with a name which [format_address]
    puts in quotes, is written by [format_mailbox], and
    [parse_address_list] reads what was written, behind any white space, as
    the same list: the names and the addresses come back, a quoted name
    with its blanks and punctuation. *)
Theorem mailboxes_round_trip (mb : mailboxes) (ws : text) :
  legible_mailboxes mb = true -> forallb isspace ws = true ->
  exists t, format_mailbox mb = Ok t
            /\ parse_address_list QTEXT (ws ++ t) = Ok mb.
Proof.
  unfold legible_mailboxes. intros Hg Hws. apply andb_prop in Hg.
  destruct Hg as [Hgr Hl]. destruct mb as [l gs]. cbn [addresses groups] in *.
  destruct gs; [|discriminate]. unfold format_mailbox.
  cbn [addresses groups format_groups is_nil].
  destruct l as [|a l].
  - exists []. split; [reflexivity|].
    rewrite app_nil_r. unfold parse_address_list, parse_address_list_of.
    rewrite run_spaces by (reflexivity || exact Hws). reflexivity.
  - destruct (run_legible_list Hl ltac:(discriminate))
      as (t & Ef & Hne & Hrun).
    rewrite Ef. cbn [bind]. rewrite !app_nil_r.
    exists t. split; [reflexivity|].
    unfold parse_address_list, parse_address_list_of.
    rewrite run_steps by exact Hne.
    rewrite steps_spaces by (reflexivity || exact Hws). cbn [bind].
    destruct (Hrun [] (length ws + 0)) as (lf & Er & Em & Eg).
    change (initial mail_address) with (waiting BEGIN []).
    rewrite Er. cbn [bind]. rewrite Em, Eg. reflexivity.
Qed.

End Quoted_names.
Lemma greedy_bounded_stop (cls : ascii -> bool) (h : nat) (a s : text) :
  forallb cls a = true -> length a <= h ->
  match s with [] => True | x :: _ => cls x = false end ->
  greedy cls (Some h) (a ++ s) = length a.
Proof.
  revert h. induction a as [|x a IH]; intros h H Hl Hs.
  - destruct s as [|y s]; [reflexivity|]. cbn. rewrite Hs.
    destruct h; reflexivity.
  - cbn in H. apply andb_prop in H. destruct H as [Hx Ha].
    cbn [length] in Hl. destruct h as [|h]; [lia|].
    cbn [app length greedy]. rewrite Hx, IH by (assumption || lia).
    reflexivity.
Qed.

(** A repetition with an upper bound takes a shorter run which is followed
    by a character outside the class. *)
Lemma rmatch_bounded_stop (cls : ascii -> bool) (lo h : nat) (a : text)
    (r' : regex) (pos : nat) (s : text) (caps c : captures) :
  forallb cls a = true -> lo <= length a -> length a <= h ->
  match s with [] => True | x :: _ => cls x = false end ->
  rmatch r' (pos + length a) s caps = Some c ->
  rmatch (Rep cls lo (Some h) :: r') pos (a ++ s) caps = Some c.
Proof.
  intros Ha Hl Hh Hs Hr. cbn [rmatch].
  rewrite greedy_bounded_stop by assumption.
  apply backtrack_first; [exact Hl|]. rewrite skipn_length_app. exact Hr.
Qed.

(** The last item of the expression takes whatever is left. *)
Lemma rmatch_rest (pos : nat) (rest : text) (caps : captures) :
  rmatch [star any_char] pos rest caps = Some caps.
Proof.
  rewrite <- (app_nil_r rest). unfold star.
  apply (@rmatch_stop _ _ rest); [| lia | exact I | reflexivity].
  induction rest; [reflexivity | assumption].
Qed.

Lemma date_regex_match_rest
    (w1 w2 w3 d1 d2 m1 m2 m3 y1 y2 y3 y4 h1 h2 mi1 mi2 s1 s2 sg z1 z2 z3 z4
       : ascii) (rest : text) :
  forallb isalpha [w1; w2; w3; m1; m2; m3] = true ->
  forallb isdigit [d1; d2; y1; y2; y3; y4; h1; h2; mi1; mi2; s1; s2;
                   z1; z2; z3; z4] = true ->
  is_sign sg = true ->
  let s := [w1; w2; w3; ","; " "; d1; d2; " "; m1; m2; m3; " "; y1; y2; y3;
            y4; " "; h1; h2; ":"; mi1; mi2; ":"; s1; s2; " "; sg; z1; z2;
            z3; z4]%char ++ rest in
  regex_match s date_regex = Some rfc_captures
  /\ dttz s rfc_captures
     = [w1; w2; w3; ","; " "; d1; d2; " "; m1; m2; m3; " "; y1; y2; y3;
        y4; " "; h1; h2; ":"; mi1; mi2; ":"; s1; s2; " "; sg; z1; z2; ":";
        z3; z4]%char.
Proof.
  intros Ha Hd Hs s. subst s.
  cbn [forallb] in Ha, Hd.
  repeat (apply andb_prop in Ha; destruct Ha as [? Ha]).
  repeat (apply andb_prop in Hd; destruct Hd as [? Hd]).
  clear Ha Hd.
  assert (Bd := digit_not_blank d1 ltac:(assumption)).
  assert (Bm := alpha_not_blank m1 ltac:(assumption)).
  assert (By := digit_not_blank y1 ltac:(assumption)).
  assert (Bh := digit_not_blank h1 ltac:(assumption)).
  assert (Bs := sign_not_blank sg ltac:(assumption)).
  assert (Sd := digit_not_space d2 ltac:(assumption)).
  split.
  - unfold regex_match, date_regex, exactly, one, plus.
    cbn [app].
    rewrite rmatch_open. takes [w1; w2; w3]. unfold star at 1.
    takes (@nil ascii).
    takes [","%char]. rewrite rmatch_close. takes [" "%char].
    rewrite rmatch_open. takes [d1; d2]. takes [" "%char].
    takes [m1; m2; m3]. takes [" "%char]. takes [y1; y2; y3; y4].
    rewrite rmatch_close. takes [" "%char].
    rewrite rmatch_open. takes [h1; h2]. takes [":"%char]. takes [mi1; mi2].
    takes [":"%char]. takes [s1; s2]. takes [" "%char].
    rewrite rmatch_open. takes [sg]. rewrite rmatch_close.
    takes [z1; z2; z3; z4]. rewrite rmatch_close. apply rmatch_rest.
  - unfold dttz. cbn. rewrite Sd. reflexivity.
Qed.

Lemma date_regex_match_short
    (w1 w2 w3 d2 m1 m2 m3 y1 y2 y3 y4 h1 h2 mi1 mi2 s1 s2 sg z1 z2 z3 z4
       : ascii) (rest : text) :
  forallb isalpha [w1; w2; w3; m1; m2; m3] = true ->
  forallb isdigit [d2; y1; y2; y3; y4; h1; h2; mi1; mi2; s1; s2;
                   z1; z2; z3; z4] = true ->
  is_sign sg = true ->
  let s := [w1; w2; w3; ","; " "; d2; " "; m1; m2; m3; " "; y1; y2; y3;
            y4; " "; h1; h2; ":"; mi1; mi2; ":"; s1; s2; " "; sg; z1; z2;
            z3; z4]%char ++ rest in
  regex_match s date_regex = Some short_day_captures
  /\ dttz s short_day_captures
     = [w1; w2; w3; ","; " "; "0"; d2; " "; m1; m2; m3; " "; y1; y2; y3;
        y4; " "; h1; h2; ":"; mi1; mi2; ":"; s1; s2; " "; sg; z1; z2; ":";
        z3; z4]%char.
Proof.
  intros Ha Hd Hs s. subst s.
  cbn [forallb] in Ha, Hd.
  repeat (apply andb_prop in Ha; destruct Ha as [? Ha]).
  repeat (apply andb_prop in Hd; destruct Hd as [? Hd]).
  clear Ha Hd.
  assert (Bd := digit_not_blank d2 ltac:(assumption)).
  assert (Bm := alpha_not_blank m1 ltac:(assumption)).
  assert (By := digit_not_blank y1 ltac:(assumption)).
  assert (Bh := digit_not_blank h1 ltac:(assumption)).
  assert (Bs := sign_not_blank sg ltac:(assumption)).
  split.
  - unfold regex_match, date_regex, exactly, one, plus.
    cbn [app].
    rewrite rmatch_open. takes [w1; w2; w3]. unfold star at 1.
    takes (@nil ascii).
    takes [","%char]. rewrite rmatch_close. takes [" "%char].
    rewrite rmatch_open.
    apply (@rmatch_bounded_stop _ _ _ [d2]);
      [class_true | cbn; lia | cbn; lia | reflexivity |].
    takes [" "%char].
    takes [m1; m2; m3]. takes [" "%char]. takes [y1; y2; y3; y4].
    rewrite rmatch_close. takes [" "%char].
    rewrite rmatch_open. takes [h1; h2]. takes [":"%char]. takes [mi1; mi2].
    takes [":"%char]. takes [s1; s2]. takes [" "%char].
    rewrite rmatch_open. takes [sg]. rewrite rmatch_close.
    takes [z1; z2; z3; z4]. rewrite rmatch_close. apply rmatch_rest.
  - unfold dttz. cbn. reflexivity.
Qed.

(** The characters of the layouts of a date in range whose day has one
    digit. *)
Lemma short_layout_chars (d : date_fields) :
  date_in_range d = true -> day d < 10 ->
  exists w1 w2 w3 d2 m1 m2 m3 y1 y2 y3 y4 h1 h2 mi1 mi2 s1 s2 sg z1 z2
         z3 z4,
    rfc_write_short_day d
    = [w1; w2; w3; ","; " "; d2; " "; m1; m2; m3; " "; y1; y2; y3; y4;
       " "; h1; h2; ":"; mi1; mi2; ":"; s1; s2; " "; sg; z1; z2; z3; z4]%char
    /\ rfc_read_form d
       = [w1; w2; w3; ","; " "; "0"; d2; " "; m1; m2; m3; " "; y1; y2; y3;
          y4; " "; h1; h2; ":"; mi1; mi2; ":"; s1; s2; " "; sg; z1; z2; ":";
          z3; z4]%char
    /\ forallb isalpha [w1; w2; w3; m1; m2; m3] = true
    /\ forallb isdigit [d2; y1; y2; y3; y4; h1; h2; mi1; mi2; s1; s2;
                        z1; z2; z3; z4] = true
    /\ is_sign sg = true.
Proof.
  intros H Hday.
  destruct (date_in_range_bounds _ H)
    as (Hy1 & Hy2 & Hd & Hh & Hmi & Hs & Hzh & Hzm).
  destruct (weekday_name_letters (day_of_week (year d) (month d) (day d)))
    as (w1 & w2 & w3 & Ew & Hw).
  destruct (month_name_letters (month d)) as (m1 & m2 & m3 & Em & Hm).
  destruct (zone_sign_char (zone_west d)) as (sg & Es & Hsg).
  pose proof (two_digits_are_digits Hy1) as Dy1.
  pose proof (two_digits_are_digits Hy2) as Dy2.
  pose proof (isdigit_digit_char Hday) as Dd.
  pose proof (two_digits_are_digits Hh) as Dh.
  pose proof (two_digits_are_digits Hmi) as Dmi.
  pose proof (two_digits_are_digits Hs) as Ds.
  pose proof (two_digits_are_digits Hzh) as Dzh.
  pose proof (two_digits_are_digits Hzm) as Dzm.
  unfold rfc_write_short_day, rfc_read_form, rfc_date_time, four_digits.
  rewrite Ew, Em, Es. unfold two_digits in *.
  rewrite (Nat.div_small (day d) 10), (Nat.mod_small (day d) 10) by exact Hday.
  cbn [forallb] in *.
  repeat match goal with
         | H : _ && _ = true |- _ =>
             apply andb_prop in H; destruct H as [? ?]
         end.
  do 22 eexists. split; [reflexivity|]. split; [reflexivity|].
  cbn [forallb].
  repeat match goal with
         | H : ?t = true |- context [?t] => rewrite H
         end.
  repeat split.
Qed.

Section Lenient_dates.
Context {DF : Date_facets}.

(** X14. [parse_date] reads a date written in the layout of the header,
    whatever text follows the zone: the facet is given the date with a colon
    in the zone, and the text after the zone is dropped. So it is when the
    day is written with one digit: the facet is given the day with a zero
    before it. What the facet does not read is the date format error. *)
Theorem parse_date_lenient (d : date_fields) (rest : text) :
  date_in_range d = true ->
  parse_date (rfc_write d ++ rest) = read_date (rfc_read_form d)
  /\ (day d < 10 ->
      parse_date (rfc_write_short_day d ++ rest)
      = read_date (rfc_read_form d)).
Proof.
  intros H. split.
  - destruct (rfc_layout_chars _ H)
      as (w1 & w2 & w3 & d1 & d2 & m1 & m2 & m3 & y1 & y2 & y3 & y4 & h1
          & h2 & mi1 & mi2 & s1 & s2 & sg & z1 & z2 & z3 & z4 & Ew & Er & Ha
          & Hd & Hs).
    destruct (date_regex_match_rest w1 w2 w3 d1 d2 m1 m2 m3 y1 y2 y3 y4 h1
                h2 mi1 mi2 s1 s2 sg z1 z2 z3 z4 rest Ha Hd Hs) as [Em Et].
    unfold parse_date, read_date. rewrite Ew, Em, Et, <- Er. reflexivity.
  - intros Hday.
    destruct (short_layout_chars _ H Hday)
      as (w1 & w2 & w3 & d2 & m1 & m2 & m3 & y1 & y2 & y3 & y4 & h1
          & h2 & mi1 & mi2 & s1 & s2 & sg & z1 & z2 & z3 & z4 & Ew & Er & Ha
          & Hd & Hs).
    destruct (date_regex_match_short w1 w2 w3 d2 m1 m2 m3 y1 y2 y3 y4 h1
                h2 mi1 mi2 s1 s2 sg z1 z2 z3 z4 rest Ha Hd Hs) as [Em Et].
    unfold parse_date, read_date. rewrite Ew, Em, Et, <- Er. reflexivity.
Qed.

End Lenient_dates.

Lemma plain_addresses_parsed_witness :
  parse_address_list [] (txt "aa@b.c, bb@c.d")
  = Ok (Mailboxes [Mail_address [] (txt "aa@b.c");
                   Mail_address [] (txt "bb@c.d")] []).
Proof.
  apply (@plain_addresses_parsed [] (txt " ") [(txt "aa", txt "b.c")]
           (txt "bb", txt "c.d")); reflexivity.
Defined.

Lemma comment_after_last_address_witness :
  parse_address_list [] (txt "aa@b.c, bb@c.d (at home) ")
  = Ok (Mailboxes [Mail_address [] (txt "aa@b.c");
                   Mail_address [] (txt "bb@c.d")] [])
  /\ parse_address_list [] (txt "aa@b.c, bb@c.d (at home) , cc@d.e")
     = Err Bad_address_or_group.
Proof.
  destruct (@comment_after_last_address [] (txt " ") (txt " ")
              (txt "at home") (txt " ") [(txt "aa", txt "b.c")]
              (txt "bb", txt "c.d") eq_refl eq_refl eq_refl eq_refl eq_refl
              eq_refl) as [H1 H2].
  split; [exact H1|].
  exact (H2 ","%char (txt " cc@d.e") eq_refl).
Defined.

Lemma addresses_lost_at_the_end_witness :
  parse_address_list []
    (followed_by_commas (txt " ") (map plain_address aa_and_bb) ++ txt " ")
  = Ok (Mailboxes [] [])
  /\ parse_address_list []
       (followed_by_commas (txt " ") (map plain_address aa_and_bb) ++ txt "x")
     = Ok (Mailboxes [Mail_address (txt "x") []] []).
Proof.
  destruct (@addresses_lost_at_the_end [] (txt " ") (txt " ") aa_and_bb
              "x"%char "y"%char eq_refl eq_refl eq_refl
              ltac:(discriminate) eq_refl eq_refl) as (H1 & H2 & _).
  split; [exact H1 | exact H2].
Defined.

Lemma mailboxes_round_trip_witness :
  exists t,
    format_mailbox doe_and_roe = Ok t
    /\ parse_address_list quoted_punctuation (txt " " ++ t) = Ok doe_and_roe.
Proof.
  apply (@mailboxes_round_trip quoted_punctuation eq_refl doe_and_roe
           (txt " ")); reflexivity.
Defined.

Lemma parse_date_lenient_witness :
  @parse_date rfc_facets (rfc_write july_7 ++ txt " (CEST)")
  = read_date (rfc_read_form july_7)
  /\ @parse_date rfc_facets (rfc_write_short_day july_7 ++ txt " (CEST)")
     = read_date (rfc_read_form july_7).
Proof.
  destruct (@parse_date_lenient rfc_facets july_7 (txt " (CEST)") eq_refl)
    as [H1 H2].
  split; [exact H1 | apply H2; cbn; lia].
Defined.

(** ** Groups *)

Section Groups.
Variable QTEXT : text.
Hypothesis HQ : reads_quoted QTEXT = true.

(** *** The text *)

Lemma format_legible_addresses (l : list mail_address) :
  forallb legible_address l = true ->
  format_addresses l = Ok (written_list l).
Proof.
  induction l as [|a l IH]; intros H; [reflexivity|].
  cbn in H. apply andb_prop in H. destruct H as [Ha Hl].
  cbn [format_addresses written_list].
  rewrite format_legible_address, IH by assumption. reflexivity.
Qed.

Lemma opening_member_good (a : mail_address) :
  opening_member a = true -> good_address a = true.
Proof. unfold opening_member. intros H. apply andb_prop in H. tauto. Qed.

Lemma group_members_legible (ms : list mail_address) :
  group_members ms = true -> forallb legible_address ms = true.
Proof.
  destruct ms as [|m ms]; [reflexivity|]. cbn. intros H.
  apply andb_prop in H. destruct H as [Hm Hms].
  unfold legible_address at 1. rewrite (opening_member_good _ Hm), Hms.
  reflexivity.
Qed.

Lemma atom_ATEXT_REGEX (n : text) : atom n = true -> ATEXT_REGEX n = true.
Proof.
  unfold atom. intros H. apply andb_prop in H. destruct H as [_ H].
  unfold ATEXT_REGEX. rewrite forallb_forall in *. intros c Hc.
  specialize (H c Hc). unfold is_atext, ATEXT in H. unfold isalnum.
  exact H.
Qed.

Lemma format_one_group (g : mail_group) (rest : text) (last : bool) :
  first_group g = true ->
  (if ATEXT_REGEX (group_name g) then
     ms <- format_addresses (members g) ;;
     Ok (group_name g ++ [COLON_CHAR; SPACE_CHAR] ++ ms
         ++ (if last then txt ";" else txt "; ") ++ rest)
   else Err Bad_address_or_group)
  = Ok (group_body g ++ (if last then txt ";" else txt "; ") ++ rest).
Proof.
  unfold first_group. intros H. apply andb_prop in H. destruct H as [Hn Hm].
  rewrite (atom_ATEXT_REGEX _ Hn).
  rewrite (format_legible_addresses _ (group_members_legible _ Hm)).
  cbn [bind]. unfold group_body. rewrite <- !app_assoc. reflexivity.
Qed.

Lemma later_group_first (g : mail_group) :
  later_group g = true -> first_group g = true.
Proof. unfold later_group. intros H. apply andb_prop in H. tauto. Qed.

Lemma format_groups_text (g : mail_group) (gs : list mail_group) :
  first_group g = true -> forallb later_group gs = true ->
  format_groups (g :: gs)
  = Ok (group_body g ++ SEMICOLON_CHAR :: later_text gs).
Proof.
  revert g. induction gs as [|g' gs IH]; intros g Hg Hgs.
  - pose proof (format_one_group g [] true Hg) as E.
    cbn [format_groups is_nil bind].
    destruct (ATEXT_REGEX (group_name g)); [|discriminate].
    destruct (format_addresses (members g)) as [ms|e]; [|discriminate].
    cbn [bind] in *. rewrite E. reflexivity.
  - cbn in Hgs. apply andb_prop in Hgs. destruct Hgs as [Hg' Hgs].
    specialize (IH g' (later_group_first _ Hg') Hgs).
    pose proof (format_one_group g
                  (group_body g' ++ SEMICOLON_CHAR :: later_text gs)
                  false Hg) as E.
    change (format_groups (g :: g' :: gs))
      with (if ATEXT_REGEX (group_name g) then
              ms <- format_addresses (members g) ;;
              rest <- format_groups (g' :: gs) ;;
              Ok (group_name g ++ [COLON_CHAR; SPACE_CHAR] ++ ms
                  ++ txt "; " ++ rest)
            else Err Bad_address_or_group).
    rewrite IH.
    destruct (ATEXT_REGEX (group_name g)); [|discriminate].
    destruct (format_addresses (members g)) as [ms|e]; [|discriminate].
    cbn [bind] in *. rewrite E. reflexivity.
Qed.


(** *** The machine on written addresses, in any context *)

Lemma steps_prefix_in (a : mail_address) (pos : nat) ml gl cg ma gf :
  good_address a = true ->
  steps QTEXT pos (address_prefix a)
    (Locals ml gl empty_address cg ma BEGIN false gf [])
  = Ok (Locals ml gl (Mail_address (name a) []) cg ma ADDRBRBEG false gf []).
Proof.
  intros H. destruct (good_address_parts _ H) as (_ & _ & _ & Hn & Ht).
  unfold address_prefix. destruct (name a) as [|c n] eqn:En.
  - reflexivity.
  - cbn [is_nil]. cbn in Hn. apply andb_prop in Hn. destruct Hn as [Hc Hn].
    pose proof (trimmed_head _ _ Ht) as Hsp.
    assert (Ha : is_atext c = true).
    { destruct (name_char_cases _ Hc) as [Ha | (_ & _ & Hs)];
        [exact Ha | congruence]. }
    cbn [app steps]. unfold step at 1. cbn [state].
    unfold on_BEGIN. rewrite Hsp, Ha. cbn [bind at_last].
    unfold token_add, set_token, set_state. cbn.
    rewrite steps_app.
    destruct (@steps_name QTEXT n (S pos) ml gl empty_address cg
                ma NAMEADDRGRP false gf [c] (or_introl eq_refl) Hn)
      as (st' & Hst' & Es).
    rewrite Es. cbn [bind steps].
    assert (E1 : step QTEXT (fun _ a => a) false (length n + S pos) SPACE_CHAR
                   (Locals ml gl empty_address cg ma st' false gf ([c] ++ n))
                 = Ok (Locals ml gl empty_address cg ma NAME false gf
                              (c :: n ++ [SPACE_CHAR]))).
    { destruct Hst' as [-> | ->]; reflexivity. }
    rewrite E1. cbn [bind].
    rewrite step_open_after_name. cbn [bind steps].
    change (c :: n ++ [SPACE_CHAR]) with ((c :: n) ++ [SPACE_CHAR]).
    rewrite trim_name_space by exact Ht. reflexivity.
Qed.

Lemma steps_written_prefix_in (a : mail_address) (pos : nat) ml gl cg ma gf :
  legible_address a = true ->
  steps QTEXT pos (written_prefix a)
    (Locals ml gl empty_address cg ma BEGIN false gf [])
  = Ok (Locals ml gl (Mail_address (name a) []) cg ma ADDRBRBEG false gf []).
Proof.
  intros H. apply orb_prop in H. destruct H as [H | H].
  - unfold written_prefix. rewrite (good_address_name _ H).
    apply steps_prefix_in. exact H.
  - destruct (quoted_address_parts _ H) as (_ & _ & _ & Hn & Hq).
    unfold written_prefix. rewrite Hn. cbn [steps].
    change (step QTEXT (fun _ a => a) false pos QUOTE_CHAR
              (Locals ml gl empty_address cg ma BEGIN false gf []))
      with (Ok (Locals ml gl empty_address cg ma QNAMEADDRBEG false gf [])).
    cbn [bind]. rewrite steps_app.
    rewrite (@steps_quoted QTEXT HQ) by exact Hq. cbn [bind app steps].
    unfold step at 1. cbn [state]. unfold on_QNAMEADDRBEG.
    pose proof HQ as HQ'. unfold reads_quoted in HQ'.
    apply andb_prop in HQ'. destruct HQ' as [_ Hquote].
    apply negb_true_iff in Hquote. rewrite Hquote.
    reflexivity.
Qed.

Lemma legible_address_parts (a : mail_address) :
  legible_address a = true ->
  forallb dtext_char (address a) = true
  /\ find_char (address a) MONKEY_CHAR = true.
Proof.
  intros H. apply orb_prop in H. destruct H as [H | H].
  - destruct (good_address_parts _ H) as (_ & Hd & Hm & _). auto.
  - destruct (quoted_address_parts _ H) as (_ & Hd & Hm & _). auto.
Qed.

(** The closing bracket stores the address. *)
Lemma step_close_in (pos : nat) (n tk : text) ml gl cg ma gf :
  step QTEXT (fun _ a => a) false pos GREATER_THAN_CHAR
    (Locals ml gl (Mail_address n []) cg ma ADDRBRBEG true gf tk)
  = Ok (Locals ml gl empty_address cg (ma ++ [Mail_address n tk]) ADDRBREND
               false gf []).
Proof. reflexivity. Qed.

(** The machine from an opened bracket to the closed one. *)
Lemma steps_to_close (a : mail_address) (pos : nat) ml gl cg ma gf :
  legible_address a = true ->
  steps QTEXT pos (address a ++ [GREATER_THAN_CHAR])
    (Locals ml gl (Mail_address (name a) []) cg ma ADDRBRBEG false gf [])
  = Ok (Locals ml gl empty_address cg (ma ++ [a]) ADDRBREND false gf []).
Proof.
  intros H. destruct (legible_address_parts _ H) as [Hd Hm].
  rewrite steps_app, steps_bracketed by exact Hd. rewrite Hm.
  cbn [bind orb app steps]. rewrite step_close_in, mail_address_eta.
  reflexivity.
Qed.

Lemma steps_written (a : mail_address) (pos : nat) ml gl cg ma gf :
  legible_address a = true ->
  steps QTEXT pos (written a)
    (Locals ml gl empty_address cg ma BEGIN false gf [])
  = Ok (Locals ml gl empty_address cg (ma ++ [a]) ADDRBREND false gf []).
Proof.
  intros H. unfold written.
  rewrite steps_app, steps_written_prefix_in by exact H. cbn [bind].
  apply steps_to_close. exact H.
Qed.

(** After a closed bracket, the comma and the space before the next
    address. *)
Lemma steps_comma_space (pos : nat) ml gl cg ma gf :
  steps QTEXT pos (txt ", ")
    (Locals ml gl empty_address cg ma ADDRBREND false gf [])
  = Ok (Locals ml gl empty_address cg ma BEGIN false gf []).
Proof. reflexivity. Qed.

(** The machine on the addresses after the first of a written list. *)
Lemma steps_written_more (l : list mail_address) (pos : nat) ml gl cg ma gf :
  forallb legible_address l = true ->
  steps QTEXT pos ((if is_nil l then [] else txt ", ") ++ written_list l)
    (Locals ml gl empty_address cg ma ADDRBREND false gf [])
  = Ok (Locals ml gl empty_address cg (ma ++ l) ADDRBREND false gf []).
Proof.
  revert pos ma. induction l as [|a l IH]; intros pos ma H.
  - cbn. rewrite app_nil_r. reflexivity.
  - cbn in H. apply andb_prop in H. destruct H as [Ha Hl].
    cbn [is_nil written_list]. rewrite steps_app, steps_comma_space.
    cbn [bind]. rewrite steps_app, steps_written by exact Ha. cbn [bind].
    rewrite IH by exact Hl. rewrite <- app_assoc. reflexivity.
Qed.

Lemma steps_written_list (a : mail_address) (l : list mail_address)
    (pos : nat) ml gl cg ma gf :
  forallb legible_address (a :: l) = true ->
  steps QTEXT pos (written_list (a :: l))
    (Locals ml gl empty_address cg ma BEGIN false gf [])
  = Ok (Locals ml gl empty_address cg (ma ++ a :: l) ADDRBREND false gf []).
Proof.
  intros H. cbn in H. apply andb_prop in H. destruct H as [Ha Hl].
  cbn [written_list]. rewrite steps_app, steps_written by exact Ha.
  cbn [bind]. rewrite steps_written_more by exact Hl.
  rewrite <- app_assoc. reflexivity.
Qed.


(** *** The machine on a group *)

(** The name of a group and its colon: the addresses read so far go to the
    result. *)
Lemma steps_group_name (n tk : text) (pos : nat) ml gl ma :
  atom n = true ->
  steps QTEXT pos (n ++ [COLON_CHAR])
    (Locals ml gl empty_address (Mail_group [] []) ma BEGIN false false tk)
  = Ok (Locals (ml ++ ma) gl empty_address (Mail_group (tk ++ n) []) []
               GROUPBEG false true []).
Proof.
  intros H. destruct (atom_parts _ H) as (c & n' & -> & Hc & Hn).
  cbn [app steps]. unfold step at 1. cbn [state]. unfold on_BEGIN.
  rewrite (atext_no_space _ Hc), Hc. cbn [bind at_last].
  unfold token_add, set_token, set_state. cbn [token mail_list
    mail_group_list cur_address cur_group mail_addrs state monkey_found
    group_found].
  rewrite steps_app.
  rewrite steps_atom_chars by (auto || exact Hn). cbn [bind steps].
  rewrite <- app_assoc. reflexivity.
Qed.

(** The name of a group after another group. *)
Lemma steps_later_name (n : text) (pos : nat) ml gl :
  atom n = true -> 2 <= length n ->
  steps QTEXT pos (SPACE_CHAR :: n ++ [COLON_CHAR]) (after_group ml gl)
  = Ok (Locals ml gl empty_address (Mail_group n []) [] GROUPBEG false true
               []).
Proof.
  intros H Hl. destruct (atom_parts _ H) as (c & n' & -> & Hc & Hn).
  destruct n' as [|c2 n']; [cbn in Hl; lia|].
  change (SPACE_CHAR :: (c :: c2 :: n') ++ [COLON_CHAR])
    with ([SPACE_CHAR; c] ++ (c2 :: n') ++ [COLON_CHAR]).
  rewrite steps_app.
  assert (E : steps QTEXT pos [SPACE_CHAR; c] (after_group ml gl)
              = Ok (Locals ml gl empty_address (Mail_group [] []) [] BEGIN
                           false false [c])).
  { cbn [steps]. unfold after_group.
    change (step QTEXT (fun _ a => a) false pos SPACE_CHAR
              (Locals ml gl empty_address (Mail_group [] []) [] GROUPEND
                      false false []))
      with (Ok (Locals ml gl empty_address (Mail_group [] []) [] GROUPEND
                       false false [])).
    cbn [bind]. unfold step. cbn [state]. unfold on_GROUPEND.
    rewrite Hc. reflexivity. }
  rewrite E. cbn [bind].
  rewrite steps_group_name.
  - rewrite app_nil_r. reflexivity.
  - unfold atom. cbn [is_nil negb andb]. exact Hn.
Qed.

Lemma opening_member_parts (a : mail_address) :
  opening_member a = true ->
  good_address a = true
  /\ (name a = []
      \/ exists c1 c2 n, name a = c1 :: c2 :: n /\ is_atext c2 = true).
Proof.
  unfold opening_member. intros H. apply andb_prop in H.
  destruct H as [Hg Hn]. split; [exact Hg|].
  destruct (name a) as [|c1 [|c2 n]]; [left; reflexivity | discriminate |].
  right. exists c1, c2, n. auto.
Qed.

(** The first member of a group, from the state after the colon. *)
Lemma steps_opening_member (a : mail_address) (pos : nat) ml gl cg :
  opening_member a = true ->
  steps QTEXT pos (written a)
    (Locals ml gl empty_address cg [] GROUPBEG false true [])
  = Ok (Locals ml gl empty_address cg [a] ADDRBREND false true []).
Proof.
  intros H. destruct (opening_member_parts _ H) as [Hg Hname].
  assert (Hleg : legible_address a = true).
  { unfold legible_address. rewrite Hg. reflexivity. }
  destruct (good_address_parts _ Hg) as (_ & _ & _ & Hn & Ht).
  unfold written, written_prefix. rewrite (good_address_name _ Hg).
  rewrite steps_app.
  assert (E : steps QTEXT pos (address_prefix a)
                (Locals ml gl empty_address cg [] GROUPBEG false true [])
              = Ok (Locals ml gl (Mail_address (name a) []) cg []
                           ADDRBRBEG false true [])).
  { unfold address_prefix.
    destruct Hname as [En | (c1 & c2 & n & En & Hc2)]; rewrite En in *.
    - reflexivity.
    - cbn [is_nil]. cbn in Hn. apply andb_prop in Hn. destruct Hn as [Hc Hn].
      apply andb_prop in Hn. destruct Hn as [_ Hn].
      pose proof (trimmed_head _ _ Ht) as Hsp.
      assert (Ha : is_atext c1 = true).
      { destruct (name_char_cases _ Hc) as [Ha | (_ & _ & Hs)];
          [exact Ha | congruence]. }
      cbn [app steps]. unfold step at 1. cbn [state].
      unfold on_GROUPBEG. rewrite Ha. cbn [bind at_last].
      unfold token_add, set_token, set_state. cbn [token mail_list
        mail_group_list cur_address cur_group mail_addrs state monkey_found
        group_found app].
      unfold step at 1. cbn [state]. unfold on_BEGIN.
      rewrite (atext_no_space _ Hc2), Hc2. cbn [bind at_last].
      unfold token_add, set_token, set_state. cbn [token mail_list
        mail_group_list cur_address cur_group mail_addrs state monkey_found
        group_found app].
      rewrite steps_app.
      destruct (@steps_name QTEXT n (S (S pos)) ml gl empty_address cg
                  [] NAMEADDRGRP false true [c1; c2] (or_introl eq_refl) Hn)
        as (st' & Hst' & Es).
      rewrite Es. cbn [bind steps].
      assert (E1 : step QTEXT (fun _ a => a) false (length n + S (S pos))
                     SPACE_CHAR
                     (Locals ml gl empty_address cg [] st' false true
                             ([c1; c2] ++ n))
                   = Ok (Locals ml gl empty_address cg [] NAME false true
                                (c1 :: c2 :: n ++ [SPACE_CHAR]))).
      { destruct Hst' as [-> | ->]; reflexivity. }
      rewrite E1. cbn [bind].
      rewrite step_open_after_name. cbn [bind steps].
      change (c1 :: c2 :: n ++ [SPACE_CHAR])
        with ((c1 :: c2 :: n) ++ [SPACE_CHAR]).
      rewrite trim_name_space by exact Ht. reflexivity. }
  rewrite E. cbn [bind].
  rewrite steps_to_close by exact Hleg. reflexivity.
Qed.

(** The members of a group, from the state after the colon to the state
    before the semicolon. *)
Lemma steps_members (n : text) (ms : list mail_address) (pos : nat) ml gl :
  group_members ms = true ->
  steps QTEXT pos (SPACE_CHAR :: written_list ms)
    (Locals ml gl empty_address (Mail_group n []) [] GROUPBEG false true [])
  = Ok (in_group ml gl n ms).
Proof.
  intros H. cbn [steps].
  change (step QTEXT (fun _ a => a) false pos SPACE_CHAR
            (Locals ml gl empty_address (Mail_group n []) [] GROUPBEG false
                    true []))
    with (Ok (Locals ml gl empty_address (Mail_group n []) [] GROUPBEG false
                     true [])).
  cbn [bind]. destruct ms as [|m ms]; [reflexivity|].
  cbn in H. apply andb_prop in H. destruct H as [Hm Hms].
  cbn [written_list]. rewrite steps_app, steps_opening_member by exact Hm.
  cbn [bind]. rewrite steps_written_more by exact Hms. reflexivity.
Qed.

(** The semicolon ends the group, at the end of the list and before it. *)
Lemma step_semicolon (last : bool) (pos : nat) (n : text)
    (ms : list mail_address) ml gl :
  step QTEXT (fun _ a => a) last pos SEMICOLON_CHAR (in_group ml gl n ms)
  = Ok (after_group ml (gl ++ [Mail_group n ms])).
Proof. destruct ms; destruct last; reflexivity. Qed.

Lemma first_group_parts (g : mail_group) :
  first_group g = true ->
  atom (group_name g) = true /\ group_members (members g) = true.
Proof. unfold first_group. apply andb_prop. Qed.

Lemma mail_group_eta (g : mail_group) :
  Mail_group (group_name g) (members g) = g.
Proof. destruct g; reflexivity. Qed.

(** A group after another one, up to its semicolon. *)
Lemma steps_later_group (g : mail_group) (pos : nat) ml gl :
  later_group g = true ->
  steps QTEXT pos (SPACE_CHAR :: group_body g) (after_group ml gl)
  = Ok (in_group ml gl (group_name g) (members g)).
Proof.
  unfold later_group. intros H. apply andb_prop in H. destruct H as [Hf Hl].
  apply Nat.leb_le in Hl. destruct (first_group_parts _ Hf) as [Hn Hm].
  unfold group_body.
  change (SPACE_CHAR :: group_name g ++ [COLON_CHAR; SPACE_CHAR]
                     ++ written_list (members g))
    with (SPACE_CHAR :: group_name g ++ [COLON_CHAR]
                     ++ SPACE_CHAR :: written_list (members g)).
  rewrite app_assoc, app_comm_cons, steps_app.
  rewrite steps_later_name by assumption. cbn [bind].
  apply steps_members. exact Hm.
Qed.

Lemma run_cons (c : ascii) (rest : text) (pos : nat)
    (l : locals mail_address) :
  run QTEXT (fun _ a => a) pos (c :: rest) l
  = (l' <- step QTEXT (fun _ a => a) (is_nil rest) pos c l ;;
     run QTEXT (fun _ a => a) (S pos) rest l').
Proof. reflexivity. Qed.

(** The groups after the first, from the semicolon of the first. *)
Lemma run_later_groups (gs : list mail_group) (pos : nat) (n : text)
    (ms : list mail_address) ml gl :
  forallb later_group gs = true ->
  run QTEXT (fun _ a => a) pos (SEMICOLON_CHAR :: later_text gs)
    (in_group ml gl n ms)
  = Ok (after_group ml (gl ++ Mail_group n ms :: gs)).
Proof.
  revert pos n ms gl. induction gs as [|g gs IH]; intros pos n ms gl H.
  - cbn [later_text]. rewrite run_cons, step_semicolon. reflexivity.
  - cbn in H. apply andb_prop in H. destruct H as [Hg Hgs].
    cbn [later_text]. rewrite run_cons, step_semicolon. cbn [bind].
    rewrite app_comm_cons, run_steps by discriminate.
    rewrite steps_later_group by exact Hg. cbn [bind].
    rewrite IH by exact Hgs. rewrite mail_group_eta, <- app_assoc.
    reflexivity.
Qed.

(** X15. Round trip of a list with groups. Let the constant [QTEXT] of the
    parser be as for quoted names. A list of legible addresses, not empty,
    followed by groups, is written by [format_mailbox] and read back by
    [parse_address_list], behind any white space, as the same list, when:
    each group has an atom as its name, of two characters or more for every
    group but the first; the first member of each group is a good address
    without a name or with a name whose second character is no blank; the
    other members are legible. A group may have no member. *)
Theorem groups_round_trip (mb : mailboxes) (ws : text) :
  grouped_mailboxes mb = true -> forallb isspace ws = true ->
  exists t, format_mailbox mb = Ok t
            /\ parse_address_list QTEXT (ws ++ t) = Ok mb.
Proof.
  unfold grouped_mailboxes. intros H Hws. destruct mb as [l gs].
  cbn [addresses groups] in H.
  apply andb_prop in H. destruct H as [H Hgs].
  apply andb_prop in H. destruct H as [Hne Hl].
  destruct l as [|a l]; [discriminate|]. destruct gs as [|g gs]; [discriminate|].
  apply andb_prop in Hgs. destruct Hgs as [Hg Hgs].
  destruct (first_group_parts _ Hg) as [Hn Hm].
  exists (written_list (a :: l) ++ txt ", "
          ++ group_body g ++ SEMICOLON_CHAR :: later_text gs).
  split.
  - unfold format_mailbox. cbn [addresses groups].
    rewrite format_legible_addresses, format_groups_text by assumption.
    reflexivity.
  - unfold parse_address_list, parse_address_list_of.
    rewrite run_steps
      by (intros E; apply (f_equal (@length ascii)) in E;
          rewrite !length_app in E; cbn in E; lia).
    rewrite steps_spaces by (reflexivity || exact Hws). cbn [bind].
    replace (written_list (a :: l) ++ txt ", "
             ++ group_body g ++ SEMICOLON_CHAR :: later_text gs)
      with ((written_list (a :: l) ++ txt ", "
             ++ (group_name g ++ [COLON_CHAR])
             ++ SPACE_CHAR :: written_list (members g))
            ++ SEMICOLON_CHAR :: later_text gs)
      by (unfold group_body; rewrite <- !app_assoc; reflexivity).
    rewrite run_steps by discriminate.
    unfold initial.
    rewrite steps_app, steps_written_list by exact Hl. cbn [bind app].
    rewrite steps_app, steps_comma_space. cbn [bind].
    rewrite steps_app, steps_group_name by exact Hn. cbn [bind app].
    rewrite steps_members by exact Hm. cbn [bind].
    rewrite run_later_groups by exact Hgs. cbn [bind app mail_list
      mail_group_list after_group]. rewrite mail_group_eta. reflexivity.
Qed.

End Groups.


Section Short_names.
Variable QTEXT : text.
Hypothesis HQ : reads_quoted QTEXT = true.

(** The machine on the addresses before the groups and on the name of the
    first group. *)
Lemma steps_to_group (a : mail_address) (l : list mail_address) (n : text)
    (pos : nat) :
  forallb legible_address (a :: l) = true -> atom n = true ->
  steps QTEXT pos (written_list (a :: l) ++ txt ", " ++ n ++ [COLON_CHAR])
    (initial mail_address)
  = Ok (Locals (a :: l) [] empty_address (Mail_group n []) [] GROUPBEG false
               true []).
Proof.
  intros Hl Hn. unfold initial.
  rewrite steps_app, (@steps_written_list QTEXT HQ) by exact Hl.
  cbn [bind app].
  rewrite steps_app, steps_comma_space. cbn [bind].
  rewrite steps_group_name by exact Hn. reflexivity.
Qed.

(** X16. What the round trip of groups asks of the names is needed. A first
    member whose name is one character is read without a name, the
    character in front of its address. A group after another one whose name
    is one character is refused. *)
Theorem short_names_in_groups (a : mail_address) (l : list mail_address)
    (n ws : text) (c : ascii) :
  forallb legible_address (a :: l) = true -> atom n = true ->
  forallb isspace ws = true -> is_atext c = true ->
  (forall m, good_address m = true -> name m = [c] ->
     parse_address_list QTEXT
       (ws ++ written_list (a :: l) ++ txt ", " ++ n ++ txt ": "
           ++ written m ++ txt ";")
     = Ok (Mailboxes (a :: l)
             [Mail_group n [Mail_address [] (c :: address m)]]))
  /\ (forall ms rest, group_members ms = true ->
        parse_address_list QTEXT
          (ws ++ written_list (a :: l) ++ txt ", " ++ n ++ txt ": "
              ++ written_list ms ++ txt "; " ++ c :: COLON_CHAR :: rest)
        = Err Bad_address_or_group).
Proof.
  intros Hl Hn Hws Hc. split.
  - intros m Hm Hname.
    destruct (good_address_parts _ Hm) as (_ & Hd & Hmk & _ & _).
    unfold parse_address_list, parse_address_list_of.
    rewrite run_steps
      by (intros E; apply (f_equal (@length ascii)) in E;
          rewrite !length_app in E; cbn in E; lia).
    rewrite steps_spaces by (reflexivity || exact Hws). cbn [bind].
    assert (Et : written m
                 = [c; SPACE_CHAR; LESS_THAN_CHAR] ++ address m
                   ++ [GREATER_THAN_CHAR]).
    { unfold written, written_prefix, address_prefix.
      rewrite (good_address_name _ Hm), Hname. reflexivity. }
    rewrite Et.
    match goal with
    | |- context [run _ _ _ ?t _] =>
        replace t
          with (((written_list (a :: l) ++ txt ", " ++ n ++ [COLON_CHAR])
                 ++ [SPACE_CHAR; c; SPACE_CHAR; LESS_THAN_CHAR] ++ address m)
                ++ txt ">;")
          by (rewrite <- !app_assoc; reflexivity)
    end.
    rewrite run_steps by discriminate.
    rewrite steps_app, steps_to_group by assumption. cbn [bind].
    rewrite steps_app.
    assert (E : steps QTEXT
                  (length (written_list (a :: l) ++ txt ", " ++ n
                           ++ [COLON_CHAR]) + (length ws + 0))
                  [SPACE_CHAR; c; SPACE_CHAR; LESS_THAN_CHAR]
                  (Locals (a :: l) [] empty_address (Mail_group n []) []
                          GROUPBEG false true [])
                = Ok (Locals (a :: l) [] empty_address (Mail_group n []) []
                             ADDRBRBEG false true [c])).
    { generalize (length (written_list (a :: l) ++ txt ", " ++ n
                          ++ [COLON_CHAR]) + (length ws + 0)).
      intros p. cbn [steps].
      change (step QTEXT (fun _ a => a) false p SPACE_CHAR
                (Locals (a :: l) [] empty_address (Mail_group n []) []
                        GROUPBEG false true []))
        with (Ok (Locals (a :: l) [] empty_address (Mail_group n []) []
                         GROUPBEG false true [])).
      cbn [bind]. unfold step at 1. cbn [state]. unfold on_GROUPBEG.
      rewrite Hc. reflexivity. }
    rewrite E. cbn [bind]. rewrite steps_bracketed by exact Hd.
    rewrite Hmk. reflexivity.
  - intros ms rest Hms.
    unfold parse_address_list, parse_address_list_of.
    rewrite run_steps
      by (intros E; apply (f_equal (@length ascii)) in E;
          rewrite !length_app in E; cbn in E; lia).
    rewrite steps_spaces by (reflexivity || exact Hws). cbn [bind].
    match goal with
    | |- context [run _ _ _ ?t _] =>
        replace t
          with (((written_list (a :: l) ++ txt ", " ++ n ++ [COLON_CHAR])
                 ++ SPACE_CHAR :: written_list ms)
                ++ SEMICOLON_CHAR :: SPACE_CHAR :: c :: COLON_CHAR :: rest)
          by (rewrite <- !app_assoc; reflexivity)
    end.
    rewrite run_steps by discriminate.
    rewrite steps_app, steps_to_group by assumption. cbn [bind].
    rewrite (@steps_members QTEXT HQ) by exact Hms. cbn [bind].
    rewrite run_cons, step_semicolon. cbn [bind].
    rewrite run_cons. unfold after_group.
    change (step QTEXT (fun _ a => a)
              (is_nil (c :: COLON_CHAR :: rest)) _ SPACE_CHAR _)
      with (Ok (Locals (a :: l) ([] ++ [Mail_group n ms]) empty_address
                       (Mail_group [] []) [] GROUPEND false false [])).
    cbn [bind]. rewrite run_cons. unfold step at 1. cbn [state is_nil].
    unfold on_GROUPEND. rewrite Hc. cbn [bind at_last].
    rewrite run_cons. unfold step. cbn [state set_state token_add set_token].
    unfold on_BEGIN.
    change (isspace COLON_CHAR) with false.
    change (is_atext COLON_CHAR) with false.
    reflexivity.
Qed.

End Short_names.

Lemma groups_round_trip_witness :
  exists t,
    format_mailbox friends_and_family = Ok t
    /\ parse_address_list quoted_punctuation (txt " " ++ t)
       = Ok friends_and_family.
Proof.
  apply (@groups_round_trip quoted_punctuation eq_refl friends_and_family
           (txt " ")); reflexivity.
Defined.

Lemma short_names_in_groups_witness :
  parse_address_list quoted_punctuation
    (txt "<jroe@mailio.dev>, G: A <al@mailio.dev>;")
  = Ok (Mailboxes [jroe]
          [Mail_group (txt "G") [Mail_address [] (txt "Aal@mailio.dev")]])
  /\ parse_address_list quoted_punctuation
       (txt "<jroe@mailio.dev>, G: ; A: <al@mailio.dev>;")
     = Err Bad_address_or_group.
Proof.
  destruct (@short_names_in_groups quoted_punctuation eq_refl jroe []
              (txt "G") [] "A"%char eq_refl eq_refl eq_refl eq_refl)
    as [H1 H2].
  split.
  - match goal with
    | |- ?G =>
        exact (H1 (Mail_address (txt "A") (txt "al@mailio.dev")) eq_refl
                  eq_refl <: G)
    end.
  - match goal with
    | |- ?G => exact (H2 [] (txt " <al@mailio.dev>;") eq_refl <: G)
    end.
Defined.

(** ** Dates without the day of the week *)

(** A repetition which finds fewer characters than its lower bound does
    not match. *)
Lemma rmatch_too_short (cls : ascii -> bool) (lo : nat) (hi : option nat)
    (r' : regex) (pos : nat) (s : text) (caps : captures) :
  greedy cls hi s < lo ->
  rmatch (Rep cls lo hi :: r') pos s caps = None.
Proof.
  intros H. cbn [rmatch]. destruct (greedy cls hi s) as [|n]; cbn [backtrack].
  - destruct (Nat.ltb_spec 0 lo); [reflexivity | lia].
  - destruct (Nat.ltb_spec (S n) lo); [reflexivity | lia].
Qed.

Section Dates_without_weekday.
Context {DF : Date_facets}.

(** X17. A date which does not start with a letter is no date for
    [parse_date]: the result is the not-a-date-time value, without an error.
    So it is for a date without the day of the week, which RFC 5322 lets
    out, and for the empty text. *)
Theorem parse_date_needs_weekday (date_str : text) :
  match date_str with [] => True | c :: _ => isalpha c = false end ->
  parse_date date_str = Ok not_a_date_time.
Proof.
  intros H. unfold parse_date.
  assert (E : regex_match date_str date_regex = None).
  { unfold regex_match, date_regex, exactly. rewrite rmatch_open.
    apply rmatch_too_short. destruct date_str as [|c s]; cbn [greedy].
    - lia.
    - rewrite H. lia. }
  rewrite E. reflexivity.
Qed.

End Dates_without_weekday.

Lemma parse_date_needs_weekday_witness :
  @parse_date rfc_facets (txt "7 Jul 2014 10:31:49 +0200")
  = Ok not_a_date_time.
Proof.
  apply (@parse_date_needs_weekday rfc_facets (txt "7 Jul 2014 10:31:49 +0200")).
  reflexivity.
Defined.
